(** * Sliding-tile puzzle: the board engine of [App.tsx] and [utils/puzzleUtils.ts]

    The development embeds the puzzle state engine of the repository:
    [generateSolvedState], [shuffleTiles], [isSolved] (utils/puzzleUtils.ts),
    the arithmetic of [sliceImage], and the move logic of [handleTileClick]
    (App.tsx).

    Modelling conventions.
    - JavaScript numbers that hold array indices, grid sizes and counters are
      integers ([Z]); [Math.floor (a / b)] is [a / b] ([Z.div], floor division
      for a positive divisor) and [a % b] is [Z.rem a b] (truncated, sign of
      the dividend).  The grid size is never zero (the source takes it from
      the [Difficulty] enum: 3, 4 or 5).  The quotient of two doubles is
      rounded, but below 2^53 its floor is the integer quotient
      ([floor_round_double_div]).
    - Tile objects live in a store ([heap]); a JavaScript array of tiles holds
      references into it.  [[...tiles]] copies the references, not the
      objects, so a write to [t.currentPos] is seen through every array that
      holds [t].
    - Reading or writing a property of [undefined] raises [TypeError]; the
      store keeps the writes made before the exception.
    - [Math.random()] is a sequence of doubles in [[0, 1)], one per call.
      The product [Math.random() * length] of shuffleTiles and the quotient
      [seconds / 60] of formatTime are the exact results rounded to the
      nearest double ([round_double]); halving an integer, as sliceImage
      does for its offsets, is exact. *)

From Stdlib Require Import ZArith QArith Qround Qpower Lia Lqa.
From Stdlib Require DecimalString DecimalPos DecimalZ.
From stdpp Require Import base option list strings relations.

Local Open Scope Z_scope.

(** ** Data model (types.ts) *)

Inductive GameState := IDLE | GENERATING | PLAYING | WON.

Definition GameState_eqb (a b : GameState) : bool :=
  match a, b with
  | IDLE, IDLE | GENERATING, GENERATING | PLAYING, PLAYING | WON, WON => true
  | _, _ => false
  end.

Record Tile := mkTile {
  id : Z;
  currentPos : Z;
  correctPos : Z;
  imageUrl : string;
  isEmpty : bool
}.

(** [tile.currentPos = p] *)
Definition with_currentPos (p : Z) (t : Tile) : Tile :=
  {| id := id t; currentPos := p; correctPos := correctPos t;
     imageUrl := imageUrl t; isEmpty := isEmpty t |}.

(** ** The store of tile objects

    A reference is the position of the object in the store; objects are
    never freed, and a new object is appended. *)

Abbreviation loc := nat (only parsing).
Abbreviation heap := (list Tile) (only parsing).

(** What an array slot or a variable of type [Tile | undefined] holds:
    [None] is [undefined]. *)
Abbreviation jsref := (option nat) (only parsing).

(** The object a value refers to; [None] when the value is [undefined].
    (A reference outside the store does not arise from the source; the
    model treats it like [undefined].) *)
Definition deref (h : heap) (v : jsref) : option Tile :=
  match v with
  | Some l => h !! l
  | None => None
  end.

(** ** Computations over the store that may throw *)

Inductive outcome (A : Type) : Type :=
  | Done (a : A)
  | TypeError.
Arguments Done {A} a.
Arguments TypeError {A}.

Definition M (A : Type) : Type := heap → heap * outcome A.

Definition ret {A} (a : A) : M A := λ h, (h, Done a).
Definition throw {A} : M A := λ h, (h, TypeError).
Definition bind {A B} (m : M A) (k : A → M B) : M B :=
  λ h, match m h with
       | (h', Done a) => k a h'
       | (h', TypeError) => (h', TypeError)
       end.

Notation "'let*' x ':=' m 'in' k" := (bind m (λ x, k))
  (at level 10, x name, m at level 100, k at level 200, only parsing).
Notation "m '>>' k" := (bind m (λ _, k))
  (at level 100, k at level 200, right associativity, only parsing).

(** [v.currentPos = p] *)
Definition set_currentPos (v : jsref) (p : Z) : M unit :=
  λ h, match v with
       | Some l =>
           match h !! l with
           | Some _ => (alter (with_currentPos p) l h, Done tt)
           | None => (h, TypeError)
           end
       | None => (h, TypeError)
       end.

(** [new object]: the fresh reference is the next free position. *)
Definition alloc (t : Tile) : M nat :=
  λ h, (h ++ [t], Done (length h)).

(** ** JavaScript arrays of tile references

    [elems] are the indexed elements [0 .. length-1] (a hole reads as
    [undefined] and is stored as [None]); [props] are the other own
    properties that the source can create by writing at a key that is not
    an index: a negative number, or [undefined] (key [None]).  The most
    recent write comes first. *)

Record jsarray := mkArr {
  elems : list (option nat);
  props : list (option Z * option nat)
}.

(** A dense array of tile references, as the type [Tile[]] promises. *)
Definition arr (b : list nat) : jsarray :=
  {| elems := Some <$> b; props := [] |}.

Definition arr_length (a : jsarray) : Z := Z.of_nat (length (elems a)).

Definition key_eqb (k1 k2 : option Z) : bool :=
  match k1, k2 with
  | Some i, Some j => i =? j
  | None, None => true
  | _, _ => false
  end.

Fixpoint prop_get (ps : list (option Z * option nat)) (k : option Z) : option nat :=
  match ps with
  | [] => None
  | (k', v) :: ps' => if key_eqb k' k then v else prop_get ps' k
  end.

(** [a[k]] *)
Definition arr_get (a : jsarray) (k : option Z) : option nat :=
  match k with
  | Some i =>
      if 0 <=? i then
        match elems a !! Z.to_nat i with
        | Some v => v
        | None => None
        end
      else prop_get (props a) k
  | None => prop_get (props a) k
  end.

(** [a[k] = v]: a write past the end extends the array with holes
    (indices stay far below the array-index limit 2^32 - 1). *)
Definition arr_set (a : jsarray) (k : option Z) (v : option nat) : jsarray :=
  match k with
  | Some i =>
      if 0 <=? i then
        let n := Z.to_nat i in
        if (n <? length (elems a))%nat
        then {| elems := <[n := v]> (elems a); props := props a |}
        else {| elems := elems a ++ replicate (n - length (elems a)) None ++ [v];
                props := props a |}
      else {| elems := elems a; props := (k, v) :: props a |}
  | None => {| elems := elems a; props := (k, v) :: props a |}
  end.

(** [[...a]]: a new array with the elements of [a]. *)
Definition spread (a : jsarray) : jsarray :=
  {| elems := elems a; props := [] |}.

(** [[a[i], a[j]] = [a[j], a[i]]]: the right-hand side is read first,
    then [a[i]] and [a[j]] are written in this order. *)
Definition arr_swap (a : jsarray) (i j : option Z) : jsarray :=
  let x := arr_get a j in
  let y := arr_get a i in
  arr_set (arr_set a i x) j y.

(** [a.findIndex(t => t.isEmpty)]: the first index whose tile is empty,
    [-1] when there is none. *)
Fixpoint findIndex_from (h : heap) (l : list (option nat)) (i : Z) : outcome Z :=
  match l with
  | [] => Done (-1)
  | v :: l' =>
      match deref h v with
      | Some t => if isEmpty t then Done i else findIndex_from h l' (i + 1)
      | None => TypeError
      end
  end.

Definition findIndex_isEmpty (a : jsarray) : M Z :=
  λ h, (h, findIndex_from h (elems a) 0).

(** ** isSolved (puzzleUtils.ts:128-130)

    [tiles.every(tile => tile.currentPos === tile.correctPos)] *)
Fixpoint every_at_correctPos (h : heap) (l : list (option nat)) : outcome bool :=
  match l with
  | [] => Done true
  | v :: l' =>
      match deref h v with
      | Some t => if currentPos t =? correctPos t then every_at_correctPos h l' else Done false
      | None => TypeError
      end
  end.

Definition isSolved (tiles : jsarray) : M bool :=
  λ h, (h, every_at_correctPos h (elems tiles)).

(** ** handleTileClick (App.tsx:71-103) *)

(** The adjacency test of lines 78-85. *)
Definition isAdjacent (gridSize index emptyIndex : Z) : bool :=
  let row := index / gridSize in
  let col := Z.rem index gridSize in
  let emptyRow := emptyIndex / gridSize in
  let emptyCol := Z.rem emptyIndex gridSize in
  ((Z.abs (row - emptyRow) =? 1) && (col =? emptyCol))
  || ((Z.abs (col - emptyCol) =? 1) && (row =? emptyRow)).

(** Lines 74-94, the move logic that the specification calls
    [attemptMove]: [Some newTiles] when the click is accepted, [None] when
    it is ignored. *)
Definition attemptMove (tiles : jsarray) (gridSize index : Z) : M (option jsarray) :=
  let* emptyIndex := findIndex_isEmpty tiles in
  if isAdjacent gridSize index emptyIndex then
    let newTiles := spread tiles in
    let newTiles := arr_swap newTiles (Some index) (Some emptyIndex) in
    set_currentPos (arr_get newTiles (Some index)) index >>
    set_currentPos (arr_get newTiles (Some emptyIndex)) emptyIndex >>
    ret (Some newTiles)
  else ret None.

(** The state of the [App] component that the handler reads and sets. *)
Record AppState := mkApp {
  difficulty : Z;
  tiles : jsarray;
  gameState : GameState;
  moves : Z
}.

Definition handleTileClick (st : AppState) (index : Z) : M AppState :=
  if negb (GameState_eqb (gameState st) PLAYING) then ret st
  else
    let* r := attemptMove (tiles st) (difficulty st) index in
    match r with
    | Some newTiles =>
        let* solved := isSolved newTiles in
        ret {| difficulty := difficulty st;
               tiles := newTiles;
               gameState := if solved then WON else gameState st;
               moves := moves st + 1 |}
    | None => ret st
    end.

(** ** generateSolvedState (puzzleUtils.ts:68-77)

    [imagePieces.map((url, index) => ({ ... }))]: one new object per image,
    in input order. *)

Fixpoint map_alloc (f : string → Z → Tile) (l : list string) (index : Z) : M (list nat) :=
  match l with
  | [] => ret []
  | url :: l' =>
      let* r := alloc (f url index) in
      let* rs := map_alloc f l' (index + 1) in
      ret (r :: rs)
  end.

Definition generateSolvedState (imagePieces : list string) (gridSize : Z) : M jsarray :=
  let* tiles :=
    map_alloc (λ url index,
                 {| id := index;
                    currentPos := index;
                    correctPos := index;
                    imageUrl := url;
                    isEmpty := index =? gridSize * gridSize - 1 |})
              imagePieces 0 in
  ret (arr tiles).

(** ** shuffleTiles (puzzleUtils.ts:81-126) *)

(** Lines 87-94: the neighbours of the empty cell that are pushed, in the
    order Up, Down, Left, Right. *)
Definition validMoves (emptyIdx gridSize : Z) : list Z :=
  let row := emptyIdx / gridSize in
  let col := Z.rem emptyIdx gridSize in
  (if 0 <? row then [emptyIdx - gridSize] else [])
  ++ (if row <? gridSize - 1 then [emptyIdx + gridSize] else [])
  ++ (if 0 <? col then [emptyIdx - 1] else [])
  ++ (if col <? gridSize - 1 then [emptyIdx + 1] else []).

(** Line 97: [validMoves.filter(idx => idx !== previousIdx)] *)
Definition filteredMoves (emptyIdx gridSize previousIdx : Z) : list Z :=
  filter (λ idx, idx ≠ previousIdx) (validMoves emptyIdx gridSize).

(** *** Double-precision numbers

    A JavaScript number is an IEEE 754 double.  The finite doubles that
    are not negative are the numbers [m * 2^e] for an integer
    [0 <= m < 2^53] and [-1074 <= e <= 971]; a double is taken as the
    rational it denotes.  [Math.random()] returns a double that is at
    least 0 and below 1. *)
Definition is_double (u : Q) : Prop :=
  ∃ m e : Z, 0 ≤ m < 2 ^ 53 ∧ -1074 ≤ e ≤ 971 ∧ (u == inject_Z m * 2 ^ e)%Q.

Definition unit_double (u : Q) : Prop := is_double u ∧ (u < 1)%Q.

(** The arithmetic operations return the exact result rounded to the
    nearest double, halfway cases to the double with an even last bit.
    [floor_log2 x] is the exponent of the leading bit of [x > 0]; a double
    near [x] has 53 bits from there on, and none below 2^-1074. *)
Definition floor_log2 (x : Q) : Z :=
  let e := Z.log2 (Qnum x) - Z.log2 (Zpos (Qden x)) in
  if Qle_bool (2 ^ e) x then e else e - 1.

Definition ulp_exponent (x : Q) : Z := Z.max (-1074) (floor_log2 x - 52).

Definition nearest_even (y : Q) : Z :=
  let q := Qfloor y in
  match (y - inject_Z q ?= 1 # 2)%Q with
  | Lt => q
  | Gt => q + 1
  | Eq => if Z.even q then q else q + 1
  end.

(** For [0 <= x]; the values in this program are far below 2^1024, where
    rounding gives [Infinity]. *)
Definition round_magnitude (x : Q) : Q :=
  let e := ulp_exponent x in
  (inject_Z (nearest_even (x / 2 ^ e)) * 2 ^ e)%Q.

Definition round_double (x : Q) : Q :=
  if Qle_bool 0 x then round_magnitude x else (- round_magnitude (- x))%Q.

(** [l[Math.floor(Math.random() * l.length)]] for the double [u] that
    [Math.random()] returned; [l.length] is an integer below 2^32, which a
    double holds exactly, and the product is rounded.  [None] is
    [undefined]: the index is not below [l.length]. *)
Definition random_element (u : Q) (l : list Z) : option Z :=
  l !! Z.to_nat (Qfloor (round_double (u * inject_Z (Z.of_nat (length l))))).

(** Lines 98-100: the list the target is drawn from, and the target. *)
Definition candidates (emptyIdx gridSize previousIdx : Z) : list Z :=
  if (0 <? length (filteredMoves emptyIdx gridSize previousIdx))%nat
  then filteredMoves emptyIdx gridSize previousIdx
  else validMoves emptyIdx gridSize.

Definition targetIdx_of (u : Q) (emptyIdx gridSize previousIdx : Z) : option Z :=
  random_element u (candidates emptyIdx gridSize previousIdx).

(** The variables that the loop updates. *)
Record ShuffleVars := mkVars {
  sh_tiles : jsarray;
  emptyIdx : Z;
  previousIdx : Z
}.

(** One iteration of the loop (lines 87-122); [u] is what [Math.random()]
    returns in it.  When [targetIdx] is [undefined], line 117 has thrown
    (see [shuffle_body_undefined_target]), so lines 118-122 are not
    reached with it. *)
Definition shuffle_body (gridSize : Z) (u : Q) (s : ShuffleVars) : M ShuffleVars :=
  let targetIdx := targetIdx_of u (emptyIdx s) gridSize (previousIdx s) in
  let newTiles := spread (sh_tiles s) in
  let newTiles := arr_swap newTiles (Some (emptyIdx s)) targetIdx in
  set_currentPos (arr_get newTiles (Some (emptyIdx s))) (emptyIdx s) >>
  match targetIdx with
  | Some target =>
      set_currentPos (arr_get newTiles targetIdx) target >>
      ret {| sh_tiles := newTiles; emptyIdx := target; previousIdx := emptyIdx s |}
  | None => throw
  end.

(** [for (let i = 0; i < moves; i++)]: [k] iterations are left, and
    [random i] is the value of the [i]-th call of [Math.random()]. *)
Fixpoint shuffle_loop (gridSize : Z) (random : nat → Q) (i k : nat) (s : ShuffleVars)
  : M ShuffleVars :=
  match k with
  | O => ret s
  | S k' =>
      let* s' := shuffle_body gridSize (random i) s in
      shuffle_loop gridSize random (S i) k' s'
  end.

Definition shuffleTiles (random : nat → Q) (initialTiles : jsarray) (gridSize moves : Z)
  : M jsarray :=
  let tiles := spread initialTiles in
  let* emptyIdx := findIndex_isEmpty tiles in
  let* s := shuffle_loop gridSize random 0 (Z.to_nat moves)
              {| sh_tiles := tiles; emptyIdx := emptyIdx; previousIdx := -1 |} in
  ret (sh_tiles s).

(** [moves] defaults to 100 when the caller omits it. *)
Definition shuffleTiles_default (random : nat → Q) (initialTiles : jsarray) (gridSize : Z)
  : M jsarray :=
  shuffleTiles random initialTiles gridSize 100.

(** ** sliceImage (puzzleUtils.ts:15-65)

    The geometry of the slicing.  An image is known by its width and
    height; a piece is known by what the canvas holds when [toDataURL]
    encodes it: the canvas size and the [drawImage] call that painted it.
    [loadImage] may reject, and [getContext] may return [null]. *)

Record Image := mkImage { width : Z; height : Z }.

Record DrawCall := mkDraw {
  sx : Q; sy : Q; sWidth : Z; sHeight : Z;
  dx : Z; dy : Z; dWidth : Z; dHeight : Z
}.

Record Piece := mkPiece {
  canvas_width : Z;
  canvas_height : Z;
  drawn : DrawCall
}.

Inductive SliceResult :=
  | Pieces (pieces : list Piece)
  | LoadRejected
  | NoCanvasContext.

Definition sliceImage (loaded : option Image) (ctx : bool) (gridSize : Z) : SliceResult :=
  match loaded with
  | None => LoadRejected
  | Some img =>
      if negb ctx then NoCanvasContext
      else
        let size := Z.min (width img) (height img) in
        let offsetX := (inject_Z (width img - size) / 2)%Q in
        let offsetY := (inject_Z (height img - size) / 2)%Q in
        let tileSize := size / gridSize in
        let targetTileSize := Z.min 512 tileSize in
        Pieces
          (row ← seqZ 0 gridSize;
           col ← seqZ 0 gridSize;
           [ {| canvas_width := targetTileSize;
                canvas_height := targetTileSize;
                drawn := {| sx := (offsetX + inject_Z (col * tileSize))%Q;
                            sy := (offsetY + inject_Z (row * tileSize))%Q;
                            sWidth := tileSize;
                            sHeight := tileSize;
                            dx := 0;
                            dy := 0;
                            dWidth := targetTileSize;
                            dHeight := targetTileSize |} |} ])
  end.

(** * Specification vocabulary *)

(** Row and column of a grid position, as the specification words them. *)
Definition row_of (n i : Z) : Z := i / n.
Definition col_of (n i : Z) : Z := i mod n.

(** Manhattan-adjacent, not diagonal. *)
Definition manhattan_adjacent (n i e : Z) : Prop :=
  (Z.abs (row_of n i - row_of n e) = 1 ∧ col_of n i = col_of n e)
  ∨ (Z.abs (col_of n i - col_of n e) = 1 ∧ row_of n i = row_of n e).

(** A position directly above, below, left or right of [e] inside the grid. *)
Definition neighbour (n e x : Z) : Prop :=
  0 ≤ x < n * n ∧ manhattan_adjacent n x e.

(** The tile object at position [p] of a board of references. *)
Definition tile_at (h : heap) (b : list nat) (p : nat) : option Tile :=
  b !! p ≫= λ l, h !! l.

(** Every element of the board refers to a tile object. *)
Definition is_board (h : heap) (b : list nat) : Prop :=
  ∀ p l, b !! p = Some l → is_Some (h !! l).

(** Position [e] holds an empty tile, and no other position does. *)
Definition only_empty_at (h : heap) (b : list nat) (e : nat) : Prop :=
  (∃ t, tile_at h b e = Some t ∧ isEmpty t = true)
  ∧ ∀ p t, tile_at h b p = Some t → isEmpty t = true → p = e.

(** [currentPos] agrees with the index in the sequence. *)
Definition positions_ok (h : heap) (b : list nat) : Prop :=
  ∀ p l, b !! p = Some l → ∃ t, h !! l = Some t ∧ currentPos t = Z.of_nat p.

(** The board invariants of the data model, for an [n × n] grid. *)
Record well_formed (n : Z) (h : heap) (b : list nat) (e : nat) : Prop := {
  wf_length : Z.of_nat (length b) = n * n;
  wf_positions : positions_ok h b;
  wf_empty : only_empty_at h b e
}.

(** The board with the elements at positions [i] and [j] exchanged. *)
Definition swap_board (b : list nat) (i j : nat) : list nat :=
  match b !! i, b !! j with
  | Some li, Some lj => <[j := li]> (<[i := lj]> b)
  | _, _ => b
  end.

(** The store after the two exchanged tiles have recorded their new
    positions: the tile that was at [i] is at [j], and conversely. *)
Definition record_positions (h : heap) (b : list nat) (i j : nat) : heap :=
  match b !! i, b !! j with
  | Some li, Some lj =>
      alter (with_currentPos (Z.of_nat j)) li (alter (with_currentPos (Z.of_nat i)) lj h)
  | _, _ => h
  end.

(** A legal single move: the empty cell at [e] is exchanged with an
    orthogonally adjacent position [t] inside the grid. *)
Definition legal_swap (n : Z) (s s' : list Tile * list nat) : Prop :=
  ∃ e t : nat,
    (∃ tl, tile_at s.1 s.2 e = Some tl ∧ isEmpty tl = true)
    ∧ neighbour n (Z.of_nat e) (Z.of_nat t)
    ∧ s'.2 = swap_board s.2 e t
    ∧ s'.1 = record_positions s.1 s.2 e t.

(** The tiles an array shows: the objects its elements refer to. *)
Definition view (h : heap) (a : jsarray) : list (option Tile) :=
  deref h <$> elems a.

(** * Auxiliary definitions *)

(** [h'] has the objects of [h], and they differ at most in their
    [currentPos] field. *)
Definition same_tiles (h h' : list Tile) : Prop :=
  length h' = length h
  ∧ ∀ l t, h !! l = Some t →
      ∃ t', h' !! l = Some t' ∧ t' = with_currentPos (currentPos t') t.

(** The exchange of two slots followed by the two position writes: the
    code shared by lines 88-94 of App.tsx and lines 103-118 of
    puzzleUtils.ts. *)
Definition swap_and_record (a : jsarray) (k1 k2 : option Z) (p1 p2 : Z) : M jsarray :=
  let newTiles := arr_swap (spread a) k1 k2 in
  set_currentPos (arr_get newTiles k1) p1 >>
  set_currentPos (arr_get newTiles k2) p2 >>
  ret newTiles.

(** The result of the accepted branch of the move logic. *)
Definition accepted (r : list Tile * outcome jsarray) : list Tile * outcome (option jsarray) :=
  (r.1, match r.2 with Done a => Done (Some a) | TypeError => TypeError end).

(** The result of an iteration whose target is [x]. *)
Definition shuffled (e x : Z) (r : list Tile * outcome jsarray) : list Tile * outcome ShuffleVars :=
  (r.1, match r.2 with
        | Done a => Done {| sh_tiles := a; emptyIdx := x; previousIdx := e |}
        | TypeError => TypeError
        end).

(** The tile that generateSolvedState makes for image [i]. *)
Definition solved_tile (n : Z) (i : nat) (url : string) : Tile :=
  {| id := Z.of_nat i; currentPos := Z.of_nat i; correctPos := Z.of_nat i;
     imageUrl := url; isEmpty := Z.of_nat i =? n * n - 1 |}.

(** Every empty tile of the board is the tile made for the last cell. *)
Definition empty_is_last (n : Z) (h : list Tile) (b : list nat) : Prop :=
  ∀ p t, tile_at h b p = Some t → isEmpty t = true →
         id t = n * n - 1 ∧ correctPos t = n * n - 1.

(** The board [b'] and store [h'] are [b] and [h] with the tiles at
    positions [i] and [j] exchanged and both tiles' [currentPos] set to
    their new index; nothing else differs. *)
Record exchanged (h : list Tile) (b : list nat) (i j : nat)
                 (h' : list Tile) (b' : list nat) : Prop := {
  ex_length : length b' = length b;
  ex_at_i : b' !! i = b !! j;
  ex_at_j : b' !! j = b !! i;
  ex_elsewhere : ∀ p, p ≠ i → p ≠ j → b' !! p = b !! p;
  ex_pos_i : ∃ t, tile_at h' b' i = Some t ∧ currentPos t = Z.of_nat i;
  ex_pos_j : ∃ t, tile_at h' b' j = Some t ∧ currentPos t = Z.of_nat j;
  ex_fields : same_tiles h h';
  ex_others : ∀ l, Some l ≠ b !! i → Some l ≠ b !! j → h' !! l = h !! l
}.

(** The boards that a sequence of the three operations produces: each
    operation is applied to the board and the store the previous one
    left. *)
Inductive produced (n : Z) : list Tile → jsarray → Prop :=
  | produced_solved h (imagePieces : list string) h' a :
      Z.of_nat (length imagePieces) = n * n →
      generateSolvedState imagePieces n h = (h', Done a) →
      produced n h' a
  | produced_shuffle random h a k h' a' :
      produced n h a →
      shuffleTiles random a n k h = (h', Done a') →
      produced n h' a'
  | produced_move h a i h' a' :
      produced n h a →
      attemptMove a n i h = (h', Done (Some a')) →
      produced n h' a'.

(** [Math.random()] returns a value in [[0, 1)]. *)
Definition unit_interval (random : nat → Q) : Prop :=
  ∀ i, (0 <= random i)%Q ∧ (random i < 1)%Q.

(** [Math.random()] returns a double in [[0, 1)]. *)
Definition double_source (random : nat → Q) : Prop :=
  ∀ i, unit_double (random i).

(** A solved 3 × 3 board in an empty store, used to instantiate the
    statements below. *)
Definition images9 : list string :=
  ["A"; "B"; "C"; "D"; "E"; "F"; "G"; "H"; "I"]%string.
Definition store9 : list Tile := imap (solved_tile 3) images9.
Definition board9 : list nat := seq 0 9.
Definition half : nat → Q := λ _, (1 # 2)%Q.

(** The double 0.6666666666666666 at every call: its product with 3 is
    rounded up to 2. *)
Definition two_thirds : nat → Q := λ _, (6004799503160661 # 9007199254740992)%Q.

(** Turns the boolean comparisons in the context into propositions. *)
Ltac ltb_props :=
  repeat match goal with
    | H : (_ <? _) = true |- _ => apply Z.ltb_lt in H
    | H : (_ <? _) = false |- _ => apply Z.ltb_ge in H
    end.

(** Linear arithmetic over the rationals, with the powers of two as atoms. *)
Ltac lra_pow2 :=
  repeat match goal with
    | |- context [(2 ^ ?e)%Q] =>
        let p := fresh "p" in set (p := (2 ^ e)%Q) in *; clearbody p
    | H : context [(2 ^ ?e)%Q] |- _ =>
        let p := fresh "p" in set (p := (2 ^ e)%Q) in *; clearbody p
    end;
  lra.

(** * The rest of the code *)

(** The piece that sliceImage cuts for the cell at [row], [col]. *)
Definition slice_piece (img : Image) (gridSize row col : Z) : Piece :=
  let size := Z.min (width img) (height img) in
  let tileSize := size / gridSize in
  let targetTileSize := Z.min 512 tileSize in
  {| canvas_width := targetTileSize;
     canvas_height := targetTileSize;
     drawn := {| sx := (inject_Z (width img - size) / 2 + inject_Z (col * tileSize))%Q;
                 sy := (inject_Z (height img - size) / 2 + inject_Z (row * tileSize))%Q;
                 sWidth := tileSize; sHeight := tileSize;
                 dx := 0; dy := 0;
                 dWidth := targetTileSize; dHeight := targetTileSize |} |}.

(** The source rectangles of two pieces have no point in common. *)
Definition cells_disjoint (p q : Piece) : Prop :=
  (sx (drawn p) + inject_Z (sWidth (drawn p)) <= sx (drawn q))%Q
  ∨ (sx (drawn q) + inject_Z (sWidth (drawn q)) <= sx (drawn p))%Q
  ∨ (sy (drawn p) + inject_Z (sHeight (drawn p)) <= sy (drawn q))%Q
  ∨ (sy (drawn q) + inject_Z (sHeight (drawn q)) <= sy (drawn p))%Q.

(** ** generatePuzzleImage (services/geminiService.ts:7-47)

    The reply of the image service, with the optional fields of the SDK
    types ([None] is [undefined]).  The request itself is outside the
    model: it either rejects or resolves to a response. *)

(** A string is falsy when it is empty. *)
Definition truthy (s : string) : bool := negb (String.eqb s "").

Module geminiService.

Record Blob := mkBlob { data : option string; mimeType : option string }.
Record Part := mkPart { inlineData : option Blob }.
Record Content := mkContent { parts : option (list Part) }.
Record Candidate := mkCandidate { content : option Content }.
Record GenerateContentResponse := mkResponse { candidates : option (list Candidate) }.

Inductive Reply :=
  | Rejected
  | Resolved (response : GenerateContentResponse).

Inductive GenerationError :=
  | ApiKeyMissing        (* line 9 *)
  | RequestRejected      (* the awaited call rejects *)
  | ResponseTypeError    (* a property of [undefined] is read at line 32 *)
  | NoImageData.         (* line 42 *)

(** [part.inlineData && part.inlineData.data] *)
Definition has_image (part : Part) : bool :=
  match inlineData part with
  | Some blob =>
      match data blob with
      | Some base64Data => truthy base64Data
      | None => false
      end
  | None => false
  end.

(** Lines 33-39: the first part with inline data returns. *)
Fixpoint first_inline_image (ps : list Part) : option string :=
  match ps with
  | [] => None
  | part :: ps' =>
      match inlineData part with
      | Some blob =>
          match data blob with
          | Some base64Data =>
              if truthy base64Data then
                let mime := match mimeType blob with
                            | Some m => if truthy m then m else "image/png"
                            | None => "image/png"
                            end%string in
                Some ("data:" +:+ mime +:+ ";base64," +:+ base64Data)
              else first_inline_image ps'
          | None => first_inline_image ps'
          end
      | None => first_inline_image ps'
      end
  end.

Definition generatePuzzleImage (apiKey : string) (reply : Reply)
  : GenerationError + string :=
  if negb (truthy apiKey) then inl ApiKeyMissing
  else
    match reply with
    | Rejected => inl RequestRejected
    | Resolved response =>
        match candidates response with
        | None => inl NoImageData
        | Some cs =>
            match cs !! 0%nat with
            | None => inl ResponseTypeError
            | Some c =>
                match content c with
                | None => inl ResponseTypeError
                | Some ct =>
                    match parts ct with
                    | None => inl NoImageData
                    | Some ps =>
                        match first_inline_image ps with
                        | Some url => inr url
                        | None => inl NoImageData
                        end
                    end
                end
            end
        end
    end.

End geminiService.

(** ** The other handlers of the App component (App.tsx)

    The component state beyond what handleTileClick uses.  An awaited call
    is taken with its result: the image that [loadImage] resolves to (or
    [None] when it rejects), whether [getContext] returns a context, what
    [toDataURL] encodes for each piece, and the reply of the image service.
    Each handler is run to its end before another event is handled. *)

Record Session := mkSession {
  app : AppState;
  timeElapsed : Z;
  prompt : string;
  currentImage : option string;
  error : option string
}.

Definition HARD : Z := 5.

(** initializeBoard (lines 28-42) *)
Definition initializeBoard (toDataURL : Piece → string)
    (s : Session) (imgSrc : string) (loaded : option Image) (ctx : bool) : M Session :=
  match sliceImage loaded ctx (difficulty (app s)) with
  | Pieces pieces =>
      let* initialTiles := generateSolvedState (toDataURL <$> pieces) (difficulty (app s)) in
      ret {| app := {| difficulty := difficulty (app s);
                       tiles := initialTiles;
                       gameState := IDLE;
                       moves := 0 |};
             timeElapsed := 0;
             prompt := prompt s;
             currentImage := Some imgSrc;
             error := error s |}
  | LoadRejected | NoCanvasContext =>
      ret {| app := app s;
             timeElapsed := timeElapsed s;
             prompt := prompt s;
             currentImage := currentImage s;
             error := Some "Failed to load image onto board."%string |}
  end.

(** handleStartGame (lines 105-111) *)
Definition handleStartGame (random : nat → Q) (s : Session) : M Session :=
  let* shuffled := shuffleTiles random (tiles (app s)) (difficulty (app s))
                     (difficulty (app s) * 20) in
  ret {| app := {| difficulty := difficulty (app s);
                   tiles := shuffled;
                   gameState := PLAYING;
                   moves := 0 |};
         timeElapsed := 0;
         prompt := prompt s;
         currentImage := currentImage s;
         error := error s |}.

(** handleReset (lines 113-117): [if (currentImage)] is false for [null]
    and for the empty string. *)
Definition handleReset (toDataURL : Piece → string)
    (s : Session) (loaded : option Image) (ctx : bool) : M Session :=
  match currentImage s with
  | Some img =>
      if truthy img then initializeBoard toDataURL s img loaded ctx else ret s
  | None => ret s
  end.

(** [s.includes(pat)] *)
Fixpoint includes (s pat : string) : bool :=
  String.prefix pat s
  || match s with
     | EmptyString => false
     | String _ s' => includes s' pat
     end.

(** handleGenerateImage (lines 119-133); [trim] and [toLowerCase] are the
    string methods of the platform. *)
Definition handleGenerateImage (trim toLowerCase : string → string)
    (toDataURL : Piece → string) (apiKey : string)
    (s : Session) (reply : geminiService.Reply) (loaded : option Image) (ctx : bool) : M Session :=
  if negb (truthy (trim (prompt s))) then ret s
  else
    let generating :=
      {| app := {| difficulty := difficulty (app s); tiles := tiles (app s);
                   gameState := GENERATING; moves := moves (app s) |};
         timeElapsed := timeElapsed s; prompt := prompt s;
         currentImage := currentImage s; error := None |} in
    match geminiService.generatePuzzleImage apiKey reply with
    | inr base64Image =>
        let* s' := initializeBoard toDataURL generating base64Image loaded ctx in
        if includes (toLowerCase (prompt s)) "hard"
        then ret {| app := {| difficulty := HARD; tiles := tiles (app s');
                              gameState := gameState (app s'); moves := moves (app s') |};
                    timeElapsed := timeElapsed s'; prompt := prompt s';
                    currentImage := currentImage s'; error := error s' |}
        else ret s'
    | inl _ =>
        ret {| app := {| difficulty := difficulty (app s); tiles := tiles (app s);
                         gameState := IDLE; moves := moves (app s) |};
               timeElapsed := timeElapsed s; prompt := prompt s;
               currentImage := currentImage s;
               error := Some "Failed to generate image. Try a simpler prompt or check API key."%string |}
    end.

(** ** Board (components/Board.tsx:27-66)

    The indices [index] for which the board renders a button whose click
    reaches [onTileClick(index)]: the tiles that are not empty, during
    play. *)
Fixpoint Board_clicks_from (h : heap) (l : list (option nat)) (index : Z)
    (gameState : GameState) : outcome (list Z) :=
  match l with
  | [] => Done []
  | v :: l' =>
      match deref h v with
      | Some tile =>
          match Board_clicks_from h l' (index + 1) gameState with
          | Done rest =>
              if isEmpty tile then Done rest
              else if GameState_eqb gameState PLAYING then Done (index :: rest)
              else Done rest
          | TypeError => TypeError
          end
      | None => TypeError
      end
  end.

Definition Board_clicks (h : heap) (tiles : jsarray) (gameState : GameState)
  : outcome (list Z) :=
  Board_clicks_from h (elems tiles) 0 gameState.

(** ** formatTime (components/Controls.tsx:31-35) *)

(** [n.toString()] for an integer (below 10^21, where JavaScript still
    prints all the digits). *)
Definition toString (n : Z) : string :=
  DecimalString.NilZero.string_of_int (Z.to_int n).

(** [s.padStart(2, '0')] *)
Definition padStart2 (s : string) : string :=
  match String.length s with
  | 0%nat => "00"
  | 1%nat => "0" +:+ s
  | _ => s
  end%string.

(** [seconds] is an integer that a double holds.  The quotient
    [seconds / 60] is rounded to a double before [Math.floor]; the
    remainder [seconds % 60] is exact. *)
Definition formatTime (seconds : Z) : string :=
  let mins := Qfloor (round_double (inject_Z seconds / 60)) in
  let secs := Z.rem seconds 60 in
  toString mins +:+ ":" +:+ padStart2 (toString secs).

(** The component state with a solved 3 × 3 board, and random values that
    take the empty cell round the lower right block of four cells. *)
Definition session9 : Session :=
  {| app := {| difficulty := 3; tiles := arr board9; gameState := IDLE; moves := 0 |};
     timeElapsed := 0; prompt := ""; currentImage := Some "img"%string; error := None |}.

Definition round_the_block : nat → Q :=
  λ i, if (i mod 4 =? 0)%nat then 0%Q else (1 # 2)%Q.


(** * Properties *)

(** * Arithmetic of the grid *)

Section grid.
Variable n : Z.
Hypothesis n_pos : 0 < n.

Lemma rem_is_mod i : 0 ≤ i → Z.rem i n = i mod n.
Proof using n_pos. intros Hi. apply Z.rem_mod_nonneg; lia. Qed.

Lemma isAdjacent_manhattan i e :
  0 ≤ i → 0 ≤ e → isAdjacent n i e = true ↔ manhattan_adjacent n i e.
Proof using n_pos.
  intros Hi He. unfold isAdjacent, manhattan_adjacent, row_of, col_of.
  rewrite !rem_is_mod by assumption.
  rewrite orb_true_iff, !andb_true_iff, !Z.eqb_eq. tauto.
Qed.

Lemma isAdjacent_not_manhattan i e :
  0 ≤ i → 0 ≤ e → isAdjacent n i e = false ↔ ¬ manhattan_adjacent n i e.
Proof using n_pos.
  intros Hi He. rewrite <- isAdjacent_manhattan by assumption.
  destruct (isAdjacent n i e); split; intros; congruence.
Qed.

(** A position is its row times [n] plus its column. *)
Lemma row_col_decompose i :
  i = n * row_of n i + col_of n i ∧ 0 ≤ col_of n i < n.
Proof using n_pos.
  unfold row_of, col_of. split.
  - apply Z.div_mod. lia.
  - apply Z.mod_pos_bound. lia.
Qed.

Lemma row_col_unique r c i :
  0 ≤ c < n → i = n * r + c → row_of n i = r ∧ col_of n i = c.
Proof using n_pos.
  intros Hc ->. unfold row_of, col_of. split.
  - symmetry. apply (Z.div_unique_pos _ _ r c); lia.
  - symmetry. apply (Z.mod_unique_pos _ _ r c); lia.
Qed.

Lemma row_bounds i : 0 ≤ i < n * n → 0 ≤ row_of n i < n.
Proof using n_pos.
  intros Hi. unfold row_of. split.
  - apply Z.div_pos; lia.
  - apply Z.div_lt_upper_bound; lia.
Qed.

(** The four neighbours, by their offset from [e]. *)
Lemma manhattan_adjacent_offsets x e :
  manhattan_adjacent n x e ↔
    (x = e - n) ∨ (x = e + n)
    ∨ (x = e - 1 ∧ 0 < col_of n e) ∨ (x = e + 1 ∧ col_of n e < n - 1).
Proof using n_pos.
  destruct (row_col_decompose x) as [Hx Hcx].
  destruct (row_col_decompose e) as [He Hce].
  unfold manhattan_adjacent. split.
  - intros [[Hr Hc] | [Hc Hr]].
    + assert (row_of n x = row_of n e - 1 ∨ row_of n x = row_of n e + 1) as [Hq|Hq] by lia.
      * left. rewrite Hx, He at 1. rewrite Hq, Hc. lia.
      * right; left. rewrite Hx, He at 1. rewrite Hq, Hc. lia.
    + assert (col_of n x = col_of n e - 1 ∨ col_of n x = col_of n e + 1) as [Hq|Hq] by lia.
      * right; right; left. split; [|lia]. rewrite Hx, He at 1. rewrite Hq, Hr. lia.
      * right; right; right. split; [|lia]. rewrite Hx, He at 1. rewrite Hq, Hr. lia.
  - intros [Hq | [Hq | [[Hq Hc] | [Hq Hc]]]].
    + destruct (row_col_unique (row_of n e - 1) (col_of n e) x) as [-> ->]; [lia | lia |].
      left. lia.
    + destruct (row_col_unique (row_of n e + 1) (col_of n e) x) as [-> ->]; [lia | lia |].
      left. lia.
    + destruct (row_col_unique (row_of n e) (col_of n e - 1) x) as [-> ->]; [lia | lia |].
      right. lia.
    + destruct (row_col_unique (row_of n e) (col_of n e + 1) x) as [-> ->]; [lia | lia |].
      right. lia.
Qed.

(** [validMoves] lists exactly the neighbours inside the grid. *)
Lemma elem_of_validMoves e x :
  0 ≤ e < n * n → x ∈ validMoves e n ↔ neighbour n e x.
Proof using n_pos.
  intros He. unfold validMoves, neighbour.
  rewrite manhattan_adjacent_offsets.
  rewrite rem_is_mod by lia.
  fold (row_of n e) (col_of n e).
  pose proof (row_bounds e He) as Hr.
  destruct (row_col_decompose e) as [Hd Hc].
  rewrite !elem_of_app.
  assert (n * row_of n e ≤ n * (n - 1)) by nia.
  assert (0 < row_of n e → n * 1 ≤ n * row_of n e) by nia.
  assert (row_of n e < n - 1 → n * row_of n e ≤ n * (n - 2)) by nia.
  assert (¬ (row_of n e < n - 1) → n * row_of n e = n * (n - 1)) by nia.
  assert (¬ (0 < row_of n e) → n * row_of n e = 0) by nia.
  repeat case_match;
    ltb_props;
    rewrite ?list_elem_of_singleton, ?elem_of_nil; lia.
Qed.

Lemma NoDup_validMoves e : NoDup (validMoves e n).
Proof using n_pos.
  unfold validMoves.
  assert (Z.abs (Z.rem e n) < Z.abs n) by (apply Z.rem_bound_abs; lia).
  repeat case_match; simpl;
    ltb_props;
    repeat (apply NoDup_cons_2;
            [rewrite ?not_elem_of_cons; repeat split; try lia; apply not_elem_of_nil|]);
    apply NoDup_nil_2.
Qed.
End grid.

Lemma validMoves_at_least_two n e :
  2 ≤ n → 0 ≤ e < n * n → (2 ≤ length (validMoves e n))%nat.
Proof.
  intros Hn He.
  pose proof (row_bounds n ltac:(lia) e He) as Hr.
  destruct (row_col_decompose n ltac:(lia) e) as [_ Hc].
  unfold validMoves. rewrite rem_is_mod by lia.
  fold (row_of n e) (col_of n e).
  repeat case_match;
    ltb_props;
    simpl; lia.
Qed.

(** Removing one value from a list without duplicates removes at most one
    element. *)
Lemma length_filter_ne (p : Z) (l : list Z) :
  NoDup l → (length l ≤ S (length (filter (λ x, x ≠ p) l)))%nat.
Proof.
  induction 1 as [|x l Hx Hl IH]; simpl; [lia|].
  destruct (decide (x = p)) as [->|Hne].
  - rewrite filter_cons_False by tauto.
    assert (filter (λ x, x ≠ p) l = l) as ->; [|lia].
    clear IH Hl. induction l as [|y l IH]; [done|].
    apply not_elem_of_cons in Hx as [Hy Hx].
    rewrite filter_cons_True by congruence. by rewrite IH.
  - rewrite filter_cons_True by done. simpl. lia.
Qed.

Lemma filteredMoves_nonempty n e p :
  2 ≤ n → 0 ≤ e < n * n → (0 < length (filteredMoves e n p))%nat.
Proof.
  intros Hn He. unfold filteredMoves.
  pose proof (validMoves_at_least_two n e Hn He).
  pose proof (length_filter_ne p _ (NoDup_validMoves n ltac:(lia) e)).
  lia.
Qed.

(** The fallback of line 100 is not taken on a grid of side at least 2. *)
Lemma candidates_filtered n e p :
  2 ≤ n → 0 ≤ e < n * n → candidates e n p = filteredMoves e n p.
Proof.
  intros Hn He. unfold candidates.
  pose proof (filteredMoves_nonempty n e p Hn He) as H.
  apply Nat.ltb_lt in H. by rewrite H.
Qed.

Lemma elem_of_candidates n e p x :
  0 < n → 0 ≤ e < n * n →
  x ∈ candidates e n p ↔
    neighbour n e x ∧ (x ≠ p ∨ ∀ y, neighbour n e y → y = p).
Proof.
  intros Hn He. unfold candidates, filteredMoves.
  destruct (0 <? length _)%nat eqn:Hlen.
  - rewrite list_elem_of_filter, elem_of_validMoves by done.
    split; [tauto|]. intros [Hx [Hne | Hall]]; [tauto|].
    exfalso. apply Nat.ltb_lt in Hlen.
    destruct (filter (λ idx, idx ≠ p) (validMoves e n)) as [|y l] eqn:Hf; [simpl in Hlen; lia|].
    assert (y ∈ filter (λ idx, idx ≠ p) (validMoves e n)) as Hy by (rewrite Hf; left).
    apply list_elem_of_filter in Hy as [Hyp Hy].
    apply elem_of_validMoves in Hy; [|done|done]. apply Hyp. by apply Hall.
  - rewrite elem_of_validMoves by done.
    split; [|tauto]. intros Hx. split; [done|]. right. intros y Hy.
    apply Nat.ltb_ge in Hlen.
    destruct (decide (y = p)) as [|Hne]; [done|]. exfalso.
    assert (y ∈ filter (λ idx, idx ≠ p) (validMoves e n)) as Hin.
    { apply list_elem_of_filter. split; [done|]. by apply elem_of_validMoves. }
    destruct (filter (λ idx, idx ≠ p) (validMoves e n)); [by apply elem_of_nil in Hin|].
    simpl in Hlen. lia.
Qed.

(** No neighbour is negative, so [previousIdx = -1] excludes nothing. *)
Lemma candidates_first_step n e :
  0 < n → 0 ≤ e < n * n → candidates e n (-1) = validMoves e n.
Proof.
  intros Hn He. unfold candidates, filteredMoves.
  assert (filter (λ idx, idx ≠ -1) (validMoves e n) = validMoves e n) as ->.
  { assert (∀ x, x ∈ validMoves e n → x ≠ -1) as Hall.
    { intros x Hx%elem_of_validMoves; [|done|done]. destruct Hx. lia. }
    induction (validMoves e n) as [|y l IH]; [done|].
    rewrite filter_cons_True by (apply Hall; left).
    rewrite IH; [done|]. intros x Hx. apply Hall. by right. }
  by destruct (0 <? length _)%nat.
Qed.

(** * Double-precision rounding

    The facts about [round_double] that the program needs: the rounding
    error is at most half a unit in the last place, and a value is not
    rounded across an integer that a double holds. *)

Lemma pow2_pos e : (0 < 2 ^ e)%Q.
Proof. by apply Qpower_0_lt. Qed.

Lemma pow2_add a b : (2 ^ (a + b) == 2 ^ a * 2 ^ b)%Q.
Proof. by apply Qpower_plus. Qed.

Lemma pow2_le a b : a ≤ b → (2 ^ a <= 2 ^ b)%Q.
Proof. intros. by apply Qpower_le_compat_l. Qed.

Lemma pow2_lt a b : a < b → (2 ^ a < 2 ^ b)%Q.
Proof. intros. by apply Qpower_lt_compat_l. Qed.

Lemma pow2_lt_inv a b : (2 ^ a < 2 ^ b)%Q → a < b.
Proof. intros. by eapply Qpower_lt_compat_l_inv. Qed.

Lemma pow2_inject e : 0 ≤ e → (inject_Z (2 ^ e) == 2 ^ e)%Q.
Proof. intros. by rewrite Zpower_Qpower. Qed.

Lemma floor_log2_spec x :
  (0 < x)%Q → (2 ^ floor_log2 x <= x)%Q ∧ (x < 2 ^ (floor_log2 x + 1))%Q.
Proof.
  intros Hx. destruct x as [a b]. unfold floor_log2. cbn [Qnum Qden].
  assert (0 < a) as Ha.
  { unfold Qlt in Hx. cbn in Hx. lia. }
  pose proof (Z.log2_spec a Ha) as [Ha1 Ha2].
  pose proof (Z.log2_spec (Z.pos b) (Pos2Z.is_pos b)) as [Hb1 Hb2].
  pose proof (Z.log2_nonneg a) as Hla. pose proof (Z.log2_nonneg (Z.pos b)) as Hlb.
  set (la := Z.log2 a) in *. set (lb := Z.log2 (Z.pos b)) in *.
  assert (inject_Z (2 ^ la) <= inject_Z a)%Q as Ha1' by by rewrite <- Zle_Qle.
  assert (inject_Z a < inject_Z (2 ^ Z.succ la))%Q as Ha2' by by rewrite <- Zlt_Qlt.
  assert (inject_Z (2 ^ lb) <= inject_Z (Z.pos b))%Q as Hb1' by by rewrite <- Zle_Qle.
  assert (inject_Z (Z.pos b) < inject_Z (2 ^ Z.succ lb))%Q as Hb2' by by rewrite <- Zlt_Qlt.
  rewrite pow2_inject in Ha1', Ha2', Hb1', Hb2' by lia.
  assert (0 < inject_Z (Z.pos b))%Q as Hbpos.
  { change 0%Q with (inject_Z 0). by rewrite <- Zlt_Qlt. }
  assert (a # b < 2 ^ (la - lb + 1))%Q as Hhi.
  { rewrite (Qmake_Qdiv a b). apply Qlt_shift_div_r; [done|].
    eapply Qlt_le_trans; [exact Ha2'|].
    replace (Z.succ la) with ((la - lb + 1) + lb) by lia. rewrite pow2_add.
    apply Qmult_le_l; [apply pow2_pos | done]. }
  assert (2 ^ (la - lb - 1) < a # b)%Q as Hlo.
  { rewrite (Qmake_Qdiv a b). apply Qlt_shift_div_l; [done|].
    eapply Qlt_le_trans; [|exact Ha1'].
    replace la with ((la - lb - 1) + Z.succ lb) at 2 by lia. rewrite pow2_add.
    apply Qmult_lt_l; [apply pow2_pos | done]. }
  destruct (Qle_bool (2 ^ (la - lb)) (a # b)) eqn:Hle.
  - apply Qle_bool_iff in Hle. done.
  - split; [by apply Qlt_le_weak|].
    replace (la - lb - 1 + 1) with (la - lb) by lia.
    apply Qnot_le_lt. intros Hc. apply Qle_bool_iff in Hc. congruence.
Qed.

Lemma nearest_even_spec y :
  (inject_Z (nearest_even y) - y <= 1 # 2)%Q ∧ (y - inject_Z (nearest_even y) <= 1 # 2)%Q
  ∧ Qfloor y ≤ nearest_even y ≤ Qfloor y + 1.
Proof.
  unfold nearest_even.
  pose proof (Qfloor_le y) as Hlo. pose proof (Qlt_floor y) as Hhi.
  rewrite inject_Z_plus in Hhi.
  destruct (Qcompare_spec (y - inject_Z (Qfloor y)) (1 # 2)) as [He|He|He];
    [destruct (Z.even (Qfloor y))|..];
    rewrite ?inject_Z_plus; change (inject_Z 1) with 1%Q in *;
    repeat split; try lia; lra.
Qed.

Lemma nearest_even_int y n : (y == inject_Z n)%Q → nearest_even y = n.
Proof.
  intros Hy. unfold nearest_even.
  rewrite (Qfloor_comp _ _ Hy), Qfloor_Z.
  destruct (Qcompare_spec (y - inject_Z n) (1 # 2)) as [He|He|He]; [lra|done|lra].
Qed.

Lemma round_magnitude_error x :
  let e := ulp_exponent x in
  (round_magnitude x - x <= 2 ^ (e - 1))%Q ∧ (x - round_magnitude x <= 2 ^ (e - 1))%Q.
Proof.
  intros e. unfold round_magnitude. fold e.
  pose proof (pow2_pos e) as He.
  pose proof (nearest_even_spec (x / 2 ^ e)) as (H1 & H2 & _).
  set (R := inject_Z (nearest_even (x / 2 ^ e))) in *.
  assert (x == x / 2 ^ e * 2 ^ e)%Q as Hx.
  { field. lra. }
  assert (2 ^ (e - 1) == (1 # 2) * 2 ^ e)%Q as Hh.
  { replace (e - 1) with (-1 + e) by lia. by rewrite pow2_add. }
  rewrite Hh. set (y := (x / 2 ^ e)%Q) in *. set (p := (2 ^ e)%Q) in *.
  split.
  - assert ((R - y) * p <= (1 # 2) * p)%Q by (apply Qmult_le_compat_r; lra). lra.
  - assert ((y - R) * p <= (1 # 2) * p)%Q by (apply Qmult_le_compat_r; lra). lra.
Qed.

Lemma round_magnitude_nonneg x : (0 <= x)%Q → (0 <= round_magnitude x)%Q.
Proof.
  intros Hx. unfold round_magnitude. set (e := ulp_exponent x).
  pose proof (pow2_pos e) as He.
  apply Qmult_le_0_compat; [|lra].
  pose proof (nearest_even_spec (x / 2 ^ e)) as (_ & _ & H & _).
  change 0%Q with (inject_Z 0). rewrite <- Zle_Qle.
  etrans; [|exact H]. change 0 with (Qfloor 0). apply Qfloor_resp_le.
  apply Qle_shift_div_l; [done | lra].
Qed.

Lemma unit_double_bounds u : unit_double u → (0 <= u)%Q ∧ (u <= 1 - 2 ^ (-53))%Q.
Proof.
  intros [(m & e & Hm & He & Hu) Hlt].
  pose proof (pow2_pos e) as Hpe.
  assert (inject_Z (2 ^ 53 - 1) * 2 ^ (-53) <= 1 - 2 ^ (-53))%Q as Hmax by by vm_compute.
  assert (2 ^ (-53) <= 1)%Q as Heps1 by by vm_compute.
  remember (2 ^ (-53))%Q as eps eqn:Heps.
  assert (0 <= inject_Z m)%Q as Hm0.
  { change 0%Q with (inject_Z 0). rewrite <- Zle_Qle. lia. }
  split.
  { rewrite Hu. by apply Qmult_le_0_compat; [|apply Qlt_le_weak]. }
  destruct (Z_lt_le_dec e (-53)) as [Hlow | Hhigh].
  - (* the last place is below 2^-53 *)
    rewrite Hu.
    assert (inject_Z m <= inject_Z (2 ^ 53 - 1))%Q as Hm1 by (rewrite <- Zle_Qle; lia).
    assert (2 ^ e <= eps)%Q as Hp by (subst eps; apply pow2_le; lia).
    apply (Qle_trans _ (inject_Z (2 ^ 53 - 1) * eps)); [|done].
    apply Qmult_le_compat_nonneg; split; [done.. | by apply Qlt_le_weak | done].
  - destruct (Z_lt_le_dec e 0) as [Hneg | Hpos].
    + (* u is a multiple of 2^e below 1 *)
      assert (eps <= 2 ^ e)%Q as Hp by (subst eps; apply pow2_le; lia).
      assert (2 ^ e * 2 ^ (- e) == 1)%Q as Hinv.
      { rewrite <- pow2_add. by replace (e + - e) with 0 by lia. }
      pose proof (pow2_pos (- e)) as Hpe'.
      assert (inject_Z m < inject_Z (2 ^ (- e)))%Q as Hlt'.
      { rewrite pow2_inject by lia. rewrite Hu in Hlt.
        apply (Qmult_lt_compat_r _ _ (2 ^ (- e))) in Hlt; [|done].
        rewrite <- Qmult_assoc, Hinv in Hlt. lra_pow2. }
      rewrite <- Zlt_Qlt in Hlt'.
      assert (inject_Z (m + 1) <= inject_Z (2 ^ (- e)))%Q as Hle by (rewrite <- Zle_Qle; lia).
      rewrite pow2_inject in Hle by lia.
      rewrite inject_Z_plus in Hle. change (inject_Z 1) with 1%Q in Hle.
      apply (Qmult_le_compat_r _ _ (2 ^ e)) in Hle; [|by apply Qlt_le_weak].
      rewrite (Qmult_comm (2 ^ (- e))), Hinv in Hle. rewrite Hu. lra.
    + (* u is an integer below 1 *)
      assert (1 <= 2 ^ e)%Q as Hp by (change 1%Q with (2 ^ 0)%Q; by apply pow2_le).
      assert (m = 0) as ->.
      { destruct (decide (m = 0)) as [|Hne]; [done | exfalso].
        assert (inject_Z 1 <= inject_Z m)%Q as H1 by (rewrite <- Zle_Qle; lia).
        change (inject_Z 1) with 1%Q in H1.
        assert (1 * 1 <= inject_Z m * 2 ^ e)%Q
          by (apply Qmult_le_compat_nonneg; split; lra).
        lra. }
      rewrite Hu. change (inject_Z 0) with 0%Q. lra_pow2.
Qed.

(** The double nearest to the product of a double below 1 and a positive
    integer is below that integer. *)
Lemma round_double_unit_times u k :
  unit_double u → 1 ≤ k →
  (0 <= round_double (u * inject_Z k))%Q ∧ (round_double (u * inject_Z k) < inject_Z k)%Q.
Proof.
  intros Hu Hk. apply unit_double_bounds in Hu as [Hu0 Hu1].
  assert (1 <= inject_Z k)%Q as Hk1.
  { change 1%Q with (inject_Z 1). by rewrite <- Zle_Qle. }
  set (x := (u * inject_Z k)%Q).
  assert (0 <= x)%Q as Hx0 by (apply Qmult_le_0_compat; lra).
  unfold round_double. rewrite (proj2 (Qle_bool_iff 0 x) Hx0).
  split; [by apply round_magnitude_nonneg|].
  pose proof (round_magnitude_error x) as [Herr _]. cbn zeta in Herr.
  assert (0 < 2 ^ (-53))%Q as Heps by apply pow2_pos.
  remember (2 ^ (-53))%Q as eps eqn:Heqeps.
  assert (x <= inject_Z k * (1 - eps))%Q as Hx1.
  { unfold x. rewrite (Qmult_comm u). apply Qmult_le_l; lra. }
  destruct (Qlt_le_dec 0 x) as [Hpos | Hzero].
  - pose proof (floor_log2_spec x Hpos) as [Hlo Hhi].
    unfold ulp_exponent in Herr.
    destruct (Z.max_spec (-1074) (floor_log2 x - 52)) as [[Hc Hmax] | [Hc Hmax]];
      rewrite Hmax in Herr.
    + (* normal range: the error is at most x * 2^-53 *)
      assert (2 ^ (floor_log2 x - 52 - 1) == 2 ^ floor_log2 x * eps)%Q as He.
      { replace (floor_log2 x - 52 - 1) with (floor_log2 x + -53) by lia.
        by rewrite pow2_add, Heqeps. }
      rewrite He in Herr.
      assert (2 ^ floor_log2 x * eps <= x * eps)%Q
        by (apply Qmult_le_compat_r; lra).
      assert (x * eps <= inject_Z k * (1 - eps) * eps)%Q
        by (apply Qmult_le_compat_r; lra).
      assert (0 < inject_Z k * (eps * eps))%Q
        by (repeat apply Qmult_lt_0_compat; lra).
      lra.
    + (* subnormal range *)
      assert (x < 2 ^ (-1021))%Q as Hsmall.
      { eapply Qlt_le_trans; [exact Hhi|]. apply pow2_le. lia. }
      assert (2 ^ (-1021) + 2 ^ (-1074 - 1) < 1)%Q as Htiny by by vm_compute.
      revert Herr Hsmall Htiny.
      generalize (2 ^ (-1021))%Q (2 ^ (-1074 - 1))%Q (round_magnitude x). intros. lra.
  - assert (x == 0)%Q as Hx by lra.
    unfold round_magnitude.
    rewrite (nearest_even_int (x / 2 ^ ulp_exponent x) 0);
      [change (inject_Z 0) with 0%Q; lra_pow2|].
    generalize (2 ^ ulp_exponent x)%Q. intros p. unfold Qdiv.
    rewrite Hx. change (inject_Z 0) with 0%Q. ring.
Qed.

Lemma Qfloor_unique r n : (inject_Z n <= r)%Q → (r < inject_Z (n + 1))%Q → Qfloor r = n.
Proof.
  intros Hlo Hhi.
  pose proof (Qfloor_le r) as H1. pose proof (Qlt_floor r) as H2.
  assert (Qfloor r < n + 1) by (rewrite Zlt_Qlt; lra).
  assert (n < Qfloor r + 1) by (rewrite Zlt_Qlt; lra).
  lia.
Qed.

(** A value that is at least an integer below 2^53 is not rounded below
    it. *)
Lemma round_magnitude_ge_int x n :
  0 ≤ n → (inject_Z n <= x)%Q → (x < 2 ^ 53)%Q → (inject_Z n <= round_magnitude x)%Q.
Proof.
  intros Hn Hnx Hx.
  destruct (Qlt_le_dec 0 x) as [Hpos | Hzero].
  2: { assert (n = 0) as ->.
       { assert (inject_Z n <= inject_Z 0)%Q as H by (change (inject_Z 0) with 0%Q; lra).
         rewrite <- Zle_Qle in H. lia. }
       apply round_magnitude_nonneg. change (inject_Z 0) with 0%Q in Hnx. lra. }
  pose proof (floor_log2_spec x Hpos) as [Hlo _].
  assert (floor_log2 x < 53) as Hfl.
  { apply pow2_lt_inv. lra_pow2. }
  unfold round_magnitude.
  assert (ulp_exponent x ≤ 0) as He by (unfold ulp_exponent; lia).
  set (e := ulp_exponent x) in *.
  pose proof (pow2_pos e) as Hpe.
  assert (2 ^ e * 2 ^ (- e) == 1)%Q as Hinv.
  { rewrite <- pow2_add. by replace (e + - e) with 0 by lia. }
  pose proof (nearest_even_spec (x / 2 ^ e)) as (_ & _ & HR & _).
  assert (n * 2 ^ (- e) ≤ Qfloor (x / 2 ^ e)) as Hfloor.
  { rewrite <- (Qfloor_Z (n * 2 ^ (- e))). apply Qfloor_resp_le.
    apply Qle_shift_div_l; [done|].
    rewrite inject_Z_mult, pow2_inject by lia.
    rewrite <- Qmult_assoc, (Qmult_comm (2 ^ (- e))), Hinv. lra. }
  assert (inject_Z (n * 2 ^ (- e)) <= inject_Z (nearest_even (x / 2 ^ e)))%Q as HQ
    by (rewrite <- Zle_Qle; lia).
  rewrite inject_Z_mult, pow2_inject in HQ by lia.
  apply (Qmult_le_compat_r _ _ (2 ^ e)) in HQ; [|lra].
  rewrite <- Qmult_assoc, (Qmult_comm (2 ^ (- e))), Hinv in HQ. lra_pow2.
Qed.

(** [Math.floor(a / b)] is the integer quotient, for integers that
    doubles count exactly: the quotient is rounded, but not as far as the
    next integer. *)
Lemma floor_round_double_div a b :
  0 ≤ a < 2 ^ 53 → 0 < b →
  Qfloor (round_double (inject_Z a / inject_Z b)) = a / b.
Proof.
  intros Ha Hb.
  set (x := (inject_Z a / inject_Z b)%Q).
  assert (inject_Z a == inject_Z b * inject_Z (a / b) + inject_Z (a mod b))%Q as Hdiv.
  { rewrite <- inject_Z_mult, <- inject_Z_plus. by rewrite <- Z.div_mod by lia. }
  pose proof (Z.mod_pos_bound a b Hb) as Hrem.
  assert (inject_Z (a mod b) + 1 <= inject_Z b)%Q as Hr1.
  { change 1%Q with (inject_Z 1). rewrite <- inject_Z_plus, <- Zle_Qle. lia. }
  assert (0 <= inject_Z (a mod b))%Q as Hr0
    by (change 0%Q with (inject_Z 0); rewrite <- Zle_Qle; lia).
  assert (0 <= inject_Z a)%Q as Ha0
    by (change 0%Q with (inject_Z 0); rewrite <- Zle_Qle; lia).
  assert (0 <= inject_Z (a / b))%Q as Hq0.
  { change 0%Q with (inject_Z 0). rewrite <- Zle_Qle. apply Z.div_pos; lia. }
  assert (1 <= inject_Z b)%Q as Hb1
    by (change 1%Q with (inject_Z 1); rewrite <- Zle_Qle; lia).
  assert (inject_Z a < 2 ^ 53)%Q as Ha1.
  { rewrite <- pow2_inject by lia. rewrite <- Zlt_Qlt. lia. }
  assert (inject_Z a * 2 ^ (-53) < 1)%Q as Heps.
  { assert (2 ^ 53 * 2 ^ (-53) == 1)%Q as <- by by rewrite <- pow2_add.
    apply Qmult_lt_compat_r; [apply pow2_pos | done]. }
  assert (0 <= x)%Q as Hx0 by (apply Qle_shift_div_l; lra).
  assert (inject_Z (a / b) <= x)%Q as Hlo.
  { apply Qle_shift_div_l; [lra|]. rewrite (Qmult_comm _ (inject_Z b)). lra. }
  assert (x <= inject_Z a)%Q as Hhi.
  { apply Qle_shift_div_r; [lra|].
    assert (inject_Z a * 1 <= inject_Z a * inject_Z b)%Q
      by (apply Qmult_le_compat_nonneg; split; lra).
    lra. }
  unfold round_double. rewrite (proj2 (Qle_bool_iff 0 x) Hx0).
  apply Qfloor_unique.
  - apply round_magnitude_ge_int; [apply Z.div_pos; lia | done | lra_pow2].
  - rewrite inject_Z_plus. change (inject_Z 1) with 1%Q.
    destruct (Qlt_le_dec 0 x) as [Hpos | Hzero].
    + pose proof (round_magnitude_error x) as [Herr _]. cbn zeta in Herr.
      pose proof (floor_log2_spec x Hpos) as [H2 H3].
      unfold ulp_exponent in Herr.
      destruct (Z.max_spec (-1074) (floor_log2 x - 52)) as [[Hc Hmax] | [Hc Hmax]];
        rewrite Hmax in Herr.
      * (* normal range: the error is at most x * 2^-53, below 1 / b *)
        assert (2 ^ (floor_log2 x - 52 - 1) == 2 ^ floor_log2 x * 2 ^ (-53))%Q as He.
        { replace (floor_log2 x - 52 - 1) with (floor_log2 x + -53) by lia.
          by rewrite pow2_add. }
        rewrite He in Herr.
        assert (0 < 2 ^ (-53))%Q as Hpe by apply pow2_pos.
        assert (2 ^ floor_log2 x * 2 ^ (-53) <= x * 2 ^ (-53))%Q
          by (apply Qmult_le_compat_r; lra).
        revert Heps Herr Hpe H. generalize (2 ^ floor_log2 x)%Q (2 ^ (-53))%Q.
        intros p eps Heps Herr Hpe Hle.
        eapply Qle_lt_trans; [apply (Qle_trans _ (x + x * eps)); [lra | apply Qle_refl]|].
        assert (x + x * eps == (inject_Z a + inject_Z a * eps) / inject_Z b)%Q as ->
          by (unfold x; field; lra).
        apply Qlt_shift_div_r; [lra|].
        assert ((inject_Z (a / b) + 1) * inject_Z b
                == inject_Z b * inject_Z (a / b) + inject_Z b)%Q as -> by ring.
        lra.
      * (* subnormal range *)
        assert (x < 2 ^ (-1021))%Q as Hsmall.
        { eapply Qlt_le_trans; [exact H3|]. apply pow2_le. lia. }
        assert (2 ^ (-1021) + 2 ^ (-1074 - 1) < 1)%Q as Htiny by by vm_compute.
        revert Herr Hsmall Htiny.
        generalize (2 ^ (-1021))%Q (2 ^ (-1074 - 1))%Q (round_magnitude x). intros. lra.
    + (* a = 0 *)
      assert (round_magnitude x == 0)%Q as H0.
      { unfold round_magnitude.
        rewrite (nearest_even_int (x / 2 ^ ulp_exponent x) 0);
          [change (inject_Z 0) with 0%Q; ring|].
        generalize (2 ^ ulp_exponent x)%Q. intros p. unfold Qdiv at 1.
        assert (x == 0)%Q as -> by lra. change (inject_Z 0) with 0%Q. ring. }
      lra.
Qed.

(** ** The random choice *)

Lemma random_element_elem u l x : random_element u l = Some x → x ∈ l.
Proof. unfold random_element. apply list_elem_of_lookup_2. Qed.

(** The product of 0.6666666666666666 and 3 is rounded up to 2, so the
    third of three candidates is drawn (the exact product would give the
    second). *)
Remark random_element_rounded_product (x y z : Z) :
  random_element (6004799503160661 # 9007199254740992) [x; y; z] = Some z.
Proof. reflexivity. Qed.

(** The index [Math.floor(Math.random() * l.length)] is inside a list
    that is not empty: the rounded product stays below [l.length]. *)
Lemma random_element_is_Some u l :
  unit_double u → (0 < length l)%nat → is_Some (random_element u l).
Proof.
  intros Hu Hl. unfold random_element.
  apply lookup_lt_is_Some.
  set (len := Z.of_nat (length l)).
  destruct (round_double_unit_times u len Hu ltac:(lia)) as [Hlo Hhi].
  assert (0 ≤ Qfloor (round_double (u * inject_Z len))) as Hlo'.
  { change 0 with (Qfloor 0). by apply Qfloor_resp_le. }
  assert (Qfloor (round_double (u * inject_Z len)) < len) as Hhi'.
  { rewrite Zlt_Qlt. eapply Qle_lt_trans; [apply Qfloor_le | done]. }
  lia.
Qed.

(** * Arrays and the store *)

Lemma arr_get_set_eq a k v : arr_get (arr_set a k v) k = v.
Proof.
  destruct k as [i|]; simpl; [|done].
  destruct (0 <=? i) eqn:Hi; simpl; rewrite ?Hi; simpl; [|by rewrite Z.eqb_refl].
  destruct (Z.to_nat i <? length (elems a))%nat eqn:Hlt; simpl.
  - apply Nat.ltb_lt in Hlt. by rewrite list_lookup_insert_eq.
  - apply Nat.ltb_ge in Hlt.
    rewrite lookup_app_r by done.
    rewrite lookup_app_r by (rewrite length_replicate; lia).
    rewrite length_replicate.
    by replace (Z.to_nat i - length (elems a) - (Z.to_nat i - length (elems a)))%nat with 0%nat by lia.
Qed.

Lemma arr_get_set_ne a k k' v : k ≠ k' → arr_get (arr_set a k' v) k = arr_get a k.
Proof.
  intros Hne. destruct k as [i|], k' as [i'|]; simpl.
  - destruct (0 <=? i) eqn:Hi, (0 <=? i') eqn:Hi'; simpl; rewrite ?Hi; try done.
    + apply Z.leb_le in Hi, Hi'.
      assert (Z.to_nat i ≠ Z.to_nat i') as Hn by (intros ?; apply Hne; f_equal; lia).
      destruct (Z.to_nat i' <? length (elems a))%nat eqn:Hlt; simpl.
      * by rewrite list_lookup_insert_ne.
      * apply Nat.ltb_ge in Hlt.
        destruct (decide (Z.to_nat i < length (elems a))%nat) as [Hin|Hout].
        { by rewrite lookup_app_l. }
        rewrite (lookup_ge_None_2 (elems a)) by lia.
        rewrite lookup_app_r by lia.
        destruct (decide (Z.to_nat i < Z.to_nat i')%nat).
        { rewrite lookup_app_l by (rewrite length_replicate; lia).
          rewrite lookup_replicate_2 by lia. done. }
        rewrite lookup_app_r by (rewrite length_replicate; lia).
        rewrite length_replicate.
        rewrite lookup_ge_None_2; [done|]. simpl. lia.
    + by destruct (Z.to_nat i' <? length (elems a))%nat.
    + assert ((i' =? i) = false) as -> by (apply Z.eqb_neq; congruence). done.
  - by destruct (0 <=? i) eqn:Hi; simpl; rewrite ?Hi.
  - destruct (0 <=? i'); simpl; [|done].
    by destruct (Z.to_nat i' <? length (elems a))%nat.
  - done.
Qed.

Lemma arr_get_arr_lookup (b : list nat) (i : nat) :
  arr_get (arr b) (Some (Z.of_nat i)) = b !! i.
Proof.
  simpl. assert ((0 <=? Z.of_nat i) = true) as -> by (apply Z.leb_le; lia).
  rewrite Nat2Z.id, list_lookup_fmap. by destruct (b !! i).
Qed.

(** A dense array without extra properties yields references at its
    indices only. *)
Lemma arr_get_arr_Some (b : list nat) k l :
  arr_get (arr b) k = Some l → ∃ i : nat, k = Some (Z.of_nat i) ∧ b !! i = Some l.
Proof.
  destruct k as [i|]; simpl; [|done].
  destruct (0 <=? i) eqn:Hi; [|done]. apply Z.leb_le in Hi.
  rewrite list_lookup_fmap. destruct (b !! Z.to_nat i) as [l'|] eqn:Hl; [|done].
  simpl. intros [= ->]. exists (Z.to_nat i). by rewrite Z2Nat.id.
Qed.

Lemma arr_set_arr (b : list nat) (i : nat) (l : nat) :
  (i < length b)%nat →
  arr_set (arr b) (Some (Z.of_nat i)) (Some l) = arr (<[i := l]> b).
Proof.
  intros Hi. unfold arr_set, arr. simpl.
  assert ((0 <=? Z.of_nat i) = true) as -> by (apply Z.leb_le; lia).
  rewrite Nat2Z.id, length_fmap.
  apply Nat.ltb_lt in Hi. rewrite Hi.
  by rewrite list_fmap_insert.
Qed.

Lemma arr_swap_arr (b : list nat) (i j li lj : nat) :
  b !! i = Some li → b !! j = Some lj →
  arr_swap (spread (arr b)) (Some (Z.of_nat i)) (Some (Z.of_nat j))
  = arr (<[j := li]> (<[i := lj]> b)).
Proof.
  intros Hi Hj. change (spread (arr b)) with (arr b).
  unfold arr_swap. rewrite !arr_get_arr_lookup, Hi, Hj.
  rewrite arr_set_arr by (by eapply lookup_lt_Some).
  rewrite arr_set_arr; [done|].
  rewrite length_insert. by eapply lookup_lt_Some.
Qed.

Lemma set_currentPos_Some l p (h : list Tile) :
  is_Some (h !! l) →
  set_currentPos (Some l) p h = (alter (with_currentPos p) l h, Done tt).
Proof. intros [t Ht]. unfold set_currentPos. by rewrite Ht. Qed.

Lemma set_currentPos_Done v p (h h' : list Tile) u :
  set_currentPos v p h = (h', Done u) →
  ∃ l, v = Some l ∧ is_Some (h !! l) ∧ h' = alter (with_currentPos p) l h.
Proof.
  unfold set_currentPos. destruct v as [l|]; [|done].
  destruct (h !! l) as [t|] eqn:Ht; [|done].
  intros [= <-]. eauto.
Qed.

Lemma set_currentPos_TypeError v p (h h' : list Tile) :
  set_currentPos v p h = (h', TypeError) → h' = h.
Proof.
  unfold set_currentPos. destruct v as [l|]; [|congruence].
  destruct (h !! l); congruence.
Qed.

Lemma lookup_alter_is_Some (f : Tile → Tile) (h : list Tile) l l' :
  is_Some (alter f l h !! l') ↔ is_Some (h !! l').
Proof. rewrite !lookup_lt_is_Some, length_alter. done. Qed.


Lemma swap_and_record_in_bounds (h : list Tile) (b : list nat) (i j li lj : nat) p1 p2 :
  b !! i = Some li → b !! j = Some lj →
  is_Some (h !! li) → is_Some (h !! lj) →
  swap_and_record (arr b) (Some (Z.of_nat i)) (Some (Z.of_nat j)) p1 p2 h
  = (alter (with_currentPos p2) li (alter (with_currentPos p1) lj h),
     Done (arr (<[j := li]> (<[i := lj]> b)))).
Proof.
  intros Hi Hj Hli Hlj. unfold swap_and_record.
  rewrite (arr_swap_arr b i j li lj Hi Hj).
  rewrite !arr_get_arr_lookup.
  assert (i < length b)%nat by (by eapply lookup_lt_Some).
  assert (j < length b)%nat by (by eapply lookup_lt_Some).
  assert (<[j:=li]> (<[i:=lj]> b) !! j = Some li) as ->
    by (apply list_lookup_insert_eq; rewrite length_insert; lia).
  assert (<[j:=li]> (<[i:=lj]> b) !! i = Some lj) as ->.
  { destruct (decide (i = j)) as [->|Hne].
    - rewrite list_lookup_insert_eq by (rewrite length_insert; lia). congruence.
    - rewrite list_lookup_insert_ne by done. by apply list_lookup_insert_eq. }
  unfold bind. rewrite set_currentPos_Some by done.
  rewrite set_currentPos_Some by (by apply lookup_alter_is_Some).
  done.
Qed.

(** Conversely, the two writes succeed only when both keys are indices
    inside the array. *)
Lemma swap_and_record_Done (h h' : list Tile) (b : list nat) k1 k2 p1 p2 a' :
  swap_and_record (arr b) k1 k2 p1 p2 h = (h', Done a') →
  ∃ i j li lj : nat,
    k1 = Some (Z.of_nat i) ∧ k2 = Some (Z.of_nat j)
    ∧ b !! i = Some li ∧ b !! j = Some lj
    ∧ is_Some (h !! li) ∧ is_Some (h !! lj)
    ∧ a' = arr (<[j := li]> (<[i := lj]> b))
    ∧ h' = alter (with_currentPos p2) li (alter (with_currentPos p1) lj h).
Proof.
  intros Hrun.
  assert (∃ l1 l2, arr_get (arr b) k1 = Some l1 ∧ arr_get (arr b) k2 = Some l2)
    as (l1 & l2 & H1 & H2).
  { revert Hrun. unfold swap_and_record, bind.
    destruct (set_currentPos _ p1 h) as [h1 [[]|]] eqn:E1; [|done].
    destruct (set_currentPos _ p2 h1) as [h2 [[]|]] eqn:E2; [|done].
    intros _.
    apply set_currentPos_Done in E1 as (l1 & G1 & _).
    apply set_currentPos_Done in E2 as (l2 & G2 & _).
    change (spread (arr b)) with (arr b) in G1, G2.
    unfold arr_swap in G1, G2.
    rewrite arr_get_set_eq in G2.
    destruct (decide (k1 = k2)) as [->|Hne].
    - eauto.
    - rewrite arr_get_set_ne, arr_get_set_eq in G1 by done. eauto. }
  apply arr_get_arr_Some in H1 as (i & -> & Hi).
  apply arr_get_arr_Some in H2 as (j & -> & Hj).
  destruct (decide (is_Some (h !! l1) ∧ is_Some (h !! l2))) as [[S1 S2]|Hno].
  - rewrite (swap_and_record_in_bounds h b i j l1 l2) in Hrun by done.
    injection Hrun as <- <-. exists i, j, l1, l2. done.
  - exfalso. revert Hrun. unfold swap_and_record, bind.
    rewrite (arr_swap_arr b i j l1 l2 Hi Hj), !arr_get_arr_lookup.
    assert (i < length b)%nat by (by eapply lookup_lt_Some).
    assert (j < length b)%nat by (by eapply lookup_lt_Some).
    assert (<[j:=l1]> (<[i:=l2]> b) !! j = Some l1) as ->
      by (apply list_lookup_insert_eq; rewrite length_insert; lia).
    assert (<[j:=l1]> (<[i:=l2]> b) !! i = Some l2) as ->.
    { destruct (decide (i = j)) as [->|Hne].
      - rewrite list_lookup_insert_eq by (rewrite length_insert; lia). congruence.
      - rewrite list_lookup_insert_ne by done. by apply list_lookup_insert_eq. }
    destruct (set_currentPos (Some l2) p1 h) as [h1 [[]|]] eqn:E1; [|done].
    destruct (set_currentPos (Some l1) p2 h1) as [h2 [[]|]] eqn:E2; [|done].
    intros _.
    apply set_currentPos_Done in E1 as (? & [= <-] & S2 & ->).
    apply set_currentPos_Done in E2 as (? & [= <-] & S1 & _).
    apply lookup_alter_is_Some in S1. tauto.
Qed.


(** * The empty cell *)

Lemma findIndex_from_first_empty (h : list Tile) (b : list nat) (e : nat) (k : Z) :
  (∀ p, (p < e)%nat → ∃ t, tile_at h b p = Some t ∧ isEmpty t = false) →
  (∃ t, tile_at h b e = Some t ∧ isEmpty t = true) →
  findIndex_from h (Some <$> b) k = Done (k + Z.of_nat e).
Proof.
  revert b k. induction e as [|e IH]; intros b k Hbefore (t & Ht & Hempty).
  - destruct b as [|l b]; [done|].
    unfold tile_at in Ht. simpl in Ht.
    rewrite fmap_cons. cbn [findIndex_from deref]. rewrite Ht, Hempty. f_equal. lia.
  - destruct b as [|l b]; [done|].
    destruct (Hbefore 0%nat ltac:(lia)) as (t0 & Ht0 & Hne).
    unfold tile_at in Ht0. simpl in Ht0.
    rewrite fmap_cons. cbn [findIndex_from deref]. rewrite Ht0, Hne.
    rewrite (IH b (k + 1)).
    + f_equal. lia.
    + intros p Hp. apply (Hbefore (S p)). lia.
    + by exists t.
Qed.

Lemma tile_at_is_Some (h : list Tile) (b : list nat) p :
  is_board h b → (p < length b)%nat → is_Some (tile_at h b p).
Proof.
  intros Hb Hp. destruct (lookup_lt_is_Some_2 b p Hp) as [l Hl].
  destruct (Hb p l Hl) as [t Ht]. exists t. unfold tile_at. by rewrite Hl.
Qed.

Lemma tile_at_Some (h : list Tile) (b : list nat) p t :
  tile_at h b p = Some t ↔ ∃ l, b !! p = Some l ∧ h !! l = Some t.
Proof.
  unfold tile_at. destruct (b !! p) as [l|]; simpl.
  - split; [eauto|]. by intros (? & [= <-] & ?).
  - split; [done|]. by intros (? & ? & ?).
Qed.

Lemma findIndex_only_empty (h : list Tile) (b : list nat) (e : nat) :
  is_board h b → only_empty_at h b e →
  findIndex_isEmpty (arr b) h = (h, Done (Z.of_nat e)).
Proof.
  intros Hb [Hex Huniq]. unfold findIndex_isEmpty. f_equal. simpl.
  rewrite (findIndex_from_first_empty h b e 0); [done| |done].
  intros p Hp. destruct Hex as (te & Hte & _).
  assert (e < length b)%nat.
  { apply tile_at_Some in Hte as (l & Hl & _). by eapply lookup_lt_Some. }
  destruct (tile_at_is_Some h b p Hb ltac:(lia)) as [t Ht].
  exists t. split; [done|]. destruct (isEmpty t) eqn:E; [|done].
  specialize (Huniq p t Ht E). lia.
Qed.

Lemma positions_ok_is_board h b : positions_ok h b → is_board h b.
Proof. intros Hp p l Hl. destruct (Hp p l Hl) as (t & Ht & _). by exists t. Qed.

(** Two positions of a board with consistent [currentPos] fields hold
    different objects. *)
Lemma positions_ok_inj h b p q l :
  positions_ok h b → b !! p = Some l → b !! q = Some l → p = q.
Proof.
  intros Hok Hp Hq.
  destruct (Hok p l Hp) as (t & Ht & Hcp).
  destruct (Hok q l Hq) as (t' & Ht' & Hcq).
  rewrite Ht in Ht'. injection Ht' as <-. lia.
Qed.

(** * The move logic *)


Lemma attemptMove_unfold h b n (e : nat) i :
  is_board h b → only_empty_at h b e →
  attemptMove (arr b) n i h =
    if isAdjacent n i (Z.of_nat e)
    then accepted (swap_and_record (arr b) (Some i) (Some (Z.of_nat e)) i (Z.of_nat e) h)
    else (h, Done None).
Proof.
  intros Hb He. unfold attemptMove, bind at 1.
  rewrite (findIndex_only_empty h b e Hb He).
  destruct (isAdjacent n i (Z.of_nat e)); [|done].
  unfold swap_and_record, accepted, bind.
  destruct (set_currentPos _ i h) as [h1 [[]|]]; [|done].
  by destruct (set_currentPos _ (Z.of_nat e) h1) as [h2 [[]|]].
Qed.

(** * Exchanging two positions *)

Lemma swap_board_comm (b : list nat) i j : swap_board b i j = swap_board b j i.
Proof.
  unfold swap_board.
  destruct (b !! i) as [li|] eqn:Hi, (b !! j) as [lj|] eqn:Hj; try done.
  destruct (decide (i = j)) as [->|Hne]; [congruence|].
  by rewrite list_insert_insert_ne.
Qed.

Lemma swap_board_Permutation (b : list nat) i j : swap_board b i j ≡ₚ b.
Proof.
  unfold swap_board.
  destruct (b !! i) as [li|] eqn:Hi, (b !! j) as [lj|] eqn:Hj; try done.
  by apply Permutation_insert_swap.
Qed.

Lemma alter_alter_ne (f g : Tile → Tile) (h : list Tile) l l' :
  l ≠ l' → alter f l (alter g l' h) = alter g l' (alter f l h).
Proof.
  intros Hne. apply list_eq. intros k.
  rewrite !list_lookup_alter.
  repeat case_decide; subst; try done;
    rewrite ?list_lookup_alter_eq, ?list_lookup_alter_ne by done; done.
Qed.

Lemma record_positions_comm (h : list Tile) (b : list nat) i j :
  b !! i ≠ b !! j → record_positions h b i j = record_positions h b j i.
Proof.
  unfold record_positions.
  destruct (b !! i) as [li|] eqn:Hi, (b !! j) as [lj|] eqn:Hj; try done.
  intros Hne. apply alter_alter_ne. congruence.
Qed.

Lemma length_swap_board (b : list nat) i j : length (swap_board b i j) = length b.
Proof.
  unfold swap_board. destruct (b !! i), (b !! j); try done.
  by rewrite !length_insert.
Qed.

Lemma lookup_swap_board (b : list nat) i j p :
  (i < length b)%nat → (j < length b)%nat →
  swap_board b i j !! p =
    if decide (p = j) then b !! i else if decide (p = i) then b !! j else b !! p.
Proof.
  intros Hi Hj. unfold swap_board.
  destruct (lookup_lt_is_Some_2 b i Hi) as [li Hli].
  destruct (lookup_lt_is_Some_2 b j Hj) as [lj Hlj].
  rewrite Hli, Hlj.
  destruct (decide (p = j)) as [->|Hpj].
  - by rewrite list_lookup_insert_eq by (by rewrite length_insert).
  - rewrite list_lookup_insert_ne by done.
    destruct (decide (p = i)) as [->|Hpi].
    + by rewrite list_lookup_insert_eq.
    + by rewrite list_lookup_insert_ne.
Qed.

Lemma same_tiles_refl h : same_tiles h h.
Proof. split; [done|]. intros l t Ht. exists t. split; [done|]. by destruct t. Qed.

Lemma same_tiles_trans h1 h2 h3 : same_tiles h1 h2 → same_tiles h2 h3 → same_tiles h1 h3.
Proof.
  intros [L1 H1] [L2 H2]. split; [congruence|].
  intros l t Ht. destruct (H1 l t Ht) as (t' & Ht' & E1).
  destruct (H2 l t' Ht') as (t'' & Ht'' & E2).
  exists t''. split; [done|]. rewrite E2, E1. done.
Qed.

Lemma same_tiles_alter h l p : same_tiles h (alter (with_currentPos p) l h).
Proof.
  split; [apply length_alter|]. intros l' t Ht.
  destruct (decide (l' = l)) as [->|Hne].
  - exists (with_currentPos p t). by rewrite list_lookup_alter_eq, Ht.
  - exists t. rewrite list_lookup_alter_ne by done. split; [done|]. by destruct t.
Qed.

Lemma same_tiles_record_positions h b i j : same_tiles h (record_positions h b i j).
Proof.
  unfold record_positions. destruct (b !! i), (b !! j); try apply same_tiles_refl.
  eapply same_tiles_trans; apply same_tiles_alter.
Qed.

Lemma same_tiles_isEmpty h h' l t :
  same_tiles h h' → h !! l = Some t → ∃ t', h' !! l = Some t' ∧ isEmpty t' = isEmpty t
    ∧ id t' = id t ∧ correctPos t' = correctPos t ∧ imageUrl t' = imageUrl t.
Proof.
  intros [_ H] Ht. destruct (H l t Ht) as (t' & Ht' & E).
  exists t'. split; [done|]. by rewrite E.
Qed.

(** A legal exchange keeps the board invariants; the empty cell is then at
    the other position. *)
Lemma well_formed_swap n (h : list Tile) (b : list nat) (e t : nat) :
  well_formed n h b e → (t < length b)%nat → t ≠ e →
  well_formed n (record_positions h b e t) (swap_board b e t) t.
Proof.
  intros [Hlen Hpos [(te & Hte & Hempty) Huniq]] Ht Hne.
  apply tile_at_Some in Hte as (le & Hle & Hhe).
  assert (e < length b)%nat as He by (by eapply lookup_lt_Some).
  destruct (lookup_lt_is_Some_2 b t Ht) as [lt Hlt].
  destruct (Hpos t lt Hlt) as (tt & Hht & Hcpt).
  assert (le ≠ lt) as Hlne.
  { intros ->. apply Hne. by eapply (positions_ok_inj h b). }
  assert (∀ p, swap_board b e t !! p =
     if decide (p = t) then Some le else if decide (p = e) then Some lt else b !! p) as Hsw.
  { intros p. rewrite lookup_swap_board by done. by rewrite Hle, Hlt. }
  assert (∀ l, record_positions h b e t !! l =
     if decide (l = le) then Some (with_currentPos (Z.of_nat t) te)
     else if decide (l = lt) then Some (with_currentPos (Z.of_nat e) tt)
     else h !! l) as Hrec.
  { intros l. unfold record_positions. rewrite Hle, Hlt.
    destruct (decide (l = le)) as [->|H1].
    - by rewrite list_lookup_alter_eq, list_lookup_alter_ne, Hhe.
    - rewrite list_lookup_alter_ne by done.
      destruct (decide (l = lt)) as [->|H2].
      + by rewrite list_lookup_alter_eq, Hht.
      + by rewrite list_lookup_alter_ne. }
  split.
  - by rewrite length_swap_board.
  - intros p l. rewrite Hsw, Hrec.
    destruct (decide (p = t)) as [->|Hpt].
    + intros [= <-]. rewrite decide_True by done. eauto.
    + destruct (decide (p = e)) as [->|Hpe].
      * intros [= <-]. rewrite decide_False by done. rewrite decide_True by done. eauto.
      * intros Hl.
        rewrite decide_False by (intros ->; apply Hpe; by eapply (positions_ok_inj h b)).
        rewrite decide_False by (intros ->; apply Hpt; by eapply (positions_ok_inj h b)).
        by apply Hpos.
  - split.
    + exists (with_currentPos (Z.of_nat t) te). split; [|done].
      apply tile_at_Some. exists le. rewrite Hsw, Hrec. by rewrite !decide_True.
    + intros p t' Hp Hemp. apply tile_at_Some in Hp as (l & Hl & Hh).
      rewrite Hsw in Hl. rewrite Hrec in Hh.
      destruct (decide (p = t)) as [|Hpt]; [done|]. exfalso.
      destruct (decide (p = e)) as [->|Hpe].
      * injection Hl as <-. rewrite decide_False in Hh by done.
        rewrite decide_True in Hh by done. injection Hh as <-. simpl in Hemp.
        apply Hne. apply (Huniq t tt); [|done]. apply tile_at_Some. eauto.
      * rewrite decide_False in Hh
          by (intros ->; apply Hpe; by eapply (positions_ok_inj h b)).
        rewrite decide_False in Hh
          by (intros ->; apply Hpt; by eapply (positions_ok_inj h b)).
        apply Hpe. apply (Huniq p t'); [|done]. apply tile_at_Some. eauto.
Qed.

(** * One iteration of the shuffle *)


Lemma shuffle_body_target n u a e prev x h :
  targetIdx_of u e n prev = Some x →
  shuffle_body n u {| sh_tiles := a; emptyIdx := e; previousIdx := prev |} h
  = shuffled e x (swap_and_record a (Some e) (Some x) e x h).
Proof.
  intros Hx. unfold shuffle_body, swap_and_record, shuffled, bind. simpl.
  rewrite Hx.
  destruct (set_currentPos _ e h) as [h1 [[]|]]; [|done].
  by destruct (set_currentPos _ x h1) as [h2 [[]|]].
Qed.

(** With an [undefined] target, line 117 throws before anything is
    written. *)
Lemma shuffle_body_undefined_target n u s h :
  targetIdx_of u (emptyIdx s) n (previousIdx s) = None →
  shuffle_body n u s h = (h, TypeError).
Proof.
  intros Hx. unfold shuffle_body, bind. rewrite Hx.
  unfold arr_swap.
  rewrite arr_get_set_ne, arr_get_set_eq by done.
  done.
Qed.

Lemma candidates_neighbour n e prev x :
  0 < n → 0 ≤ e < n * n → x ∈ candidates e n prev → neighbour n e x.
Proof.
  intros Hn He Hx. by apply (elem_of_candidates n e prev x Hn He) in Hx as [? _].
Qed.

Lemma neighbour_ne n e x : 0 < n → neighbour n e x → x ≠ e.
Proof.
  intros Hn [_ [[H _]|[H _]]] ->; rewrite Z.sub_diag in H; simpl in H; lia.
Qed.

Lemma well_formed_empty_range n h b e :
  well_formed n h b e → 0 ≤ Z.of_nat e < n * n.
Proof.
  intros [Hlen _ [(t & Ht & _) _]].
  apply tile_at_Some in Ht as (l & Hl & _).
  apply lookup_lt_Some in Hl. lia.
Qed.

(** With a target drawn from the candidates, the iteration is a legal
    exchange. *)
Lemma shuffle_body_legal n u h b (e : nat) prev x :
  0 < n → well_formed n h b e →
  targetIdx_of u (Z.of_nat e) n prev = Some x →
  ∃ t : nat,
    x = Z.of_nat t ∧ t ≠ e ∧ (t < length b)%nat
    ∧ neighbour n (Z.of_nat e) (Z.of_nat t)
    ∧ shuffle_body n u {| sh_tiles := arr b; emptyIdx := Z.of_nat e; previousIdx := prev |} h
      = (record_positions h b e t,
         Done {| sh_tiles := arr (swap_board b e t);
                 emptyIdx := Z.of_nat t;
                 previousIdx := Z.of_nat e |}).
Proof.
  intros Hn Hwf Hx.
  pose proof (well_formed_empty_range n h b e Hwf) as He.
  pose proof (random_element_elem _ _ _ Hx) as Hc.
  pose proof (candidates_neighbour n _ prev x Hn He Hc) as Hnb.
  pose proof (neighbour_ne n _ x Hn Hnb) as Hne.
  destruct Hnb as [Hrange Hadj].
  exists (Z.to_nat x). rewrite Z2Nat.id by lia.
  destruct Hwf as [Hlen Hpos Hemp].
  assert (Z.to_nat x < length b)%nat as Ht by lia.
  assert (e < length b)%nat as He' by lia.
  repeat split; try done; try lia.
  rewrite (shuffle_body_target n u (arr b) (Z.of_nat e) prev x h Hx).
  destruct (lookup_lt_is_Some_2 b e He') as [le Hle].
  destruct (lookup_lt_is_Some_2 b _ Ht) as [lt Hlt].
  rewrite <- (Z2Nat.id x) at 1 2 by lia.
  rewrite (swap_and_record_in_bounds h b e (Z.to_nat x) le lt); try done.
  - unfold shuffled, swap_board, record_positions. simpl. rewrite Hle, Hlt.
    by rewrite Z2Nat.id by lia.
  - destruct (Hpos e le Hle) as (? & -> & _). done.
  - destruct (Hpos _ lt Hlt) as (? & -> & _). done.
Qed.

Lemma legal_swap_intro n (h : list Tile) (b : list nat) (e t : nat) :
  well_formed n h b e → neighbour n (Z.of_nat e) (Z.of_nat t) →
  legal_swap n (h, b) (record_positions h b e t, swap_board b e t).
Proof.
  intros [_ _ [Hex _]] Hnb. exists e, t. done.
Qed.

(** * The loop *)

Lemma shuffle_loop_split n random i j k s h :
  shuffle_loop n random i (j + k) s h =
  (let* s' := shuffle_loop n random i j s in
   shuffle_loop n random (i + j) k s') h.
Proof.
  revert i s h. induction j as [|j IH]; intros i s h.
  - unfold bind. simpl. by rewrite Nat.add_0_r.
  - simpl. unfold bind.
    destruct (shuffle_body n (random i) s h) as [h1 [s1|]]; [|done].
    rewrite IH. unfold bind. by rewrite Nat.add_succ_r.
Qed.

(** Every completed run of the loop is a sequence of legal exchanges that
    keeps the invariants, whatever the random values. *)
Lemma shuffle_loop_Done n random :
  0 < n →
  ∀ k i h b (e : nat) prev h' s',
    well_formed n h b e →
    shuffle_loop n random i k
      {| sh_tiles := arr b; emptyIdx := Z.of_nat e; previousIdx := prev |} h = (h', Done s') →
    ∃ b' (e' : nat),
      sh_tiles s' = arr b' ∧ emptyIdx s' = Z.of_nat e'
      ∧ well_formed n h' b' e'
      ∧ nsteps (legal_swap n) k (h, b) (h', b').
Proof.
  intros Hn. induction k as [|k IH]; intros i h b e prev h' s' Hwf Hrun.
  - simpl in Hrun. injection Hrun as <- <-. exists b, e.
    split; [done|]. split; [done|]. split; [done|]. constructor.
  - simpl in Hrun. unfold bind in Hrun.
    destruct (targetIdx_of (random i) (Z.of_nat e) n prev) as [x|] eqn:Hx.
    + destruct (shuffle_body_legal n (random i) h b e prev x Hn Hwf Hx)
        as (t & -> & Hne & Ht & Hnb & Hbody).
      rewrite Hbody in Hrun.
      apply IH in Hrun as (b' & e' & ? & ? & ? & ?);
        [|by apply well_formed_swap].
      exists b', e'. split; [done|]. split; [done|]. split; [done|].
      eapply nsteps_l; [|done]. by apply legal_swap_intro.
    + rewrite shuffle_body_undefined_target in Hrun by done. done.
Qed.

(** On a grid of side at least 2 and with [Math.random()] returning
    doubles in [[0, 1)], the loop completes. *)
Lemma shuffle_loop_total n random :
  2 ≤ n → double_source random →
  ∀ k i h b (e : nat) prev,
    well_formed n h b e →
    ∃ h' s', shuffle_loop n random i k
      {| sh_tiles := arr b; emptyIdx := Z.of_nat e; previousIdx := prev |} h = (h', Done s').
Proof.
  intros Hn Hrand. induction k as [|k IH]; intros i h b e prev Hwf.
  - simpl. unfold ret. eauto.
  - pose proof (well_formed_empty_range n h b e Hwf) as He.
    destruct (random_element_is_Some (random i) (candidates (Z.of_nat e) n prev))
      as [x Hx]; try apply Hrand.
    { rewrite candidates_filtered by done. by apply filteredMoves_nonempty. }
    destruct (shuffle_body_legal n (random i) h b e prev x ltac:(lia) Hwf Hx)
      as (t & -> & Hne & Ht & Hnb & Hbody).
    simpl. unfold bind. rewrite Hbody.
    apply IH. by apply well_formed_swap.
Qed.

Lemma shuffleTiles_unfold random h b n (e : nat) k :
  is_board h b → only_empty_at h b e →
  shuffleTiles random (arr b) n k h =
  (let* s := shuffle_loop n random 0 (Z.to_nat k)
               {| sh_tiles := arr b; emptyIdx := Z.of_nat e; previousIdx := -1 |} in
   ret (sh_tiles s)) h.
Proof.
  intros Hb He. unfold shuffleTiles. change (spread (arr b)) with (arr b).
  unfold bind at 1. by rewrite (findIndex_only_empty h b e Hb He).
Qed.

(** * The solved board *)


Lemma map_alloc_spec f (l : list string) k (h : list Tile) :
  map_alloc f l k h
  = (h ++ imap (λ i url, f url (k + Z.of_nat i)) l, Done (seq (length h) (length l))).
Proof.
  revert k h. induction l as [|url l IH]; intros k h.
  - simpl. unfold ret. by rewrite app_nil_r.
  - simpl. unfold bind, alloc. rewrite IH. unfold ret. f_equal.
    + rewrite <- app_assoc. simpl. rewrite Z.add_0_r. do 2 f_equal.
      apply imap_ext. intros i x _. simpl. f_equal. lia.
    + rewrite length_app. simpl. rewrite Nat.add_1_r. done.
Qed.

Lemma generateSolvedState_run (imagePieces : list string) n (h : list Tile) :
  generateSolvedState imagePieces n h
  = (h ++ imap (solved_tile n) imagePieces,
     Done (arr (seq (length h) (length imagePieces)))).
Proof.
  unfold generateSolvedState, bind. rewrite map_alloc_spec. unfold ret.
  erewrite imap_ext; [done|]. intros i url _. done.
Qed.

Lemma tile_at_solved (imagePieces : list string) n (h : list Tile) p :
  tile_at (h ++ imap (solved_tile n) imagePieces)
          (seq (length h) (length imagePieces)) p
  = solved_tile n p <$> imagePieces !! p.
Proof.
  unfold tile_at.
  destruct (decide (p < length imagePieces)%nat) as [Hp|Hp].
  - rewrite (proj2 (lookup_seq _ _ _ (length h + p)%nat)) by done. simpl.
    rewrite lookup_app_r by lia.
    replace (length h + p - length h)%nat with p by lia.
    apply list_lookup_imap.
  - rewrite (lookup_ge_None_2 (seq _ _)) by (rewrite length_seq; lia).
    by rewrite (lookup_ge_None_2 imagePieces) by lia.
Qed.

Lemma well_formed_solved (imagePieces : list string) n (h : list Tile) :
  0 < n → Z.of_nat (length imagePieces) = n * n →
  well_formed n (h ++ imap (solved_tile n) imagePieces)
              (seq (length h) (length imagePieces)) (Z.to_nat (n * n - 1)).
Proof.
  intros Hn Hlen. split.
  - by rewrite length_seq.
  - intros p l Hl.
    assert (tile_at (h ++ imap (solved_tile n) imagePieces)
                    (seq (length h) (length imagePieces)) p
            = (λ l, (h ++ imap (solved_tile n) imagePieces) !! l) l) as Ht
      by (unfold tile_at; by rewrite Hl).
    rewrite tile_at_solved in Ht. simpl in Ht.
    apply lookup_seq in Hl as [_ Hp].
    destruct (lookup_lt_is_Some_2 imagePieces p Hp) as [url Hurl].
    rewrite Hurl in Ht. simpl in Ht. eauto.
  - split.
    + assert (Z.to_nat (n * n - 1) < length imagePieces)%nat as Hp by nia.
      destruct (lookup_lt_is_Some_2 imagePieces _ Hp) as [url Hurl].
      exists (solved_tile n (Z.to_nat (n * n - 1)) url).
      rewrite tile_at_solved, Hurl. split; [done|]. simpl.
      apply Z.eqb_eq. nia.
    + intros p t. rewrite tile_at_solved.
      destruct (imagePieces !! p) as [url|]; [|done]. simpl.
      intros [= <-]. simpl. intros ?%Z.eqb_eq. lia.
Qed.

Lemma every_at_correctPos_true (h : list Tile) (b : list nat) :
  (∀ p l, b !! p = Some l → ∃ t, h !! l = Some t ∧ currentPos t = correctPos t) →
  every_at_correctPos h (Some <$> b) = Done true.
Proof.
  induction b as [|l b IH]; intros Hall; [done|].
  rewrite fmap_cons. cbn [every_at_correctPos deref].
  destruct (Hall 0%nat l eq_refl) as (t & -> & ->).
  rewrite Z.eqb_refl. apply IH. intros p l' Hl'. by apply (Hall (S p)).
Qed.

(** * Moves *)

Lemma with_currentPos_id p t : currentPos t = p → with_currentPos p t = t.
Proof. intros <-. by destruct t. Qed.

Lemma exchanged_intro (h : list Tile) (b : list nat) i j li lj :
  b !! i = Some li → b !! j = Some lj → li ≠ lj →
  is_Some (h !! li) → is_Some (h !! lj) →
  exchanged h b i j (record_positions h b i j) (swap_board b i j).
Proof.
  intros Hi Hj Hne [ti Hti] [tj Htj].
  assert (i < length b)%nat by (by eapply lookup_lt_Some).
  assert (j < length b)%nat by (by eapply lookup_lt_Some).
  assert (i ≠ j) by congruence.
  assert (record_positions h b i j
          = alter (with_currentPos (Z.of_nat j)) li (alter (with_currentPos (Z.of_nat i)) lj h))
    as Hrec by (unfold record_positions; by rewrite Hi, Hj).
  split.
  - apply length_swap_board.
  - rewrite lookup_swap_board by done. by rewrite decide_False, decide_True.
  - rewrite lookup_swap_board by done. by rewrite decide_True.
  - intros p ??. rewrite lookup_swap_board by done. by rewrite !decide_False.
  - exists (with_currentPos (Z.of_nat i) tj). split; [|done].
    apply tile_at_Some. exists lj. split.
    + rewrite lookup_swap_board by done. by rewrite decide_False, decide_True.
    + by rewrite Hrec, list_lookup_alter_ne, list_lookup_alter_eq, Htj.
  - exists (with_currentPos (Z.of_nat j) ti). split; [|done].
    apply tile_at_Some. exists li. split.
    + rewrite lookup_swap_board by done. by rewrite decide_True.
    + by rewrite Hrec, list_lookup_alter_eq, list_lookup_alter_ne, Hti.
  - apply same_tiles_record_positions.
  - intros l Hl1 Hl2. rewrite Hrec, !list_lookup_alter_ne; congruence.
Qed.

Lemma isAdjacent_sym n i e : isAdjacent n i e = isAdjacent n e i.
Proof.
  unfold isAdjacent.
  rewrite (Z.eqb_sym (Z.rem i n)), (Z.eqb_sym (i / n)).
  by rewrite <- (Z.abs_opp (i / n - e / n)), <- (Z.abs_opp (Z.rem i n - Z.rem e n)),
    !Z.opp_sub_distr, !Z.add_opp_l.
Qed.

Lemma isAdjacent_irrefl n i : isAdjacent n i i = false.
Proof. unfold isAdjacent. by rewrite !Z.sub_diag. Qed.

(** An accepted click exchanged two positions inside the board. *)
Lemma attemptMove_accepted_inv h b n (e : nat) i h' a' :
  is_board h b → only_empty_at h b e →
  attemptMove (arr b) n i h = (h', Done (Some a')) →
  ∃ ti : nat,
    i = Z.of_nat ti ∧ (ti < length b)%nat ∧ ti ≠ e
    ∧ isAdjacent n i (Z.of_nat e) = true
    ∧ a' = arr (swap_board b ti e)
    ∧ h' = record_positions h b ti e.
Proof.
  intros Hb He Hrun. rewrite (attemptMove_unfold h b n e i Hb He) in Hrun.
  destruct (isAdjacent n i (Z.of_nat e)) eqn:Hadj; [|done].
  unfold accepted in Hrun.
  destruct (swap_and_record _ _ _ _ _ h) as [h1 [a1|]] eqn:Hsw; [|done].
  simpl in Hrun. injection Hrun as <- <-.
  apply swap_and_record_Done in Hsw
    as (ti & e' & li & le & [= ->] & [= He'] & Hi & Hle & _ & _ & -> & ->).
  apply Nat2Z.inj in He'. subst e'.
  exists ti. split; [done|]. split; [by eapply lookup_lt_Some|].
  split; [intros ->; by rewrite isAdjacent_irrefl in Hadj|].
  split; [done|].
  unfold swap_board, record_positions. by rewrite Hi, Hle.
Qed.

Lemma attemptMove_accepted h b n (e ti : nat) :
  is_board h b → only_empty_at h b e → (ti < length b)%nat →
  isAdjacent n (Z.of_nat ti) (Z.of_nat e) = true →
  attemptMove (arr b) n (Z.of_nat ti) h
  = (record_positions h b ti e, Done (Some (arr (swap_board b ti e)))).
Proof.
  intros Hb He Hti Hadj.
  rewrite (attemptMove_unfold h b n e) by done. rewrite Hadj.
  destruct He as [(te & Hte & Hemp) Huniq].
  apply tile_at_Some in Hte as (le & Hle & Hhe).
  destruct (lookup_lt_is_Some_2 b ti Hti) as [li Hli].
  rewrite (swap_and_record_in_bounds h b ti e li le); eauto.
  unfold accepted, record_positions, swap_board. simpl. by rewrite Hli, Hle.
Qed.

(** The two tiles of an accepted move are different objects: one is empty
    and the other is not. *)
Lemma empty_tile_distinct h b (e ti : nat) li le :
  is_board h b → only_empty_at h b e → ti ≠ e →
  b !! ti = Some li → b !! e = Some le → li ≠ le.
Proof.
  intros Hb [(te & Hte & Hemp) Huniq] Hne Hli Hle ->.
  apply tile_at_Some in Hte as (le' & Hle' & Hhe).
  rewrite Hle in Hle'. injection Hle' as <-.
  apply Hne. apply (Huniq ti te); [|done]. apply tile_at_Some. eauto.
Qed.

Lemma well_formed_board9 : well_formed 3 store9 board9 8.
Proof. apply (well_formed_solved images9 3 []); [lia | reflexivity]. Qed.

Lemma is_board_board9 : is_board store9 board9.
Proof. apply positions_ok_is_board, well_formed_board9. Qed.

Lemma only_empty_at_board9 : only_empty_at store9 board9 8.
Proof. apply well_formed_board9. Qed.

Lemma unit_interval_half : unit_interval half.
Proof. intros i. split; reflexivity || discriminate. Qed.

Lemma double_source_half : double_source half.
Proof.
  intros i. split; [|reflexivity].
  exists 1, (-1). split; [lia|]. split; [lia | reflexivity].
Qed.

Lemma double_source_two_thirds : double_source two_thirds.
Proof.
  intros i. split; [|reflexivity].
  exists 6004799503160661, (-53). split; [lia|]. split; [lia | reflexivity].
Qed.

(** The handler outside of play ignores the click. *)
Lemma handleTileClick_not_playing st index h :
  gameState st ≠ PLAYING → handleTileClick st index h = (h, Done st).
Proof. intros Hs. unfold handleTileClick. by destruct (gameState st). Qed.

(** During play the handler installs what the move logic returns, counts
    the move and checks for the solved board. *)
Lemma handleTileClick_playing st index h :
  gameState st = PLAYING →
  handleTileClick st index h =
  (let* r := attemptMove (tiles st) (difficulty st) index in
   match r with
   | Some newTiles =>
       let* solved := isSolved newTiles in
       ret {| difficulty := difficulty st; tiles := newTiles;
              gameState := if solved then WON else PLAYING;
              moves := moves st + 1 |}
   | None => ret st
   end) h.
Proof. intros Hs. unfold handleTileClick. by rewrite Hs. Qed.

Lemma isSolved_board (h : list Tile) (b : list nat) :
  is_board h b → ∃ solved, isSolved (arr b) h = (h, Done solved).
Proof.
  intros Hb. unfold isSolved. simpl.
  assert (∃ solved, every_at_correctPos h (Some <$> b) = Done solved) as [s ->]; [|eauto].
  induction b as [|l b IH]; [by exists true|].
  rewrite fmap_cons. cbn [every_at_correctPos deref].
  destruct (Hb 0%nat l eq_refl) as [t ->].
  destruct (currentPos t =? correctPos t); [|by exists false].
  apply IH. intros p l' Hl'. by apply (Hb (S p)).
Qed.

Lemma is_board_same_tiles (h h' : list Tile) (b b' : list nat) :
  same_tiles h h' → b' ≡ₚ b → is_board h b → is_board h' b'.
Proof.
  intros [Hlen _] Hperm Hb p l Hl.
  assert (l ∈ b) as Hin by (rewrite <- Hperm; by eapply list_elem_of_lookup_2).
  apply list_elem_of_lookup_1 in Hin as [q Hq].
  apply lookup_lt_is_Some. rewrite Hlen. apply lookup_lt_is_Some. by apply (Hb q).
Qed.

(** C1. On a board of length n² whose only empty tile is at index [e],
    and for a target index inside the board, the move logic of
    handleTileClick accepts the click exactly when the target is
    Manhattan-adjacent to [e] (rows and columns taken as floor(index/n) and
    index mod n).  An adjacent target yields the board with the two tiles
    exchanged and both [currentPos] fields set to the new indices, and the
    handler, during play, installs that board and counts the move.  Any
    other target yields no new board: the handler returns without an
    exception and leaves the state and the store as they were. *)
Theorem attemptMove_accepts_iff_adjacent
    (h : list Tile) (b : list nat) (n : Z) (e : nat) (i m : Z) :
  0 < n → Z.of_nat (length b) = n * n →
  is_board h b → only_empty_at h b e →
  0 ≤ i < n * n →
  let st := {| difficulty := n; tiles := arr b; gameState := PLAYING; moves := m |} in
  (manhattan_adjacent n i (Z.of_nat e) →
     ∃ h' b' (solved : bool),
       attemptMove (arr b) n i h = (h', Done (Some (arr b')))
       ∧ exchanged h b (Z.to_nat i) e h' b'
       ∧ handleTileClick st i h
         = (h', Done {| difficulty := n; tiles := arr b';
                        gameState := if solved then WON else PLAYING;
                        moves := m + 1 |}))
  ∧ (¬ manhattan_adjacent n i (Z.of_nat e) →
     attemptMove (arr b) n i h = (h, Done None)
     ∧ handleTileClick st i h = (h, Done st)).
Proof.
  intros Hn Hlen Hb He Hi st. split.
  - intros Hadj. apply isAdjacent_manhattan in Hadj; [|lia..].
    assert (Z.to_nat i < length b)%nat as Hti by lia.
    rewrite <- (Z2Nat.id i) in Hadj by lia.
    pose proof (attemptMove_accepted h b n e (Z.to_nat i) Hb He Hti Hadj) as Hrun.
    rewrite Z2Nat.id in Hrun by lia.
    destruct (isSolved_board (record_positions h b (Z.to_nat i) e)
                (swap_board b (Z.to_nat i) e)) as [solved Hsolved].
    { eapply is_board_same_tiles; [| |exact Hb].
      - apply same_tiles_record_positions.
      - apply swap_board_Permutation. }
    exists (record_positions h b (Z.to_nat i) e), (swap_board b (Z.to_nat i) e), solved.
    split; [done|]. split.
    + assert (Z.to_nat i ≠ e) as Hne.
      { intros Heq. rewrite Heq in Hadj. by rewrite isAdjacent_irrefl in Hadj. }
      destruct (lookup_lt_is_Some_2 b _ Hti) as [li Hli].
      destruct He as [(te & Hte & Hemp) Huniq].
      pose proof Hte as Hte'. apply tile_at_Some in Hte' as (le & Hle & Hhe).
      apply (exchanged_intro h b _ e li le); eauto.
      eapply empty_tile_distinct; eauto. split; eauto.
    + unfold handleTileClick, st.
      cbn [gameState tiles difficulty moves GameState_eqb negb].
      unfold bind. rewrite Hrun. by rewrite Hsolved.
  - intros Hnadj. apply isAdjacent_not_manhattan in Hnadj; [|lia..].
    assert (attemptMove (arr b) n i h = (h, Done None)) as Hrun
      by (rewrite (attemptMove_unfold h b n e i Hb He); by rewrite Hnadj).
    split; [done|].
    unfold handleTileClick, st.
    cbn [gameState tiles difficulty moves GameState_eqb negb].
    unfold bind. by rewrite Hrun.
Qed.

Lemma attemptMove_accepts_iff_adjacent_witness :
  let st := {| difficulty := 3; tiles := arr board9; gameState := PLAYING; moves := 0 |} in
  (manhattan_adjacent 3 5 (Z.of_nat 8) →
     ∃ h' b' (solved : bool),
       attemptMove (arr board9) 3 5 store9 = (h', Done (Some (arr b')))
       ∧ exchanged store9 board9 (Z.to_nat 5) 8 h' b'
       ∧ handleTileClick st 5 store9
         = (h', Done {| difficulty := 3; tiles := arr b';
                        gameState := if solved then WON else PLAYING;
                        moves := 0 + 1 |}))
  ∧ (¬ manhattan_adjacent 3 5 (Z.of_nat 8) →
     attemptMove (arr board9) 3 5 store9 = (store9, Done None)
     ∧ handleTileClick st 5 store9 = (store9, Done st)).
Proof.
  apply (attemptMove_accepts_iff_adjacent store9 board9 3 8 5 0).
  - lia.
  - reflexivity.
  - exact is_board_board9.
  - exact only_empty_at_board9.
  - lia.
Defined.

(** C5. Accepted moves are self-inverse: when the move logic accepts
    target [i] on a well-formed board with the empty cell at [e], the empty
    cell of the result is at [i], a click on [e] is accepted there, and it
    gives back the original board and store. *)
Theorem attemptMove_self_inverse
    (h : list Tile) (b : list nat) (n : Z) (e : nat) (i : Z)
    (h' : list Tile) (a' : jsarray) :
  0 < n → well_formed n h b e →
  attemptMove (arr b) n i h = (h', Done (Some a')) →
  ∃ b', a' = arr b'
        ∧ well_formed n h' b' (Z.to_nat i)
        ∧ attemptMove a' n (Z.of_nat e) h' = (h, Done (Some (arr b))).
Proof.
  intros Hn Hwf Hrun.
  pose proof (positions_ok_is_board h b (wf_positions _ _ _ _ Hwf)) as Hb.
  apply (attemptMove_accepted_inv h b n e i h' a' Hb (wf_empty _ _ _ _ Hwf)) in Hrun
    as (ti & -> & Hti & Hne & Hadj & -> & ->).
  rewrite Nat2Z.id.
  destruct Hwf as [Hlen Hpos Hemp].
  destruct Hemp as [(te & Hte & Hempty) Huniq].
  pose proof Hte as Hte'. apply tile_at_Some in Hte' as (le & Hle & Hhe).
  assert (e < length b)%nat as He by (by eapply lookup_lt_Some).
  destruct (lookup_lt_is_Some_2 b ti Hti) as [li Hli].
  destruct (Hpos ti li Hli) as (tli & Hhi & Hci).
  destruct (Hpos e le Hle) as (tle & Hhe' & Hce).
  assert (li ≠ le) as Hlne.
  { intros ->. apply Hne. by eapply (positions_ok_inj h b). }
  assert (well_formed n (record_positions h b ti e) (swap_board b ti e) ti) as Hwf'.
  { rewrite swap_board_comm, record_positions_comm by congruence.
    apply well_formed_swap; [|done|done]. split; [done|done|]. split; eauto. }
  exists (swap_board b ti e). split; [done|]. split; [done|].
  rewrite (attemptMove_accepted (record_positions h b ti e) (swap_board b ti e) n ti e).
  - f_equal.
    + (* the store is as before *)
      unfold record_positions at 1.
      rewrite !lookup_swap_board by done.
      rewrite decide_True by done. rewrite decide_False, decide_True by done.
      rewrite Hli, Hle. unfold record_positions. rewrite Hli, Hle.
      apply list_eq. intros l. rewrite !list_lookup_alter.
      repeat case_decide; subst; try done.
      * rewrite Hhi. simpl. f_equal. rewrite <- Hci. by destruct tli.
      * rewrite Hhe'. simpl. f_equal. rewrite <- Hce. by destruct tle.
    + (* the board is as before *)
      do 3 f_equal. apply list_eq. intros p.
      rewrite lookup_swap_board by (rewrite length_swap_board; done).
      rewrite !lookup_swap_board by done.
      repeat case_decide; subst; done.
  - apply positions_ok_is_board, Hwf'.
  - apply Hwf'.
  - by rewrite length_swap_board.
  - by rewrite isAdjacent_sym.
Qed.

Lemma attemptMove_self_inverse_witness :
  ∃ b', arr (swap_board board9 5 8) = arr b'
        ∧ well_formed 3 (record_positions store9 board9 5 8) b' (Z.to_nat 5)
        ∧ attemptMove (arr (swap_board board9 5 8)) 3 (Z.of_nat 8)
            (record_positions store9 board9 5 8)
          = (store9, Done (Some (arr board9))).
Proof.
  apply (attemptMove_self_inverse store9 board9 3 8 5).
  - lia.
  - exact well_formed_board9.
  - vm_compute. reflexivity.
Defined.

(** C9. The move logic does not check that the target lies inside the
    board.  With the empty cell at [e] in the bottom row, the index
    [e + n] is past the end of the tile sequence, its computed row is [n]
    and its column is that of [e], so the adjacency test passes and the
    swap reads the sequence past its end: that slot is [undefined], the
    empty tile's [currentPos] is overwritten with [e + n], and the second
    position write raises [TypeError].  A click that yields a new board has
    its target inside the board. *)
Theorem attemptMove_target_unchecked
    (h : list Tile) (b : list nat) (n : Z) (e : nat) :
  0 < n → Z.of_nat (length b) = n * n →
  is_board h b → only_empty_at h b e →
  n * (n - 1) ≤ Z.of_nat e →
  let i := Z.of_nat e + n in
  n * n ≤ i
  ∧ row_of n (Z.of_nat e) = n - 1 ∧ row_of n i = n
  ∧ col_of n i = col_of n (Z.of_nat e)
  ∧ isAdjacent n i (Z.of_nat e) = true
  ∧ arr_get (arr b) (Some i) = None
  ∧ (∃ le, b !! e = Some le
           ∧ attemptMove (arr b) n i h = (alter (with_currentPos i) le h, TypeError))
  ∧ (∀ j h1 a1, attemptMove (arr b) n j h = (h1, Done (Some a1)) → 0 ≤ j < n * n).
Proof.
  intros Hn Hlen Hb He Hrow i.
  destruct He as [(te & Hte & Hemp) Huniq].
  pose proof Hte as Hte'. apply tile_at_Some in Hte' as (le & Hle & Hhe).
  assert (e < length b)%nat as Helt by (by eapply lookup_lt_Some).
  destruct (row_col_decompose n Hn (Z.of_nat e)) as [Hd Hc].
  assert (row_of n (Z.of_nat e) = n - 1) as Hre.
  { pose proof (row_bounds n Hn (Z.of_nat e) ltac:(lia)). nia. }
  destruct (row_col_unique n Hn n (col_of n (Z.of_nat e)) i Hc) as [Hri Hci].
  { unfold i. rewrite Hd at 1. rewrite Hre. lia. }
  assert (isAdjacent n i (Z.of_nat e) = true) as Hadj.
  { apply isAdjacent_manhattan; [lia | lia | lia |]. left.
    rewrite Hri, Hre, Hci. split; [lia | done]. }
  assert (arr_get (arr b) (Some i) = None) as Hget.
  { destruct (arr_get (arr b) (Some i)) as [l|] eqn:Hg; [|done].
    apply arr_get_arr_Some in Hg as (p & [= Hp] & Hl).
    apply lookup_lt_Some in Hl. lia. }
  split; [lia|]. split; [done|]. split; [done|]. split; [done|].
  split; [done|]. split; [done|]. split.
  - exists le. split; [done|].
    rewrite (attemptMove_unfold h b n e i Hb); [|split; eauto].
    rewrite Hadj. unfold accepted, swap_and_record, bind.
    change (spread (arr b)) with (arr b). unfold arr_swap.
    assert (Some i ≠ Some (Z.of_nat e)) as Hne by (intros [= ?]; lia).
    rewrite arr_get_set_ne, arr_get_set_eq by done.
    rewrite arr_get_set_eq, Hget, arr_get_arr_lookup, Hle.
    rewrite set_currentPos_Some by eauto. done.
  - intros j h1 a1 Hrun.
    apply (attemptMove_accepted_inv h b n e j h1 a1 Hb) in Hrun
      as (tj & -> & Htj & _); [lia|split; eauto].
Qed.

Lemma attemptMove_target_unchecked_witness :
  let i := Z.of_nat 8 + 3 in
  3 * 3 ≤ i
  ∧ row_of 3 (Z.of_nat 8) = 3 - 1 ∧ row_of 3 i = 3
  ∧ col_of 3 i = col_of 3 (Z.of_nat 8)
  ∧ isAdjacent 3 i (Z.of_nat 8) = true
  ∧ arr_get (arr board9) (Some i) = None
  ∧ (∃ le, board9 !! 8%nat = Some le
           ∧ attemptMove (arr board9) 3 i store9
             = (alter (with_currentPos i) le store9, TypeError))
  ∧ (∀ j h1 a1, attemptMove (arr board9) 3 j store9 = (h1, Done (Some a1)) → 0 ≤ j < 3 * 3).
Proof.
  apply (attemptMove_target_unchecked store9 board9 3 8).
  - lia.
  - reflexivity.
  - exact is_board_board9.
  - exact only_empty_at_board9.
  - vm_compute. discriminate.
Defined.

(** * What an operation leaves untouched *)

Lemma set_currentPos_same_tiles v p (h h' : list Tile) r :
  set_currentPos v p h = (h', r) → same_tiles h h'.
Proof.
  unfold set_currentPos. destruct v as [l|].
  - destruct (h !! l); intros [= <- _]; [apply same_tiles_alter | apply same_tiles_refl].
  - intros [= <- _]. apply same_tiles_refl.
Qed.

Lemma swap_and_record_same_tiles a k1 k2 p1 p2 (h h' : list Tile) r :
  swap_and_record a k1 k2 p1 p2 h = (h', r) → same_tiles h h'.
Proof.
  unfold swap_and_record, bind.
  destruct (set_currentPos _ p1 h) as [h1 [[]|]] eqn:E1.
  - destruct (set_currentPos _ p2 h1) as [h2 [[]|]] eqn:E2; intros [= <- _];
      eapply same_tiles_trans; eauto using set_currentPos_same_tiles.
  - intros [= <- _]. eauto using set_currentPos_same_tiles.
Qed.

Lemma tile_at_same_tiles (h h' : list Tile) (b b' : list nat) p t' :
  same_tiles h h' → b' ≡ₚ b → tile_at h' b' p = Some t' →
  ∃ q t, tile_at h b q = Some t ∧ t' = with_currentPos (currentPos t') t.
Proof.
  intros [Hlen Hsame] Hperm Ht'.
  apply tile_at_Some in Ht' as (l & Hl & Hh').
  assert (l ∈ b) as Hin by (rewrite <- Hperm; by eapply list_elem_of_lookup_2).
  apply list_elem_of_lookup_1 in Hin as [q Hq].
  assert (is_Some (h !! l)) as [t Ht].
  { apply lookup_lt_is_Some. rewrite <- Hlen. by eapply lookup_lt_Some. }
  destruct (Hsame l t Ht) as (t'' & Ht'' & E).
  rewrite Hh' in Ht''. injection Ht'' as <-.
  exists q, t. split; [|done]. apply tile_at_Some. eauto.
Qed.

Lemma empty_is_last_same_tiles n (h h' : list Tile) (b b' : list nat) :
  same_tiles h h' → b' ≡ₚ b → empty_is_last n h b → empty_is_last n h' b'.
Proof.
  intros Hs Hp Hlast p t' Ht' Hemp.
  destruct (tile_at_same_tiles h h' b b' p t' Hs Hp Ht') as (q & t & Ht & E).
  rewrite E in Hemp |- *. simpl in *. by apply (Hlast q t).
Qed.

(** Whatever its outcome, a run of the loop from a well-formed board only
    rewrites [currentPos] fields, and a completed run permutes the board. *)
Lemma shuffle_loop_frame n random :
  0 < n →
  ∀ k i h b (e : nat) prev h' r,
    well_formed n h b e →
    shuffle_loop n random i k
      {| sh_tiles := arr b; emptyIdx := Z.of_nat e; previousIdx := prev |} h = (h', r) →
    same_tiles h h'
    ∧ ∀ s', r = Done s' → ∃ b', sh_tiles s' = arr b' ∧ b' ≡ₚ b.
Proof.
  intros Hn. induction k as [|k IH]; intros i h b e prev h' r Hwf Hrun.
  - simpl in Hrun. injection Hrun as <- <-. split; [apply same_tiles_refl|].
    intros s' [= <-]. by exists b.
  - simpl in Hrun. unfold bind in Hrun.
    destruct (targetIdx_of (random i) (Z.of_nat e) n prev) as [x|] eqn:Hx.
    + destruct (shuffle_body_legal n (random i) h b e prev x Hn Hwf Hx)
        as (t & -> & Hne & Ht & Hnb & Hbody).
      rewrite Hbody in Hrun.
      apply IH in Hrun as [Hs Hd]; [|by apply well_formed_swap].
      split.
      * eapply same_tiles_trans; [apply same_tiles_record_positions | done].
      * intros s' Hr. destruct (Hd s' Hr) as (b' & ? & Hp).
        exists b'. split; [done|]. by rewrite Hp, swap_board_Permutation.
    + rewrite shuffle_body_undefined_target in Hrun by done.
      injection Hrun as <- <-. split; [apply same_tiles_refl | done].
Qed.

(** * Claims about the solved board *)

(** C7. For every list of tile images, generateSolvedState returns one
    tile per image in input order; the tile at index [i] has id, correctPos
    and currentPos equal to [i], the [i]-th image, and is empty exactly when
    [i] is gridSize² − 1.  The objects already in the store are untouched,
    and isSolved of the returned board is true. *)
Theorem generateSolvedState_solved (imagePieces : list string) (n : Z) (h : list Tile) :
  ∃ h' b,
    generateSolvedState imagePieces n h = (h', Done (arr b))
    ∧ length b = length imagePieces
    ∧ (∀ l t, h !! l = Some t → h' !! l = Some t)
    ∧ (∀ (i : nat) url, imagePieces !! i = Some url →
         ∃ t, tile_at h' b i = Some t
              ∧ id t = Z.of_nat i ∧ correctPos t = Z.of_nat i
              ∧ currentPos t = Z.of_nat i ∧ imageUrl t = url
              ∧ (isEmpty t = true ↔ Z.of_nat i = n * n - 1))
    ∧ isSolved (arr b) h' = (h', Done true).
Proof.
  exists (h ++ imap (solved_tile n) imagePieces), (seq (length h) (length imagePieces)).
  split; [apply generateSolvedState_run|].
  split; [apply length_seq|].
  split; [intros l t Ht; by apply lookup_app_l_Some|].
  split.
  - intros i url Hurl. exists (solved_tile n i url).
    rewrite tile_at_solved, Hurl. simpl. repeat split; try done.
    + by intros ?%Z.eqb_eq.
    + by intros ?%Z.eqb_eq.
  - unfold isSolved. f_equal. simpl. apply every_at_correctPos_true.
    intros p l Hl.
    assert (tile_at (h ++ imap (solved_tile n) imagePieces)
                    (seq (length h) (length imagePieces)) p
            = (h ++ imap (solved_tile n) imagePieces) !! l) as Ht
      by (unfold tile_at; by rewrite Hl).
    rewrite tile_at_solved in Ht.
    apply lookup_seq in Hl as [_ Hp].
    destruct (lookup_lt_is_Some_2 imagePieces p Hp) as [url Hurl].
    rewrite Hurl in Ht. simpl in Ht. eauto.
Qed.

(** * Claims about the shuffle *)



(** * Invariants of produced boards *)

Lemma produced_invariant n h a :
  0 < n → produced n h a →
  ∃ b e, a = arr b ∧ well_formed n h b e ∧ empty_is_last n h b.
Proof.
  intros Hn Hprod.
  induction Hprod as [h imgs h' a Hlen Hgen
                     | random h a k h' a' _ IH Hrun
                     | h a i h' a' _ IH Hrun].
  - rewrite generateSolvedState_run in Hgen. injection Hgen as <- <-.
    eexists _, _. split; [done|]. split; [by apply well_formed_solved|].
    intros p t. rewrite tile_at_solved.
    destruct (imgs !! p) as [url|]; [|done]. simpl.
    intros [= <-]. simpl. intros ?%Z.eqb_eq. done.
  - destruct IH as (b & e & -> & Hwf & Hlast).
    pose proof (positions_ok_is_board h b (wf_positions _ _ _ _ Hwf)) as Hb.
    rewrite (shuffleTiles_unfold random h b n e _ Hb (wf_empty _ _ _ _ Hwf)) in Hrun.
    unfold bind in Hrun.
    destruct (shuffle_loop _ _ _ _ _ h) as [h1 [s1|]] eqn:Hloop; [|done].
    injection Hrun as <- <-.
    destruct (shuffle_loop_Done n random Hn _ 0 h b e (-1) h1 s1 Hwf Hloop)
      as (b' & e' & Hs & _ & Hwf' & _).
    destruct (shuffle_loop_frame n random Hn _ 0 h b e (-1) h1 _ Hwf Hloop)
      as [Hsame Hperm].
    destruct (Hperm s1 eq_refl) as (b'' & Hs' & Hp).
    rewrite Hs in Hs'. injection Hs' as Hinj.
    apply (inj (fmap Some)) in Hinj. subst b''.
    exists b', e'. split; [done|]. split; [done|].
    by apply (empty_is_last_same_tiles n h h1 b b').
  - destruct IH as (b & e & -> & Hwf & Hlast).
    pose proof (positions_ok_is_board h b (wf_positions _ _ _ _ Hwf)) as Hb.
    destruct (attemptMove_accepted_inv h b n e i h' a' Hb (wf_empty _ _ _ _ Hwf) Hrun)
      as (ti & Hi & Hti & Hne & Hadj & Ha' & Hh').
    subst i a' h'.
    exists (swap_board b ti e), ti. split; [done|].
    assert (b !! ti ≠ b !! e) as Hdiff.
    { destruct (lookup_lt_is_Some_2 b ti Hti) as [li Hli]. rewrite Hli.
      intros Heq. apply Hne. symmetry in Heq.
      by eapply (positions_ok_inj h b), Heq; [apply Hwf|]. }
    split.
    + rewrite swap_board_comm, record_positions_comm by done.
      by apply well_formed_swap.
    + eapply empty_is_last_same_tiles; [| |done].
      * apply same_tiles_record_positions.
      * apply swap_board_Permutation.
Qed.

Lemma produced_board9 : produced 3 store9 (arr board9).
Proof. by apply (produced_solved 3 [] images9). Qed.

Lemma is_board_tiles (h : list Tile) (b : list nat) :
  is_board h b → ∃ ts, (λ l, h !! l) <$> b = Some <$> ts.
Proof.
  induction b as [|l b IH]; intros Hb; [by exists []|].
  destruct IH as [ts Hts].
  { intros p l' Hl'. by apply (Hb (S p)). }
  destruct (Hb 0%nat l eq_refl) as [t Ht].
  exists (t :: ts). rewrite !fmap_cons. by rewrite Ht, Hts.
Qed.

(** C3. On every board that a sequence of generateSolvedState,
    shuffleTiles and accepted moves produces, the tile at index [p] has
    [currentPos = p]; the [currentPos] values, read in sequence order, are
    0, 1, …, n² − 1. *)
Theorem produced_currentPos_is_index (n : Z) (h : list Tile) (a : jsarray) :
  0 < n → produced n h a →
  ∃ ts : list Tile,
    view h a = Some <$> ts
    ∧ Z.of_nat (length ts) = n * n
    ∧ (∀ p t, ts !! p = Some t → currentPos t = Z.of_nat p)
    ∧ currentPos <$> ts = seqZ 0 (n * n).
Proof.
  intros Hn Hprod.
  destruct (produced_invariant n h a Hn Hprod) as (b & e & -> & [Hlen Hpos _] & _).
  destruct (is_board_tiles h b (positions_ok_is_board h b Hpos)) as [ts Hts].
  assert (length ts = length b) as Hlts.
  { apply (f_equal length) in Hts. by rewrite !length_fmap in Hts. }
  assert (∀ p t, ts !! p = Some t → currentPos t = Z.of_nat p) as Hcp.
  { intros p t Ht.
    assert (((λ l, h !! l) <$> b) !! p = Some (Some t)) as Hl
      by (rewrite Hts, list_lookup_fmap, Ht; done).
    rewrite list_lookup_fmap in Hl.
    destruct (b !! p) as [l|] eqn:Hbp; [|done]. simpl in Hl.
    destruct (Hpos p l Hbp) as (t' & Ht' & Hc). congruence. }
  exists ts. split.
  - unfold view, arr. simpl. rewrite <- Hts, <- list_fmap_compose. done.
  - split; [lia|]. split; [done|].
    apply list_eq. intros p. rewrite list_lookup_fmap.
    destruct (ts !! p) as [t|] eqn:Ht; simpl.
    + rewrite (Hcp p t Ht). symmetry. apply lookup_seqZ.
      apply lookup_lt_Some in Ht. lia.
    + symmetry. apply lookup_seqZ_ge. apply lookup_ge_None in Ht. lia.
Qed.

Lemma produced_currentPos_is_index_witness :
  ∃ ts : list Tile,
    view store9 (arr board9) = Some <$> ts
    ∧ Z.of_nat (length ts) = 3 * 3
    ∧ (∀ p t, ts !! p = Some t → currentPos t = Z.of_nat p)
    ∧ currentPos <$> ts = seqZ 0 (3 * 3).
Proof.
  apply (produced_currentPos_is_index 3 store9 (arr board9)).
  - lia.
  - exact produced_board9.
Defined.

(** C4. On every produced board exactly one position holds an empty tile,
    and that tile is the one made for the last cell (id and correctPos
    n² − 1).  shuffleTiles and the move logic, whatever their outcome,
    rewrite nothing but [currentPos] fields, so no [isEmpty] flag changes;
    a board they return holds the same tile objects as the one they were
    given, and an ignored click leaves the store as it was. *)
Theorem single_empty_tile_preserved (n : Z) (h : list Tile) (a : jsarray) :
  0 < n → produced n h a →
  (∃ b e t, a = arr b ∧ only_empty_at h b e ∧ tile_at h b e = Some t
            ∧ isEmpty t = true ∧ id t = n * n - 1 ∧ correctPos t = n * n - 1)
  ∧ (∀ random k h' r,
       shuffleTiles random a n k h = (h', r) →
       same_tiles h h' ∧ ∀ a', r = Done a' → elems a' ≡ₚ elems a)
  ∧ (∀ i h' r,
       attemptMove a n i h = (h', r) →
       same_tiles h h'
       ∧ (∀ a', r = Done (Some a') → elems a' ≡ₚ elems a)
       ∧ (r = Done None → h' = h)).
Proof.
  intros Hn Hprod.
  destruct (produced_invariant n h a Hn Hprod) as (b & e & -> & Hwf & Hlast).
  pose proof (positions_ok_is_board h b (wf_positions _ _ _ _ Hwf)) as Hb.
  pose proof (wf_empty _ _ _ _ Hwf) as Hemp.
  split; [|split].
  - destruct Hemp as [(t & Ht & Het) Huniq].
    destruct (Hlast e t Ht Het) as [Hid Hcp].
    exists b, e, t. repeat split; try done. by exists t.
  - intros random k h' r Hrun.
    rewrite (shuffleTiles_unfold random h b n e _ Hb Hemp) in Hrun.
    unfold bind in Hrun.
    destruct (shuffle_loop _ _ _ _ _ h) as [h1 r1] eqn:Hloop.
    destruct (shuffle_loop_frame n random Hn _ 0 h b e (-1) h1 r1 Hwf Hloop)
      as [Hsame Hperm].
    destruct r1 as [s1|]; injection Hrun as <- <-; (split; [done|]); [|done].
    intros a' [= <-]. destruct (Hperm s1 eq_refl) as (b' & -> & Hp).
    simpl. by rewrite Hp.
  - intros i h' r Hrun.
    rewrite (attemptMove_unfold h b n e i Hb Hemp) in Hrun.
    destruct (isAdjacent n i (Z.of_nat e)).
    + unfold accepted in Hrun.
      destruct (swap_and_record _ _ _ _ _ h) as [h1 r1] eqn:Hsw.
      simpl in Hrun. injection Hrun as <- <-.
      split; [by eapply swap_and_record_same_tiles|].
      split; [|by destruct r1].
      intros a' Ha'. destruct r1 as [a1|]; [|done]. injection Ha' as <-.
      apply swap_and_record_Done in Hsw
        as (ti & e' & li & le & _ & _ & Hi & Hle & _ & _ & -> & _).
      simpl. apply fmap_Permutation. by apply Permutation_insert_swap.
    + injection Hrun as <- <-. split; [apply same_tiles_refl|]. done.
Qed.

Lemma single_empty_tile_preserved_witness :
  ∃ b e t, arr board9 = arr b ∧ only_empty_at store9 b e ∧ tile_at store9 b e = Some t
           ∧ isEmpty t = true ∧ id t = 3 * 3 - 1 ∧ correctPos t = 3 * 3 - 1.
Proof.
  apply (single_empty_tile_preserved 3 store9 (arr board9)).
  - lia.
  - exact produced_board9.
Defined.

(** * The iterations of the shuffle *)

(** The variables of the loop when iteration [j] begins. *)
Lemma shuffle_loop_prefix n random (h : list Tile) (b : list nat) (e j : nat) :
  2 ≤ n → well_formed n h b e → double_source random →
  ∃ hj bj (ej : nat) pj,
    shuffle_loop n random 0 j
      {| sh_tiles := arr b; emptyIdx := Z.of_nat e; previousIdx := -1 |} h
    = (hj, Done {| sh_tiles := arr bj; emptyIdx := Z.of_nat ej; previousIdx := pj |})
    ∧ well_formed n hj bj ej
    ∧ (j = 0%nat → pj = -1).
Proof.
  intros Hn Hwf Hrand.
  destruct (shuffle_loop_total n random Hn Hrand j 0 h b e (-1) Hwf) as (hj & sj & Hrun).
  destruct (shuffle_loop_Done n random ltac:(lia) j 0 h b e (-1) hj sj Hwf Hrun)
    as (bj & ej & Hs & He & Hwfj & _).
  exists hj, bj, ej, (previousIdx sj).
  split; [|split; [done|]].
  - rewrite Hrun. destruct sj. simpl in *. by subst.
  - intros ->. simpl in Hrun. by injection Hrun as _ <-.
Qed.

Lemma shuffle_loop_succ n random j s (h : list Tile) :
  shuffle_loop n random 0 (S j) s h =
  (let* sj := shuffle_loop n random 0 j s in shuffle_body n (random j) sj) h.
Proof.
  rewrite <- Nat.add_1_r, shuffle_loop_split. unfold bind. simpl.
  destruct (shuffle_loop n random 0 j s h) as [hj [sj|]]; [|done].
  unfold bind. by destruct (shuffle_body n (random j) sj hj) as [? [?|]].
Qed.

(** C6. When iteration [j] of the shuffle begins, with the empty cell at
    [ej] and [previousIdx = pj], the list the target is drawn from holds
    exactly the neighbours of [ej] inside the grid other than [pj], or all
    of them when there is no other; whatever double in [[0, 1)]
    [Math.random()] returns, the floor of the rounded product is an index
    of that list and the target is in it.  In the first iteration [pj] is -1 and nothing
    is excluded; the iteration leaves the empty cell at the target and
    [previousIdx] at [ej], the position of the empty cell before its
    swap. *)
Theorem shuffle_step_candidates
    (random : nat → Q) (h : list Tile) (b : list nat) (n : Z) (e k j : nat) :
  2 ≤ n → well_formed n h b e → double_source random → (j < k)%nat →
  ∃ hj bj (ej : nat) pj (t : nat) hj' bj',
    shuffle_loop n random 0 j
      {| sh_tiles := arr b; emptyIdx := Z.of_nat e; previousIdx := -1 |} h
    = (hj, Done {| sh_tiles := arr bj; emptyIdx := Z.of_nat ej; previousIdx := pj |})
    ∧ only_empty_at hj bj ej
    ∧ (∀ x, x ∈ candidates (Z.of_nat ej) n pj ↔
            neighbour n (Z.of_nat ej) x
            ∧ (x ≠ pj ∨ ∀ y, neighbour n (Z.of_nat ej) y → y = pj))
    ∧ (j = 0%nat →
       pj = -1 ∧ ∀ x, x ∈ candidates (Z.of_nat ej) n pj ↔ neighbour n (Z.of_nat ej) x)
    ∧ targetIdx_of (random j) (Z.of_nat ej) n pj = Some (Z.of_nat t)
    ∧ Z.of_nat t ∈ candidates (Z.of_nat ej) n pj
    ∧ shuffle_loop n random 0 (S j)
        {| sh_tiles := arr b; emptyIdx := Z.of_nat e; previousIdx := -1 |} h
      = (hj', Done {| sh_tiles := arr bj'; emptyIdx := Z.of_nat t;
                      previousIdx := Z.of_nat ej |})
    ∧ shuffleTiles random (arr b) n (Z.of_nat k) h
      = (let* s := shuffle_loop n random (S j) (k - S j)
                     {| sh_tiles := arr bj'; emptyIdx := Z.of_nat t;
                        previousIdx := Z.of_nat ej |} in
         ret (sh_tiles s)) hj'.
Proof.
  intros Hn Hwf Hrand Hjk.
  destruct (shuffle_loop_prefix n random h b e j Hn Hwf Hrand)
    as (hj & bj & ej & pj & Hrun & Hwfj & Hp0).
  pose proof (well_formed_empty_range n hj bj ej Hwfj) as Hej.
  destruct (random_element_is_Some (random j) (candidates (Z.of_nat ej) n pj))
    as [x Hx]; try apply Hrand.
  { rewrite candidates_filtered by done. by apply filteredMoves_nonempty. }
  destruct (shuffle_body_legal n (random j) hj bj ej pj x ltac:(lia) Hwfj Hx)
    as (t & -> & Hne & Ht & Hnb & Hbody).
  assert (shuffle_loop n random 0 (S j)
            {| sh_tiles := arr b; emptyIdx := Z.of_nat e; previousIdx := -1 |} h
          = (record_positions hj bj ej t,
             Done {| sh_tiles := arr (swap_board bj ej t); emptyIdx := Z.of_nat t;
                     previousIdx := Z.of_nat ej |})) as Hnext.
  { rewrite shuffle_loop_succ. unfold bind. by rewrite Hrun. }
  exists hj, bj, ej, pj, t, (record_positions hj bj ej t), (swap_board bj ej t).
  split; [done|]. split; [apply Hwfj|].
  split; [intros x; apply elem_of_candidates; lia|].
  split.
  { intros Hj0. specialize (Hp0 Hj0). subst pj. split; [done|]. intros x.
    rewrite candidates_first_step by lia. apply elem_of_validMoves; lia. }
  split; [done|]. split; [by eapply random_element_elem|]. split; [done|].
  pose proof (positions_ok_is_board h b (wf_positions _ _ _ _ Hwf)) as Hb.
  rewrite (shuffleTiles_unfold random h b n e _ Hb (wf_empty _ _ _ _ Hwf)).
  rewrite Nat2Z.id.
  replace k with (S j + (k - S j))%nat at 1 by lia.
  unfold bind at 1. rewrite shuffle_loop_split. unfold bind at 1.
  rewrite Hnext. done.
Qed.

Lemma shuffle_step_candidates_witness :
  ∃ hj bj (ej : nat) pj (t : nat) hj' bj',
    shuffle_loop 3 two_thirds 0 1
      {| sh_tiles := arr board9; emptyIdx := Z.of_nat 8; previousIdx := -1 |} store9
    = (hj, Done {| sh_tiles := arr bj; emptyIdx := Z.of_nat ej; previousIdx := pj |})
    ∧ only_empty_at hj bj ej
    ∧ (∀ x, x ∈ candidates (Z.of_nat ej) 3 pj ↔
            neighbour 3 (Z.of_nat ej) x
            ∧ (x ≠ pj ∨ ∀ y, neighbour 3 (Z.of_nat ej) y → y = pj))
    ∧ (1%nat = 0%nat →
       pj = -1 ∧ ∀ x, x ∈ candidates (Z.of_nat ej) 3 pj ↔ neighbour 3 (Z.of_nat ej) x)
    ∧ targetIdx_of (two_thirds 1%nat) (Z.of_nat ej) 3 pj = Some (Z.of_nat t)
    ∧ Z.of_nat t ∈ candidates (Z.of_nat ej) 3 pj
    ∧ shuffle_loop 3 two_thirds 0 2
        {| sh_tiles := arr board9; emptyIdx := Z.of_nat 8; previousIdx := -1 |} store9
      = (hj', Done {| sh_tiles := arr bj'; emptyIdx := Z.of_nat t;
                      previousIdx := Z.of_nat ej |})
    ∧ shuffleTiles two_thirds (arr board9) 3 (Z.of_nat 4) store9
      = (let* s := shuffle_loop 3 two_thirds 2 (4 - 2)
                     {| sh_tiles := arr bj'; emptyIdx := Z.of_nat t;
                        previousIdx := Z.of_nat ej |} in
         ret (sh_tiles s)) hj'.
Proof.
  apply (shuffle_step_candidates two_thirds store9 board9 3 8 4 1).
  - lia.
  - exact well_formed_board9.
  - exact double_source_two_thirds.
  - lia.
Defined.

(** C10. On a grid of side at least 2 every cell has at least two
    neighbours inside the grid, so the filtered list is never empty
    whatever [previousIdx] is, and the list the target is drawn from is the
    filtered one: the fallback to the unfiltered list is not taken.  In
    particular, in every iteration of the shuffle on a well-formed board,
    with [Math.random()] returning doubles in [[0, 1)], the random
    selection indexes a non-empty list and yields a target. *)
Theorem shuffle_fallback_unreachable
    (random : nat → Q) (h : list Tile) (b : list nat) (n : Z) (e j : nat) (e0 p : Z) :
  2 ≤ n → 0 ≤ e0 < n * n → well_formed n h b e → double_source random →
  (∃ x y, x ≠ y ∧ neighbour n e0 x ∧ neighbour n e0 y)
  ∧ (2 ≤ length (validMoves e0 n))%nat
  ∧ (0 < length (filteredMoves e0 n p))%nat
  ∧ candidates e0 n p = filteredMoves e0 n p
  ∧ ∃ hj bj (ej : nat) pj,
      shuffle_loop n random 0 j
        {| sh_tiles := arr b; emptyIdx := Z.of_nat e; previousIdx := -1 |} h
      = (hj, Done {| sh_tiles := arr bj; emptyIdx := Z.of_nat ej; previousIdx := pj |})
      ∧ (0 < length (filteredMoves (Z.of_nat ej) n pj))%nat
      ∧ candidates (Z.of_nat ej) n pj = filteredMoves (Z.of_nat ej) n pj
      ∧ is_Some (targetIdx_of (random j) (Z.of_nat ej) n pj).
Proof.
  intros Hn He0 Hwf Hrand.
  pose proof (validMoves_at_least_two n e0 Hn He0) as Hlen.
  split.
  { pose proof (NoDup_validMoves n ltac:(lia) e0) as Hnd.
    pose proof (elem_of_validMoves n ltac:(lia) e0) as Hel.
    destruct (validMoves e0 n) as [|x [|y l]]; simpl in Hlen; try lia.
    exists x, y. split.
    - apply NoDup_cons in Hnd as [Hx _]. intros ->. apply Hx. left.
    - split; apply Hel; try done; [left | right; left]. }
  split; [done|].
  split; [by apply filteredMoves_nonempty|].
  split; [by apply candidates_filtered|].
  destruct (shuffle_loop_prefix n random h b e j Hn Hwf Hrand)
    as (hj & bj & ej & pj & Hrun & Hwfj & _).
  pose proof (well_formed_empty_range n hj bj ej Hwfj) as Hej.
  exists hj, bj, ej, pj. split; [done|].
  split; [by apply filteredMoves_nonempty|].
  split; [by apply candidates_filtered|].
  apply random_element_is_Some; try apply Hrand.
  rewrite candidates_filtered by done. by apply filteredMoves_nonempty.
Qed.

Lemma shuffle_fallback_unreachable_witness :
  (∃ x y, x ≠ y ∧ neighbour 3 8 x ∧ neighbour 3 8 y)
  ∧ (2 ≤ length (validMoves 8 3))%nat
  ∧ (0 < length (filteredMoves 8 3 5))%nat
  ∧ candidates 8 3 5 = filteredMoves 8 3 5
  ∧ ∃ hj bj (ej : nat) pj,
      shuffle_loop 3 two_thirds 0 2
        {| sh_tiles := arr board9; emptyIdx := Z.of_nat 8; previousIdx := -1 |} store9
      = (hj, Done {| sh_tiles := arr bj; emptyIdx := Z.of_nat ej; previousIdx := pj |})
      ∧ (0 < length (filteredMoves (Z.of_nat ej) 3 pj))%nat
      ∧ candidates (Z.of_nat ej) 3 pj = filteredMoves (Z.of_nat ej) 3 pj
      ∧ is_Some (targetIdx_of (two_thirds 2%nat) (Z.of_nat ej) 3 pj).
Proof.
  apply (shuffle_fallback_unreachable two_thirds store9 board9 3 8 2 8 5).
  - lia.
  - lia.
  - exact well_formed_board9.
  - exact double_source_two_thirds.
Defined.

(** * Slicing *)

Lemma list_bind_singleton {A B} (f : A → B) (l : list A) :
  l ≫= (λ x, [f x]) = f <$> l.
Proof. induction l as [|x l IH]; [done|]. by rewrite bind_cons, fmap_cons, IH. Qed.

Lemma length_bind_uniform {A B} (f : A → list B) (l : list A) (m : nat) :
  (∀ x, length (f x) = m) → length (l ≫= f) = (length l * m)%nat.
Proof.
  intros Hm. induction l as [|x l IH]; [done|].
  rewrite bind_cons, length_app, Hm, IH. done.
Qed.

Lemma lookup_bind_uniform {A B} (f : A → list B) (l : list A) (m i j : nat) :
  (∀ x, length (f x) = m) → (j < m)%nat →
  (l ≫= f) !! (i * m + j)%nat = l !! i ≫= λ x, f x !! j.
Proof.
  intros Hm Hj. revert i. induction l as [|x l IH]; intros i; [done|].
  rewrite bind_cons. destruct i as [|i].
  - simpl. apply lookup_app_l. by rewrite Hm.
  - rewrite lookup_app_r by (rewrite Hm; lia).
    rewrite Hm. replace (S i * m + j - m)%nat with (i * m + j)%nat by lia.
    apply IH.
Qed.

(** C8. When the image loads and a drawing context is obtained, sliceImage
    returns gridSize² pieces in row-major order: the piece at index
    row·gridSize + col is drawn from the square cell of side
    tileSize = floor(size / gridSize) whose corner is at
    ((width − size)/2 + col·tileSize, (height − size)/2 + row·tileSize),
    with size = min(width, height), onto a canvas of side
    min(512, tileSize).  A 900 × 600 image with gridSize 3 gives 9 pieces
    of 200 × 200 cut from the 600 × 600 square that starts at x = 150,
    y = 0. *)
Theorem sliceImage_geometry (img : Image) (gridSize row col : Z) :
  0 < gridSize → 0 ≤ row < gridSize → 0 ≤ col < gridSize →
  let size := Z.min (width img) (height img) in
  let tileSize := size / gridSize in
  let targetTileSize := Z.min 512 tileSize in
  (∃ pieces,
     sliceImage (Some img) true gridSize = Pieces pieces
     ∧ Z.of_nat (length pieces) = gridSize * gridSize
     ∧ pieces !! Z.to_nat (row * gridSize + col)
       = Some {| canvas_width := targetTileSize;
                 canvas_height := targetTileSize;
                 drawn := {| sx := (inject_Z (width img - size) / 2
                                    + inject_Z (col * tileSize))%Q;
                             sy := (inject_Z (height img - size) / 2
                                    + inject_Z (row * tileSize))%Q;
                             sWidth := tileSize; sHeight := tileSize;
                             dx := 0; dy := 0;
                             dWidth := targetTileSize;
                             dHeight := targetTileSize |} |})
  ∧ (∃ pieces,
       sliceImage (Some {| width := 900; height := 600 |}) true 3 = Pieces pieces
       ∧ length pieces = 9%nat
       ∧ Forall2 (λ p corner,
                    (sx (drawn p) == inject_Z corner.1)%Q
                    ∧ (sy (drawn p) == inject_Z corner.2)%Q
                    ∧ sWidth (drawn p) = 200 ∧ sHeight (drawn p) = 200
                    ∧ dWidth (drawn p) = 200 ∧ dHeight (drawn p) = 200
                    ∧ canvas_width p = 200 ∧ canvas_height p = 200)
                 pieces
                 [(150, 0); (350, 0); (550, 0);
                  (150, 200); (350, 200); (550, 200);
                  (150, 400); (350, 400); (550, 400)]).
Proof.
  intros Hg Hrow Hcol size tileSize targetTileSize. split.
  - eexists. split; [reflexivity|].
    set (piece := λ r c : Z,
           {| canvas_width := targetTileSize; canvas_height := targetTileSize;
              drawn := {| sx := (inject_Z (width img - size) / 2 + inject_Z (c * tileSize))%Q;
                          sy := (inject_Z (height img - size) / 2 + inject_Z (r * tileSize))%Q;
                          sWidth := tileSize; sHeight := tileSize; dx := 0; dy := 0;
                          dWidth := targetTileSize; dHeight := targetTileSize |} |}).
    change (Z.of_nat (length (seqZ 0 gridSize ≫= λ r, seqZ 0 gridSize ≫= λ c, [piece r c]))
            = gridSize * gridSize
            ∧ (seqZ 0 gridSize ≫= λ r, seqZ 0 gridSize ≫= λ c, [piece r c])
                !! Z.to_nat (row * gridSize + col) = Some (piece row col)).
    assert (∀ r, length (seqZ 0 gridSize ≫= λ c, [piece r c]) = Z.to_nat gridSize) as Hm.
    { intros r. by rewrite list_bind_singleton, length_fmap, length_seqZ. }
    split.
    + rewrite (length_bind_uniform _ _ _ Hm), length_seqZ. nia.
    + replace (Z.to_nat (row * gridSize + col))
        with (Z.to_nat row * Z.to_nat gridSize + Z.to_nat col)%nat by nia.
      rewrite (lookup_bind_uniform _ _ _ _ _ Hm) by lia.
      rewrite lookup_seqZ_lt by lia. simpl.
      rewrite list_bind_singleton, list_lookup_fmap, lookup_seqZ_lt by lia.
      simpl. by rewrite !Z2Nat.id by lia.
  - eexists. split; [reflexivity|]. split; [reflexivity|].
    repeat constructor.
Qed.

Lemma sliceImage_geometry_witness :
  let size := Z.min 900 600 in
  let tileSize := size / 3 in
  let targetTileSize := Z.min 512 tileSize in
  ∃ pieces,
    sliceImage (Some {| width := 900; height := 600 |}) true 3 = Pieces pieces
    ∧ Z.of_nat (length pieces) = 3 * 3
    ∧ pieces !! Z.to_nat (1 * 3 + 2)
      = Some {| canvas_width := targetTileSize;
                canvas_height := targetTileSize;
                drawn := {| sx := (inject_Z (900 - size) / 2 + inject_Z (2 * tileSize))%Q;
                            sy := (inject_Z (600 - size) / 2 + inject_Z (1 * tileSize))%Q;
                            sWidth := tileSize; sHeight := tileSize;
                            dx := 0; dy := 0;
                            dWidth := targetTileSize;
                            dHeight := targetTileSize |} |}.
Proof.
  apply (sliceImage_geometry {| width := 900; height := 600 |} 3 1 2); lia.
Defined.

(** The position writes go to the tile objects themselves, which the input
    array shares with the returned one: after one iteration the array that
    was passed in no longer has [currentPos] equal to the index. *)
Remark shuffleTiles_writes_input_tiles :
  ∃ h' a',
    shuffleTiles half (arr board9) 3 1 store9 = (h', Done a')
    ∧ positions_ok store9 board9
    ∧ ¬ positions_ok h' board9.
Proof.
  eexists _, _. split; [vm_compute; reflexivity|].
  split; [apply well_formed_board9|].
  intros Hpos. destruct (Hpos 8%nat 8%nat eq_refl) as (t & Ht & Hc).
  vm_compute in Ht. injection Ht as <-. discriminate Hc.
Qed.

(** * Further properties *)

(** * Solved detection *)

Lemma every_at_correctPos_iff (h : list Tile) (b : list nat) :
  is_board h b →
  ∃ solved, every_at_correctPos h (Some <$> b) = Done solved
            ∧ (solved = true ↔
               ∀ p t, tile_at h b p = Some t → currentPos t = correctPos t).
Proof.
  induction b as [|l b IH]; intros Hb.
  - exists true. split; [done|]. split; [|done]. intros _ p t Ht. by destruct p.
  - destruct (Hb 0%nat l eq_refl) as [t0 Ht0].
    destruct IH as (s & Hs & Hiff).
    { intros p l' Hl'. by apply (Hb (S p)). }
    rewrite fmap_cons. cbn [every_at_correctPos deref]. rewrite Ht0.
    destruct (currentPos t0 =? correctPos t0) eqn:E.
    + exists s. split; [done|]. rewrite Hiff. apply Z.eqb_eq in E. split.
      * intros Hall [|p] t Ht.
        -- unfold tile_at in Ht. simpl in Ht. congruence.
        -- by apply (Hall p).
      * intros Hall p t Ht. by apply (Hall (S p)).
    + exists false. split; [done|]. split; [done|]. intros Hall.
      apply Z.eqb_neq in E. exfalso. apply E. apply (Hall 0%nat).
      unfold tile_at. simpl. done.
Qed.

Lemma arr_inj (b b' : list nat) : arr b = arr b' → b = b'.
Proof.
  intros H. apply (f_equal elems) in H. simpl in H. by apply (inj (fmap Some)) in H.
Qed.

(** A property of tiles that does not depend on [currentPos] and holds of
    the tiles generateSolvedState makes holds of every tile of a produced
    board. *)
Lemma produced_tiles (n : Z) (P : Tile → Prop) :
  0 < n →
  (∀ c t, P t → P (with_currentPos c t)) →
  (∀ i url, P (solved_tile n i url)) →
  ∀ h a, produced n h a →
  ∃ b, a = arr b ∧ ∀ p t, tile_at h b p = Some t → P t.
Proof.
  intros Hn Hcp Hbase h a Hprod.
  induction Hprod as [h imgs h' a Hlen Hgen
                     | random h a k h' a' Hprev IH Hrun
                     | h a i h' a' Hprev IH Hrun].
  - rewrite generateSolvedState_run in Hgen. injection Hgen as <- <-.
    eexists. split; [done|]. intros p t. rewrite tile_at_solved.
    destruct (imgs !! p); [|done]. intros [= <-]. apply Hbase.
  - destruct (produced_invariant n h a Hn Hprev) as (b & e & -> & Hwf & _).
    destruct IH as (b0 & Hb0 & HP). apply arr_inj in Hb0. subst b0.
    pose proof (positions_ok_is_board h b (wf_positions _ _ _ _ Hwf)) as Hb.
    rewrite (shuffleTiles_unfold random h b n e _ Hb (wf_empty _ _ _ _ Hwf)) in Hrun.
    unfold bind in Hrun.
    destruct (shuffle_loop _ _ _ _ _ h) as [h1 [s1|]] eqn:Hloop; [|done].
    injection Hrun as <- <-.
    destruct (shuffle_loop_frame n random Hn _ 0 h b e (-1) h1 _ Hwf Hloop)
      as [Hsame Hperm].
    destruct (Hperm s1 eq_refl) as (b' & -> & Hp).
    exists b'. split; [done|]. intros p t' Ht'.
    destruct (tile_at_same_tiles h h1 b b' p t' Hsame Hp Ht') as (q & t & Ht & ->).
    apply Hcp. by apply (HP q).
  - destruct (produced_invariant n h a Hn Hprev) as (b & e & -> & Hwf & _).
    destruct IH as (b0 & Hb0 & HP). apply arr_inj in Hb0. subst b0.
    pose proof (positions_ok_is_board h b (wf_positions _ _ _ _ Hwf)) as Hb.
    destruct (attemptMove_accepted_inv h b n e i h' a' Hb (wf_empty _ _ _ _ Hwf) Hrun)
      as (ti & Hi & Hti & Hne & Hadj & Ha' & Hh').
    subst i a' h'.
    exists (swap_board b ti e). split; [done|]. intros p t' Ht'.
    destruct (tile_at_same_tiles h _ b _ p t' (same_tiles_record_positions h b ti e)
                (swap_board_Permutation b ti e) Ht') as (q & t & Ht & ->).
    apply Hcp. by apply (HP q).
Qed.


Lemma board_tiles (h : list Tile) (b : list nat) :
  is_board h b →
  ∃ ts, view h (arr b) = Some <$> ts
        ∧ ∀ p t, ts !! p = Some t ↔ tile_at h b p = Some t.
Proof.
  intros Hb. destruct (is_board_tiles h b Hb) as [ts Hts].
  exists ts. split.
  - unfold view, arr. simpl. by rewrite <- Hts, <- list_fmap_compose.
  - intros p t.
    assert (((λ l, h !! l) <$> b) !! p = (Some <$> ts) !! p) as Hp by (by rewrite Hts).
    rewrite !list_lookup_fmap in Hp. unfold tile_at.
    destruct (b !! p) as [l|], (ts !! p) as [t'|]; simpl in *; try done;
      split; congruence.
Qed.

Lemma well_formed_move n (h : list Tile) (b : list nat) (e ti : nat) :
  well_formed n h b e → (ti < length b)%nat → ti ≠ e →
  well_formed n (record_positions h b ti e) (swap_board b ti e) ti.
Proof.
  intros Hwf Hti Hne.
  assert (b !! ti ≠ b !! e) as Hdiff.
  { destruct (lookup_lt_is_Some_2 b ti Hti) as [li Hli]. rewrite Hli.
    intros Heq. apply Hne. symmetry in Heq.
    by eapply (positions_ok_inj h b), Heq; [apply Hwf|]. }
  rewrite swap_board_comm, record_positions_comm by done.
  by apply well_formed_swap.
Qed.


(** X1. On a produced board isSolved returns without writing to the store,
    and its answer is true exactly when the tiles are in the order in which
    they were generated (the tile at index [p] has id [p]). *)
Theorem isSolved_iff_generation_order (n : Z) (h : list Tile) (a : jsarray) :
  0 < n → produced n h a →
  ∃ (ts : list Tile) (solved : bool),
    view h a = Some <$> ts
    ∧ isSolved a h = (h, Done solved)
    ∧ (solved = true ↔ id <$> ts = seqZ 0 (n * n)).
Proof.
  intros Hn Hprod.
  destruct (produced_tiles n (λ t, correctPos t = id t) Hn
              ltac:(by intros c []) ltac:(done) h a Hprod) as (b & -> & Hid).
  destruct (produced_invariant n h (arr b) Hn Hprod) as (b0 & e & Hb0 & Hwf & _).
  apply arr_inj in Hb0. subst b0.
  pose proof (positions_ok_is_board h b (wf_positions _ _ _ _ Hwf)) as Hb.
  destruct (board_tiles h b Hb) as (ts & Hview & Hts).
  assert (∀ p t, ts !! p = Some t → currentPos t = Z.of_nat p) as Hcp.
  { intros p t Ht. apply Hts, tile_at_Some in Ht as (l & Hl & Hh).
    destruct (wf_positions _ _ _ _ Hwf p l Hl) as (t' & Ht' & Hc). congruence. }
  assert (Z.of_nat (length ts) = n * n) as Hlen.
  { apply (f_equal length) in Hview. unfold view in Hview. simpl in Hview.
    rewrite !length_fmap in Hview. rewrite <- Hview. apply Hwf. }
  destruct (every_at_correctPos_iff h b Hb) as (solved & Hs & Hiff).
  exists ts, solved. split; [done|]. split; [unfold isSolved; simpl; by rewrite Hs|].
  rewrite Hiff. split.
  - intros Hall. apply list_eq. intros p. rewrite list_lookup_fmap.
    destruct (ts !! p) as [t|] eqn:Ht; simpl.
    + pose proof (proj1 (Hts p t) Ht) as Ht'.
      rewrite <- (Hid p t Ht'), <- (Hall p t Ht'), (Hcp p t Ht).
      symmetry. apply lookup_seqZ. apply lookup_lt_Some in Ht. lia.
    + symmetry. apply lookup_seqZ_ge. apply lookup_ge_None in Ht. lia.
  - intros Hids p t Ht. apply Hts in Ht as Ht'.
    assert ((id <$> ts) !! p = Some (id t)) as Hp by (by rewrite list_lookup_fmap, Ht').
    rewrite Hids in Hp. apply lookup_seqZ in Hp as [Hp _].
    rewrite (Hid p t Ht), (Hcp p t Ht'). lia.
Qed.

Lemma isSolved_iff_generation_order_witness :
  ∃ (ts : list Tile) (solved : bool),
    view store9 (arr board9) = Some <$> ts
    ∧ isSolved (arr board9) store9 = (store9, Done solved)
    ∧ (solved = true ↔ id <$> ts = seqZ 0 (3 * 3)).
Proof.
  apply (isSolved_iff_generation_order 3 store9 (arr board9)).
  - lia.
  - exact produced_board9.
Defined.

(** X2. A solved board is never one accepted move away from a solved
    board: after any accepted click on a well-formed board whose tiles are
    all at their [correctPos], isSolved is false. *)
Theorem accepted_move_unsolves
    (h : list Tile) (b : list nat) (n : Z) (e : nat) (i : Z)
    (h' : list Tile) (a' : jsarray) :
  0 < n → well_formed n h b e →
  isSolved (arr b) h = (h, Done true) →
  attemptMove (arr b) n i h = (h', Done (Some a')) →
  isSolved a' h' = (h', Done false).
Proof.
  intros Hn Hwf Hsolved Hrun.
  pose proof (positions_ok_is_board h b (wf_positions _ _ _ _ Hwf)) as Hb.
  destruct (attemptMove_accepted_inv h b n e i h' a' Hb (wf_empty _ _ _ _ Hwf) Hrun)
    as (ti & -> & Hti & Hne & _ & -> & ->).
  pose proof (well_formed_move n h b e ti Hwf Hti Hne) as Hwf'.
  pose proof (positions_ok_is_board _ _ (wf_positions _ _ _ _ Hwf')) as Hbd'.
  destruct (every_at_correctPos_iff _ _ Hbd') as (s & Hs & Hiff).
  unfold isSolved. simpl. rewrite Hs. destruct s; [|done]. exfalso.
  pose proof (proj1 Hiff eq_refl) as Hall.
  destruct (every_at_correctPos_iff h b Hb) as (s0 & Hs0 & Hiff0).
  unfold isSolved in Hsolved. simpl in Hsolved. rewrite Hs0 in Hsolved.
  injection Hsolved as ->. pose proof (proj1 Hiff0 eq_refl) as Hall0.
  (* the tile that moved into the old empty cell *)
  destruct (lookup_lt_is_Some_2 b ti Hti) as [li Hli].
  destruct (wf_positions _ _ _ _ Hwf ti li Hli) as (tli & Hhli & Hcli).
  assert (tile_at h b ti = Some tli) as Hat by (apply tile_at_Some; eauto).
  pose proof (Hall0 ti tli Hat) as Hcorrect.
  assert (e < length b)%nat as He.
  { destruct (wf_empty _ _ _ _ Hwf) as [(te & Hte & _) _].
    apply tile_at_Some in Hte as (le & Hle & _). by eapply lookup_lt_Some. }
  assert (swap_board b ti e !! e = Some li) as Hswe.
  { rewrite lookup_swap_board by done. by rewrite decide_True. }
  destruct (wf_positions _ _ _ _ Hwf' e li Hswe) as (t' & Ht' & Hc').
  assert (tile_at (record_positions h b ti e) (swap_board b ti e) e = Some t') as Hat'
    by (apply tile_at_Some; eauto).
  pose proof (Hall e t' Hat') as Hcorrect'.
  destruct (same_tiles_isEmpty h _ li tli (same_tiles_record_positions h b ti e) Hhli)
    as (t'' & Ht'' & _ & _ & Hcp'' & _).
  rewrite Ht' in Ht''. injection Ht'' as <-.
  lia.
Qed.

Lemma accepted_move_unsolves_witness :
  isSolved (arr (swap_board board9 5 8)) (record_positions store9 board9 5 8)
  = (record_positions store9 board9 5 8, Done false).
Proof.
  apply (accepted_move_unsolves store9 board9 3 8 5).
  - lia.
  - exact well_formed_board9.
  - vm_compute. reflexivity.
  - vm_compute. reflexivity.
Defined.

(** * More on the shuffle *)

(** X3. On a well-formed board with a grid of side at least 2, and with
    [Math.random()] returning doubles in [[0, 1)], the shuffle never undoes
    its previous move: after two further iterations the empty cell is not
    where it was, and the board is not the one of two iterations before. *)
Theorem shuffle_never_backtracks
    (random : nat → Q) (h : list Tile) (b : list nat) (n : Z) (e j : nat) :
  2 ≤ n → well_formed n h b e → double_source random →
  ∃ hj sj hj2 sj2,
    shuffle_loop n random 0 j
      {| sh_tiles := arr b; emptyIdx := Z.of_nat e; previousIdx := -1 |} h = (hj, Done sj)
    ∧ shuffle_loop n random 0 (S (S j))
        {| sh_tiles := arr b; emptyIdx := Z.of_nat e; previousIdx := -1 |} h = (hj2, Done sj2)
    ∧ emptyIdx sj2 ≠ emptyIdx sj
    ∧ sh_tiles sj2 ≠ sh_tiles sj.
Proof.
  intros Hn Hwf Hrand.
  destruct (shuffle_loop_prefix n random h b e j Hn Hwf Hrand)
    as (hj & bj & ej & pj & Hrun & Hwfj & _).
  pose proof (well_formed_empty_range n hj bj ej Hwfj) as Hej.
  (* iteration j *)
  destruct (random_element_is_Some (random j) (candidates (Z.of_nat ej) n pj))
    as [x1 Hx1]; try apply Hrand.
  { rewrite candidates_filtered by done. by apply filteredMoves_nonempty. }
  destruct (shuffle_body_legal n (random j) hj bj ej pj x1 ltac:(lia) Hwfj Hx1)
    as (t1 & -> & Hne1 & Ht1 & Hnb1 & Hbody1).
  pose proof (well_formed_swap n hj bj ej t1 Hwfj Ht1 Hne1) as Hwf1.
  pose proof (well_formed_empty_range n _ _ t1 Hwf1) as Het1.
  (* iteration j + 1 *)
  destruct (random_element_is_Some (random (S j))
              (candidates (Z.of_nat t1) n (Z.of_nat ej))) as [x2 Hx2]; try apply Hrand.
  { rewrite candidates_filtered by done. by apply filteredMoves_nonempty. }
  destruct (shuffle_body_legal n (random (S j)) _ _ t1 (Z.of_nat ej) x2 ltac:(lia) Hwf1 Hx2)
    as (t2 & -> & Hne2 & Ht2 & Hnb2 & Hbody2).
  assert (t2 ≠ ej) as Hback.
  { apply random_element_elem in Hx2. rewrite candidates_filtered in Hx2 by done.
    unfold filteredMoves in Hx2. apply list_elem_of_filter in Hx2 as [Hx2 _]. lia. }
  eexists hj, _, _, _. split; [exact Hrun|]. split.
  { rewrite shuffle_loop_succ. unfold bind at 1.
    rewrite shuffle_loop_succ. unfold bind. rewrite Hrun, Hbody1, Hbody2. done. }
  simpl. split; [lia|].
  intros Heq. apply arr_inj in Heq.
  (* the empty tile is at [t2] in the later board and at [ej] in the earlier *)
  rewrite length_swap_board in Ht2.
  pose proof (well_formed_swap n _ _ t1 t2 Hwf1 ltac:(by rewrite length_swap_board) Hne2) as Hwf2.
  destruct (wf_empty _ _ _ _ Hwfj) as [(te & Hte & Hemp) _].
  apply tile_at_Some in Hte as (le & Hle & Hhe).
  destruct (wf_empty _ _ _ _ Hwf2) as [_ Huniq2].
  set (h2 := record_positions (record_positions hj bj ej t1) (swap_board bj ej t1) t1 t2) in *.
  assert (same_tiles hj h2) as Hsame.
  { eapply same_tiles_trans; apply same_tiles_record_positions. }
  destruct (same_tiles_isEmpty hj h2 le te Hsame Hhe) as (te' & Hte' & Hemp' & _).
  apply Hback. symmetry. apply (Huniq2 ej te').
  - rewrite Heq. apply tile_at_Some. eauto.
  - congruence.
Qed.

Lemma shuffle_never_backtracks_witness :
  ∃ hj sj hj2 sj2,
    shuffle_loop 3 half 0 1
      {| sh_tiles := arr board9; emptyIdx := Z.of_nat 8; previousIdx := -1 |} store9
    = (hj, Done sj)
    ∧ shuffle_loop 3 half 0 3
        {| sh_tiles := arr board9; emptyIdx := Z.of_nat 8; previousIdx := -1 |} store9
      = (hj2, Done sj2)
    ∧ emptyIdx sj2 ≠ emptyIdx sj
    ∧ sh_tiles sj2 ≠ sh_tiles sj.
Proof.
  apply (shuffle_never_backtracks half store9 board9 3 8 1).
  - lia.
  - exact well_formed_board9.
  - exact double_source_half.
Defined.

Lemma findIndex_from_no_empty (h : list Tile) (b : list nat) (k : Z) :
  is_board h b →
  (∀ p t, tile_at h b p = Some t → isEmpty t = false) →
  findIndex_from h (Some <$> b) k = Done (-1).
Proof.
  revert k. induction b as [|l b IH]; intros k Hb Hno; [done|].
  destruct (Hb 0%nat l eq_refl) as [t Ht].
  rewrite fmap_cons. cbn [findIndex_from deref]. rewrite Ht.
  rewrite (Hno 0%nat t) by (unfold tile_at; simpl; done).
  apply IH.
  - intros p l' Hl'. by apply (Hb (S p)).
  - intros p t' Ht'. by apply (Hno (S p)).
Qed.

Lemma validMoves_no_empty n : 2 ≤ n → validMoves (-1) n = [n - 1; 0].
Proof.
  intros Hn. unfold validMoves.
  assert (-1 / n = -1) as -> by (symmetry; apply (Z.div_unique_pos _ _ _ (n - 1)); lia).
  assert (Z.rem (-1) n = -1) as ->.
  { change (-1) with (- (1)) at 1. rewrite Z.rem_opp_l by lia.
    rewrite Z.rem_small by lia. done. }
  simpl.
  assert ((-1 <? n - 1) = true) as -> by (apply Z.ltb_lt; lia).
  simpl. f_equal. lia.
Qed.

(** X4. On a board without an empty tile (findIndex answers -1) — the
    empty array that the component starts with is one — shuffleTiles with
    at least one move raises [TypeError] in its first iteration, for a grid
    of side at least 2. *)
Theorem shuffleTiles_no_empty_tile_throws
    (random : nat → Q) (h : list Tile) (b : list nat) (n k : Z) :
  2 ≤ n → 0 < k → unit_interval random →
  is_board h b →
  (∀ p t, tile_at h b p = Some t → isEmpty t = false) →
  ∃ h', shuffleTiles random (arr b) n k h = (h', TypeError).
Proof.
  intros Hn Hk Hrand Hb Hno.
  unfold shuffleTiles. change (spread (arr b)) with (arr b).
  unfold bind at 1. unfold findIndex_isEmpty. simpl elems.
  rewrite (findIndex_from_no_empty h b 0 Hb Hno).
  destruct (Z.to_nat k) as [|k'] eqn:Hk'; [lia|].
  unfold bind. simpl shuffle_loop. unfold bind.
  destruct (targetIdx_of (random 0%nat) (-1) n (-1)) as [x|] eqn:Hx.
  - (* a target is drawn: the tile at index -1 is [undefined] *)
    rewrite (shuffle_body_target n (random 0%nat) (arr b) (-1) (-1) x h Hx).
    unfold shuffled.
    destruct (swap_and_record (arr b) (Some (-1)) (Some x) (-1) x h) as [h1 [a1|]] eqn:Hsw.
    + apply swap_and_record_Done in Hsw as (i & _ & _ & _ & [= Hi] & _). lia.
    + simpl. eauto.
  - (* the target itself is [undefined] *)
    rewrite shuffle_body_undefined_target by done. eauto.
Qed.

Lemma shuffleTiles_no_empty_tile_throws_witness :
  ∃ h', shuffleTiles half (arr []) 3 60 [] = (h', TypeError).
Proof.
  apply (shuffleTiles_no_empty_tile_throws half [] [] 3 60).
  - lia.
  - lia.
  - exact unit_interval_half.
  - intros p l Hl. by destruct p.
  - intros p t Ht. by destruct p.
Defined.

(** X5. The board that generateSolvedState returns has an empty tile
    exactly when the image list reaches index gridSize² − 1; with a
    shorter list no tile is empty. *)
Theorem generateSolvedState_empty_tile_iff
    (imagePieces : list string) (n : Z) (h : list Tile) :
  ∃ h' b,
    generateSolvedState imagePieces n h = (h', Done (arr b))
    ∧ ((∃ p t, tile_at h' b p = Some t ∧ isEmpty t = true)
       ↔ 0 < n * n ≤ Z.of_nat (length imagePieces)).
Proof.
  eexists _, _. split; [apply generateSolvedState_run|]. split.
  - intros (p & t & Ht & Hemp). rewrite tile_at_solved in Ht.
    destruct (imagePieces !! p) as [url|] eqn:Hp; [|done].
    injection Ht as <-. simpl in Hemp. apply Z.eqb_eq in Hemp.
    apply lookup_lt_Some in Hp. lia.
  - intros Hlen. assert (Z.to_nat (n * n - 1) < length imagePieces)%nat as Hp by lia.
    destruct (lookup_lt_is_Some_2 imagePieces _ Hp) as [url Hurl].
    exists (Z.to_nat (n * n - 1)), (solved_tile n (Z.to_nat (n * n - 1)) url).
    rewrite tile_at_solved, Hurl. split; [done|]. simpl. apply Z.eqb_eq. lia.
Qed.

(** * More on slicing *)

Lemma sliceImage_pieces (img : Image) (gridSize : Z) :
  sliceImage (Some img) true gridSize
  = Pieces (seqZ 0 gridSize ≫= λ row,
            seqZ 0 gridSize ≫= λ col, [slice_piece img gridSize row col]).
Proof. reflexivity. Qed.

Lemma elem_of_sliceImage (img : Image) (gridSize : Z) (pieces : list Piece) p :
  sliceImage (Some img) true gridSize = Pieces pieces →
  p ∈ pieces →
  ∃ row col, 0 ≤ row < gridSize ∧ 0 ≤ col < gridSize
             ∧ p = slice_piece img gridSize row col.
Proof.
  rewrite sliceImage_pieces. intros [= <-] Hp.
  apply list_elem_of_bind in Hp as (row & Hp & Hrow).
  apply list_elem_of_bind in Hp as (col & Hp & Hcol).
  apply list_elem_of_singleton in Hp.
  apply elem_of_seqZ in Hrow, Hcol. exists row, col. split; [lia|]. split; [lia|done].
Qed.

Lemma lookup_sliceImage (img : Image) (gridSize : Z) (pieces : list Piece) (i : nat) p :
  0 < gridSize →
  sliceImage (Some img) true gridSize = Pieces pieces →
  pieces !! i = Some p →
  p = slice_piece img gridSize (Z.of_nat i / gridSize) (Z.of_nat i mod gridSize).
Proof.
  intros Hg. rewrite sliceImage_pieces. intros [= <-] Hp.
  assert (∀ r, length (seqZ 0 gridSize ≫= λ c, [slice_piece img gridSize r c])
               = Z.to_nat gridSize) as Hm.
  { intros r. by rewrite list_bind_singleton, length_fmap, length_seqZ. }
  pose proof (lookup_lt_Some _ _ _ Hp) as Hi.
  rewrite (length_bind_uniform _ _ _ Hm), length_seqZ in Hi.
  pose proof (Z.div_mod (Z.of_nat i) gridSize ltac:(lia)) as Hdm.
  pose proof (Z.mod_pos_bound (Z.of_nat i) gridSize Hg) as Hmod.
  assert (0 ≤ Z.of_nat i / gridSize < gridSize) as Hdiv.
  { split; [apply Z.div_pos; lia|]. apply Z.div_lt_upper_bound; nia. }
  replace i with (Z.to_nat (Z.of_nat i / gridSize) * Z.to_nat gridSize
                  + Z.to_nat (Z.of_nat i mod gridSize))%nat in Hp at 1 by nia.
  rewrite (lookup_bind_uniform _ _ _ _ _ Hm) in Hp by lia.
  rewrite lookup_seqZ_lt in Hp by lia. simpl in Hp.
  rewrite list_bind_singleton, list_lookup_fmap, lookup_seqZ_lt in Hp by lia.
  simpl in Hp. injection Hp as <-. f_equal; lia.
Qed.

(** X6. Every cell that sliceImage reads lies inside the image, is square,
    and is drawn onto a canvas no larger than the cell itself and no
    larger than 512: a piece is reduced or kept, never enlarged. *)
Theorem sliceImage_cells_inside_image
    (img : Image) (gridSize : Z) (pieces : list Piece) :
  0 < gridSize → 0 ≤ width img → 0 ≤ height img →
  sliceImage (Some img) true gridSize = Pieces pieces →
  Forall (λ p,
            (0 <= sx (drawn p))%Q
            ∧ (sx (drawn p) + inject_Z (sWidth (drawn p)) <= inject_Z (width img))%Q
            ∧ (0 <= sy (drawn p))%Q
            ∧ (sy (drawn p) + inject_Z (sHeight (drawn p)) <= inject_Z (height img))%Q
            ∧ 0 ≤ sWidth (drawn p) ∧ sHeight (drawn p) = sWidth (drawn p)
            ∧ canvas_width p = canvas_height p
            ∧ dWidth (drawn p) = canvas_width p ∧ dHeight (drawn p) = canvas_height p
            ∧ 0 ≤ canvas_width p ≤ 512
            ∧ canvas_width p ≤ sWidth (drawn p))
         pieces.
Proof.
  intros Hg Hw Hh Hrun. apply Forall_forall. intros p Hp.
  destruct (elem_of_sliceImage img gridSize pieces p Hrun Hp)
    as (row & col & Hrow & Hcol & ->).
  unfold slice_piece. simpl.
  set (size := Z.min (width img) (height img)).
  set (tileSize := size / gridSize).
  assert (0 ≤ size) by (unfold size; lia).
  assert (0 ≤ tileSize) as Ht by (apply Z.div_pos; lia).
  assert (gridSize * tileSize ≤ size) as Hfit by (apply Z.mul_div_le; lia).
  assert ((col + 1) * tileSize ≤ size) by nia.
  assert ((row + 1) * tileSize ≤ size) by nia.
  assert (0 ≤ col * tileSize) by nia.
  assert (0 ≤ row * tileSize) by nia.
  assert (size ≤ width img ∧ size ≤ height img) as [? ?] by (unfold size; lia).
  repeat split; try lia.
  - unfold Qle, Qplus, Qdiv, Qmult, Qinv, inject_Z. simpl. lia.
  - unfold Qle, Qplus, Qdiv, Qmult, Qinv, inject_Z. simpl. lia.
  - unfold Qle, Qplus, Qdiv, Qmult, Qinv, inject_Z. simpl. lia.
  - unfold Qle, Qplus, Qdiv, Qmult, Qinv, inject_Z. simpl. lia.
Qed.

Lemma sliceImage_cells_inside_image_witness :
  Forall (λ p,
            (0 <= sx (drawn p))%Q
            ∧ (sx (drawn p) + inject_Z (sWidth (drawn p)) <= inject_Z 900)%Q
            ∧ (0 <= sy (drawn p))%Q
            ∧ (sy (drawn p) + inject_Z (sHeight (drawn p)) <= inject_Z 600)%Q
            ∧ 0 ≤ sWidth (drawn p) ∧ sHeight (drawn p) = sWidth (drawn p)
            ∧ canvas_width p = canvas_height p
            ∧ dWidth (drawn p) = canvas_width p ∧ dHeight (drawn p) = canvas_height p
            ∧ 0 ≤ canvas_width p ≤ 512
            ∧ canvas_width p ≤ sWidth (drawn p))
         (seqZ 0 3 ≫= λ row, seqZ 0 3 ≫= λ col,
            [slice_piece {| width := 900; height := 600 |} 3 row col]).
Proof.
  apply (sliceImage_cells_inside_image {| width := 900; height := 600 |} 3).
  - lia.
  - simpl. lia.
  - simpl. lia.
  - reflexivity.
Defined.

(** X7. The cells of two different pieces do not overlap, and together
    they leave out fewer than gridSize pixels of the side of the centered
    square. *)
Theorem sliceImage_cells_disjoint
    (img : Image) (gridSize : Z) (pieces : list Piece) (i j : nat) (p q : Piece) :
  0 < gridSize → 0 ≤ width img → 0 ≤ height img →
  sliceImage (Some img) true gridSize = Pieces pieces →
  pieces !! i = Some p → pieces !! j = Some q → i ≠ j →
  cells_disjoint p q
  ∧ Z.min (width img) (height img) - gridSize
    < gridSize * sWidth (drawn p) ≤ Z.min (width img) (height img).
Proof.
  intros Hg Hw Hh Hrun Hp Hq Hne.
  pose proof (lookup_sliceImage img gridSize pieces i p Hg Hrun Hp) as ->.
  pose proof (lookup_sliceImage img gridSize pieces j q Hg Hrun Hq) as ->.
  pose proof (Z.div_mod (Z.of_nat i) gridSize ltac:(lia)) as Hi.
  pose proof (Z.div_mod (Z.of_nat j) gridSize ltac:(lia)) as Hj.
  set (ri := Z.of_nat i / gridSize) in *. set (ci := Z.of_nat i mod gridSize) in *.
  set (rj := Z.of_nat j / gridSize) in *. set (cj := Z.of_nat j mod gridSize) in *.
  unfold cells_disjoint, slice_piece. simpl.
  set (size := Z.min (width img) (height img)).
  set (tileSize := size / gridSize).
  assert (0 ≤ size) by (unfold size; lia).
  assert (0 ≤ tileSize) as Ht by (apply Z.div_pos; lia).
  split.
  - assert (ri ≠ rj ∨ ci ≠ cj) as Hd.
    { destruct (decide (ri = rj)) as [Hr|]; [|by left]. right. intros Hc. apply Hne. lia. }
    assert ((ci + 1) * tileSize ≤ cj * tileSize ∨ (cj + 1) * tileSize ≤ ci * tileSize
            ∨ (ri + 1) * tileSize ≤ rj * tileSize ∨ (rj + 1) * tileSize ≤ ri * tileSize)
      as Hcase.
    { destruct Hd as [Hd|Hd].
      - assert (ri < rj ∨ rj < ri) as [?|?] by lia; [right; right; left | do 3 right]; nia.
      - assert (ci < cj ∨ cj < ci) as [?|?] by lia; [left | right; left]; nia. }
    destruct Hcase as [Hc|[Hc|[Hc|Hc]]];
      [left | right; left | right; right; left | do 3 right];
      unfold Qle, Qplus, Qdiv, Qmult, Qinv, inject_Z; simpl; lia.
  - pose proof (Z.mul_div_le size gridSize Hg) as H1.
    pose proof (Z.mul_succ_div_gt size gridSize Hg) as H2.
    change (size / gridSize) with tileSize in H1, H2. lia.
Qed.

Lemma sliceImage_cells_disjoint_witness :
  cells_disjoint (slice_piece {| width := 900; height := 600 |} 3 0 1)
                 (slice_piece {| width := 900; height := 600 |} 3 1 1)
  ∧ Z.min 900 600 - 3
    < 3 * sWidth (drawn (slice_piece {| width := 900; height := 600 |} 3 0 1))
    ≤ Z.min 900 600.
Proof.
  apply (sliceImage_cells_disjoint {| width := 900; height := 600 |} 3
           (seqZ 0 3 ≫= λ row, seqZ 0 3 ≫= λ col,
              [slice_piece {| width := 900; height := 600 |} 3 row col]) 1 4).
  - lia.
  - simpl. lia.
  - simpl. lia.
  - reflexivity.
  - reflexivity.
  - reflexivity.
  - lia.
Defined.

(** * The board component and the click handler *)

Lemma Board_clicks_from_board (h : list Tile) (b : list nat) (k : Z) (gs : GameState) :
  is_board h b →
  ∃ clicks,
    Board_clicks_from h (Some <$> b) k gs = Done clicks
    ∧ ∀ i, i ∈ clicks ↔
           gs = PLAYING
           ∧ ∃ (p : nat) t, i = k + Z.of_nat p ∧ tile_at h b p = Some t ∧ isEmpty t = false.
Proof.
  revert k. induction b as [|l b IH]; intros k Hb.
  - exists []. split; [done|]. intros i. split; [by intros ?%elem_of_nil|].
    intros (_ & p & t & _ & Ht & _). by destruct p.
  - destruct (Hb 0%nat l eq_refl) as [t0 Ht0].
    destruct (IH (k + 1)) as (rest & Hrest & Hiff).
    { intros p l' Hl'. by apply (Hb (S p)). }
    rewrite fmap_cons. cbn [Board_clicks_from deref]. rewrite Ht0, Hrest.
    assert (∀ i, (gs = PLAYING ∧ ∃ (p : nat) t, i = k + Z.of_nat p
                    ∧ tile_at h (l :: b) p = Some t ∧ isEmpty t = false)
                 ↔ (gs = PLAYING ∧ i = k ∧ isEmpty t0 = false) ∨ i ∈ rest) as Hsplit.
    { intros i. rewrite Hiff. split.
      - intros (Hgs & [|p] & t & -> & Ht & Hne).
        + left. unfold tile_at in Ht. simpl in Ht. rewrite Ht0 in Ht.
          injection Ht as ->. split; [done|]. split; [lia|done].
        + right. split; [done|]. exists p, t. split; [lia|]. done.
      - intros [(Hgs & -> & Hne) | (Hgs & p & t & -> & Ht & Hne)].
        + split; [done|]. exists 0%nat, t0. split; [lia|]. split; [|done].
          unfold tile_at. simpl. done.
        + split; [done|]. exists (S p), t. split; [lia|]. done. }
    destruct (isEmpty t0) eqn:Hemp.
    + exists rest. split; [done|]. intros i. rewrite Hsplit. split; [tauto|].
      intros [(_ & _ & ?)|?]; done.
    + destruct gs; simpl.
      all: try (exists rest; split; [done|]; intros i; rewrite Hsplit;
                split; [tauto|]; intros [(? & _)|?]; done).
      exists (k :: rest). split; [done|]. intros i. rewrite Hsplit, elem_of_cons.
      split; [intros [->|?]; [left|right]; done | intros [(_ & -> & _)|?]; [left|right]; done].
Qed.

Lemma length_sliceImage (img : Image) (gridSize : Z) (pieces : list Piece) :
  0 < gridSize →
  sliceImage (Some img) true gridSize = Pieces pieces →
  Z.of_nat (length pieces) = gridSize * gridSize.
Proof.
  intros Hg. rewrite sliceImage_pieces. intros [= <-].
  rewrite (length_bind_uniform _ _ (Z.to_nat gridSize)), length_seqZ; [nia|].
  intros r. by rewrite list_bind_singleton, length_fmap, length_seqZ.
Qed.

(** During play, a click inside a produced board is handled without an
    exception, and the board that results is a produced board. *)
Lemma handleTileClick_step (n : Z) (h : list Tile) (st : AppState) (i : Z) :
  0 < n → produced n h (tiles st) → difficulty st = n → gameState st = PLAYING →
  0 ≤ i < n * n →
  ∃ h' st',
    handleTileClick st i h = (h', Done st')
    ∧ produced n h' (tiles st')
    ∧ difficulty st' = n
    ∧ ((h' = h ∧ st' = st)
       ∨ (moves st' = moves st + 1
          ∧ ∃ solved, isSolved (tiles st') h' = (h', Done solved)
                      ∧ gameState st' = if solved then WON else PLAYING)).
Proof.
  intros Hn Hprod Hd Hgs Hi.
  destruct (produced_invariant n h _ Hn Hprod) as (b & e & Hb0 & Hwf & _).
  pose proof (positions_ok_is_board h b (wf_positions _ _ _ _ Hwf)) as Hb.
  rewrite handleTileClick_playing by done. rewrite Hd, Hb0 in *. unfold bind.
  destruct (isAdjacent n i (Z.of_nat e)) eqn:Hadj.
  - assert (Z.to_nat i < length b)%nat as Hti by (destruct Hwf; lia).
    rewrite <- (Z2Nat.id i) in Hadj by lia.
    pose proof (attemptMove_accepted h b n e (Z.to_nat i) Hb (wf_empty _ _ _ _ Hwf) Hti Hadj)
      as Hrun.
    rewrite Z2Nat.id in Hrun by lia. rewrite Hrun.
    assert (produced n (record_positions h b (Z.to_nat i) e)
                     (arr (swap_board b (Z.to_nat i) e))) as Hprod'.
    { eapply produced_move; [exact Hprod | exact Hrun]. }
    destruct (isSolved_board (record_positions h b (Z.to_nat i) e)
                (swap_board b (Z.to_nat i) e)) as [solved Hsolved].
    { eapply is_board_same_tiles; [| |exact Hb].
      - apply same_tiles_record_positions.
      - apply swap_board_Permutation. }
    rewrite Hsolved. eexists _, _. split; [done|]. simpl.
    split; [done|]. split; [done|]. right. split; [done|].
    exists solved. split; done.
  - rewrite (attemptMove_unfold h b n e i Hb (wf_empty _ _ _ _ Hwf)), Hadj.
    exists h, st. split; [done|]. split; [by rewrite Hb0|]. split; [done|]. by left.
Qed.

(** X8. On a produced board the Board component offers a click exactly for
    the cells inside the grid other than the empty one, and only during
    play.  Every click it offers is handled by handleTileClick without an
    exception: the difficulty is kept, the board that results is again a
    produced board, and either nothing changes or the move counter goes up
    by one and the game state becomes WON exactly when isSolved holds of
    the new board. *)
Theorem Board_clicks_handled (n : Z) (h : list Tile) (st : AppState) :
  0 < n → produced n h (tiles st) → difficulty st = n →
  ∃ b e clicks,
    tiles st = arr b
    ∧ only_empty_at h b e
    ∧ Board_clicks h (tiles st) (gameState st) = Done clicks
    ∧ (∀ i, i ∈ clicks ↔ gameState st = PLAYING ∧ 0 ≤ i < n * n ∧ i ≠ Z.of_nat e)
    ∧ ∀ i, i ∈ clicks →
        ∃ h' st',
          handleTileClick st i h = (h', Done st')
          ∧ produced n h' (tiles st')
          ∧ difficulty st' = n
          ∧ ((h' = h ∧ st' = st)
             ∨ (moves st' = moves st + 1
                ∧ ∃ solved, isSolved (tiles st') h' = (h', Done solved)
                            ∧ gameState st' = if solved then WON else PLAYING)).
Proof.
  intros Hn Hprod Hd.
  destruct (produced_invariant n h _ Hn Hprod) as (b & e & Hb0 & Hwf & _).
  pose proof (positions_ok_is_board h b (wf_positions _ _ _ _ Hwf)) as Hb.
  destruct (Board_clicks_from_board h b 0 (gameState st) Hb) as (clicks & Hclicks & Hiff).
  assert (∀ i, i ∈ clicks ↔ gameState st = PLAYING ∧ 0 ≤ i < n * n ∧ i ≠ Z.of_nat e)
    as Hchar.
  { intros i. rewrite Hiff. destruct Hwf as [Hlen Hpos [Hex Huniq]]. split.
    - intros (Hgs & p & t & -> & Ht & Hne). split; [done|].
      pose proof Ht as Ht'. apply tile_at_Some in Ht' as (l & Hl & _).
      apply lookup_lt_Some in Hl. split; [lia|].
      intros Heq. assert (p = e) as -> by lia.
      destruct Hex as (te & Hte & Hemp). congruence.
    - intros (Hgs & Hi & Hne). split; [done|].
      destruct (tile_at_is_Some h b (Z.to_nat i) Hb ltac:(lia)) as [t Ht].
      exists (Z.to_nat i), t. split; [lia|]. split; [done|].
      destruct (isEmpty t) eqn:E; [|done].
      specialize (Huniq _ t Ht E). lia. }
  exists b, e, clicks. split; [done|]. split; [apply Hwf|].
  split; [unfold Board_clicks; by rewrite Hb0|]. split; [done|].
  intros i Hi. apply Hchar in Hi as (Hgs & Hi & _).
  by apply handleTileClick_step.
Qed.

Lemma Board_clicks_handled_witness :
  let st := {| difficulty := 3; tiles := arr board9; gameState := PLAYING; moves := 0 |} in
  ∃ b e clicks,
    tiles st = arr b
    ∧ only_empty_at store9 b e
    ∧ Board_clicks store9 (tiles st) (gameState st) = Done clicks
    ∧ (∀ i, i ∈ clicks ↔ gameState st = PLAYING ∧ 0 ≤ i < 3 * 3 ∧ i ≠ Z.of_nat e)
    ∧ ∀ i, i ∈ clicks →
        ∃ h' st',
          handleTileClick st i store9 = (h', Done st')
          ∧ produced 3 h' (tiles st')
          ∧ difficulty st' = 3
          ∧ ((h' = store9 ∧ st' = st)
             ∨ (moves st' = moves st + 1
                ∧ ∃ solved, isSolved (tiles st') h' = (h', Done solved)
                            ∧ gameState st' = if solved then WON else PLAYING)).
Proof.
  apply (Board_clicks_handled 3 store9
           {| difficulty := 3; tiles := arr board9; gameState := PLAYING; moves := 0 |}).
  - lia.
  - exact produced_board9.
  - reflexivity.
Defined.

(** * Starting and resetting a game *)




(** X10. handleStartGame can deal a solved board: on the solved 3 × 3
    board there are values of [Math.random()] for which the 60 moves take
    the empty cell fifteen times round a block of four cells and put every
    tile back, so the game is in PLAYING on a board of which isSolved is
    true. *)
Theorem handleStartGame_may_deal_solved_board :
  ∃ random h' s',
    unit_interval random
    ∧ handleStartGame random session9 store9 = (h', Done s')
    ∧ gameState (app s') = PLAYING
    ∧ tiles (app s') = arr board9
    ∧ isSolved (tiles (app s')) h' = (h', Done true).
Proof.
  exists round_the_block. eexists _, _. split.
  - intros i. unfold round_the_block.
    destruct (i mod 4 =? 0)%nat; split; reflexivity || discriminate.
  - split; [vm_compute; reflexivity|]. split; [reflexivity|].
    split; [reflexivity|]. vm_compute. reflexivity.
Qed.

(** X11. When the image loads and a context is obtained, initializeBoard
    composes sliceImage and generateSolvedState into a produced board of
    difficulty² tiles, whatever the image size: the game is IDLE with both
    counters at 0, isSolved holds, the only empty tile is in the last cell,
    and the tile at index [i] carries the encoding of the cell at row
    floor(i / difficulty), column i mod difficulty.  handleReset does the
    same with the current image when that is a string that is not empty,
    and nothing when it is [null] or the empty string. *)
Theorem initializeBoard_solved_board
    (toDataURL : Piece → string) (s : Session) (imgSrc : string) (img : Image)
    (h : list Tile) :
  0 < difficulty (app s) →
  let n := difficulty (app s) in
  ∃ h' b,
    initializeBoard toDataURL s imgSrc (Some img) true h
    = (h', Done {| app := {| difficulty := n; tiles := arr b;
                             gameState := IDLE; moves := 0 |};
                   timeElapsed := 0; prompt := prompt s;
                   currentImage := Some imgSrc; error := error s |})
    ∧ Z.of_nat (length b) = n * n
    ∧ produced n h' (arr b)
    ∧ isSolved (arr b) h' = (h', Done true)
    ∧ only_empty_at h' b (Z.to_nat (n * n - 1))
    ∧ (∀ i : nat, Z.of_nat i < n * n →
         ∃ t, tile_at h' b i = Some t
              ∧ imageUrl t = toDataURL (slice_piece img n (Z.of_nat i / n) (Z.of_nat i mod n)))
    ∧ (currentImage s = Some imgSrc → imgSrc ≠ ""%string →
       handleReset toDataURL s (Some img) true h
       = initializeBoard toDataURL s imgSrc (Some img) true h)
    ∧ (currentImage s = None ∨ currentImage s = Some ""%string →
       handleReset toDataURL s (Some img) true h = (h, Done s)).
Proof.
  intros Hn n.
  destruct (sliceImage (Some img) true n) as [pieces| |] eqn:Hslice; try done.
  pose proof (length_sliceImage img n pieces Hn Hslice) as Hlen.
  assert (Z.of_nat (length (toDataURL <$> pieces)) = n * n) as Hlen'
    by (by rewrite length_fmap).
  exists (h ++ imap (solved_tile n) (toDataURL <$> pieces)),
         (seq (length h) (length (toDataURL <$> pieces))).
  assert (generateSolvedState (toDataURL <$> pieces) n h
          = (h ++ imap (solved_tile n) (toDataURL <$> pieces),
             Done (arr (seq (length h) (length (toDataURL <$> pieces))))))
    as Hgen by apply generateSolvedState_run.
  pose proof (well_formed_solved (toDataURL <$> pieces) n h Hn Hlen') as Hwf.
  split.
  { unfold initializeBoard. fold n. rewrite Hslice. unfold bind. by rewrite Hgen. }
  split; [by rewrite length_seq|].
  split; [by eapply produced_solved|].
  split.
  { unfold isSolved. f_equal. simpl. apply every_at_correctPos_true.
    intros p l Hl. destruct (wf_positions _ _ _ _ Hwf p l Hl) as (t & Ht & Hc).
    exists t. split; [done|].
    assert (tile_at (h ++ imap (solved_tile n) (toDataURL <$> pieces))
              (seq (length h) (length (toDataURL <$> pieces))) p = Some t) as Hat
      by (apply tile_at_Some; eauto).
    rewrite tile_at_solved in Hat.
    destruct ((toDataURL <$> pieces) !! p); [|done]. by injection Hat as <-. }
  split; [apply Hwf|].
  split.
  { intros i Hi.
    assert (i < length pieces)%nat as Hip by lia.
    destruct (lookup_lt_is_Some_2 pieces i Hip) as [p Hp].
    exists (solved_tile n i (toDataURL p)).
    rewrite tile_at_solved, list_lookup_fmap, Hp. split; [done|]. simpl.
    by rewrite (lookup_sliceImage img n pieces i p Hn Hslice Hp). }
  split.
  - intros Hc Hne. unfold handleReset, truthy. rewrite Hc.
    by destruct (String.eqb_spec imgSrc "").
  - intros [Hc | Hc]; unfold handleReset; by rewrite Hc.
Qed.

Lemma initializeBoard_solved_board_witness :
  let n := difficulty (app session9) in
  ∃ h' b,
    initializeBoard (λ _, ""%string) session9 "img" (Some {| width := 900; height := 600 |})
      true store9
    = (h', Done {| app := {| difficulty := n; tiles := arr b;
                             gameState := IDLE; moves := 0 |};
                   timeElapsed := 0; prompt := prompt session9;
                   currentImage := Some "img"%string; error := error session9 |})
    ∧ Z.of_nat (length b) = n * n
    ∧ produced n h' (arr b)
    ∧ isSolved (arr b) h' = (h', Done true)
    ∧ only_empty_at h' b (Z.to_nat (n * n - 1))
    ∧ (∀ i : nat, Z.of_nat i < n * n →
         ∃ t, tile_at h' b i = Some t
              ∧ imageUrl t = (λ _, ""%string)
                  (slice_piece {| width := 900; height := 600 |} n
                     (Z.of_nat i / n) (Z.of_nat i mod n)))
    ∧ (currentImage session9 = Some "img"%string → "img"%string ≠ ""%string →
       handleReset (λ _, ""%string) session9 (Some {| width := 900; height := 600 |}) true store9
       = initializeBoard (λ _, ""%string) session9 "img"
           (Some {| width := 900; height := 600 |}) true store9)
    ∧ (currentImage session9 = None ∨ currentImage session9 = Some ""%string →
       handleReset (λ _, ""%string) session9 (Some {| width := 900; height := 600 |}) true store9
       = (store9, Done session9)).
Proof.
  apply (initializeBoard_solved_board (λ _, ""%string) session9 "img"
           {| width := 900; height := 600 |} store9).
  simpl. lia.
Defined.

(** * The image service *)

Lemma first_inline_image_skip (pre ps : list geminiService.Part) :
  Forall (λ q, geminiService.has_image q = false) pre →
  geminiService.first_inline_image (pre ++ ps) = geminiService.first_inline_image ps.
Proof.
  induction 1 as [|q pre Hq _ IH]; [done|].
  simpl. unfold geminiService.has_image in Hq.
  destruct (geminiService.inlineData q) as [blob|]; [|done].
  destruct (geminiService.data blob) as [d|]; [|done].
  by rewrite Hq.
Qed.

Lemma first_inline_image_Some (ps : list geminiService.Part) url :
  geminiService.first_inline_image ps = Some url →
  ∃ part blob d mime,
    part ∈ ps ∧ geminiService.inlineData part = Some blob
    ∧ geminiService.data blob = Some d
    ∧ truthy d = true ∧ truthy mime = true
    ∧ url = ("data:" +:+ mime +:+ ";base64," +:+ d)%string.
Proof.
  induction ps as [|q ps IH]; [done|]. simpl.
  destruct (geminiService.inlineData q) as [blob|] eqn:Hb.
  - destruct (geminiService.data blob) as [d|] eqn:Hd.
    + destruct (truthy d) eqn:Ht.
      * intros [= <-]. eexists q, blob, d, _.
        split; [left|]. split; [done|]. split; [done|]. split; [done|].
        split; [|reflexivity].
        destruct (geminiService.mimeType blob) as [m|]; [|done].
        by destruct (truthy m) eqn:Hm.
      * intros H. destruct (IH H) as (p & bl & d' & m & Hin & Hrest). exists p, bl, d', m. split; [by right | done].
    + intros H. destruct (IH H) as (p & bl & d' & m & Hin & Hrest). exists p, bl, d', m. split; [by right | done].
  - intros H. destruct (IH H) as (p & bl & d' & m & Hin & Hrest). exists p, bl, d', m. split; [by right | done].
Qed.

Lemma first_inline_image_None (ps : list geminiService.Part) :
  geminiService.first_inline_image ps = None ↔
  Forall (λ q, geminiService.has_image q = false) ps.
Proof.
  induction ps as [|q ps IH]; [split; [constructor|done]|].
  simpl. rewrite Forall_cons, <- IH. unfold geminiService.has_image.
  destruct (geminiService.inlineData q) as [blob|]; [|tauto].
  destruct (geminiService.data blob) as [d|]; [|tauto].
  destruct (truthy d); [|tauto]. split; [done|]. intros [? _]. done.
Qed.

(** X12. With an API key, generatePuzzleImage returns the data URL of the
    first part of the first candidate that has inline data: parts before it
    without data (or with empty data) are skipped, what comes after it and
    the other candidates are not looked at, and a missing or empty MIME
    type is replaced by image/png. *)
Theorem generatePuzzleImage_first_image
    (apiKey : string) (c : geminiService.Candidate) (cs : list geminiService.Candidate)
    (pre post : list geminiService.Part) (part : geminiService.Part)
    (blob : geminiService.Blob) (d : string) :
  truthy apiKey = true →
  geminiService.content c = Some {| geminiService.parts := Some (pre ++ part :: post) |} →
  Forall (λ q, geminiService.has_image q = false) pre →
  geminiService.inlineData part = Some blob →
  geminiService.data blob = Some d → truthy d = true →
  geminiService.generatePuzzleImage apiKey
    (geminiService.Resolved {| geminiService.candidates := Some (c :: cs) |})
  = inr ("data:"
         +:+ match geminiService.mimeType blob with
             | Some m => if truthy m then m else "image/png"
             | None => "image/png"
             end
         +:+ ";base64," +:+ d)%string.
Proof.
  intros Hkey Hc Hpre Hblob Hd Ht.
  unfold geminiService.generatePuzzleImage. rewrite Hkey. simpl. rewrite Hc. simpl.
  rewrite first_inline_image_skip by done. simpl. by rewrite Hblob, Hd, Ht.
Qed.

Lemma generatePuzzleImage_first_image_witness :
  geminiService.generatePuzzleImage "key"
    (geminiService.Resolved
       {| geminiService.candidates :=
            Some [ {| geminiService.content :=
                        Some {| geminiService.parts :=
                                  Some ([ {| geminiService.inlineData := None |} ]
                                        ++ {| geminiService.inlineData :=
                                                Some {| geminiService.data := Some "QUJD"%string;
                                                        geminiService.mimeType := None |} |}
                                        :: []) |} |} ] |})
  = inr ("data:"
         +:+ match geminiService.mimeType
                     {| geminiService.data := Some "QUJD"%string;
                        geminiService.mimeType := None |} with
             | Some m => if truthy m then m else "image/png"
             | None => "image/png"
             end
         +:+ ";base64," +:+ "QUJD")%string.
Proof.
  apply (generatePuzzleImage_first_image "key" _ [] [ {| geminiService.inlineData := None |} ] []
           {| geminiService.inlineData :=
                Some {| geminiService.data := Some "QUJD"%string;
                        geminiService.mimeType := None |} |}
           {| geminiService.data := Some "QUJD"%string; geminiService.mimeType := None |}
           "QUJD").
  - reflexivity.
  - reflexivity.
  - repeat constructor.
  - reflexivity.
  - reflexivity.
  - reflexivity.
Defined.

(** X13. Whatever generatePuzzleImage returns as a URL is a data URL whose
    MIME type and base64 data are not empty, and the data is that of a part
    of the first candidate of a resolved reply; without an API key nothing
    is returned, whatever the reply. *)
Theorem generatePuzzleImage_returns_data_url
    (apiKey : string) (reply : geminiService.Reply) (url : string) :
  geminiService.generatePuzzleImage apiKey reply = inr url →
  truthy apiKey = true
  ∧ ∃ response c cs ct ps part blob d mime,
      reply = geminiService.Resolved response
      ∧ geminiService.candidates response = Some (c :: cs)
      ∧ geminiService.content c = Some ct
      ∧ geminiService.parts ct = Some ps
      ∧ part ∈ ps
      ∧ geminiService.inlineData part = Some blob
      ∧ geminiService.data blob = Some d
      ∧ truthy d = true ∧ truthy mime = true
      ∧ url = ("data:" +:+ mime +:+ ";base64," +:+ d)%string.
Proof.
  unfold geminiService.generatePuzzleImage.
  destruct (truthy apiKey); [|done]. simpl.
  destruct reply as [|response]; [done|].
  destruct (geminiService.candidates response) as [[|c cs]|] eqn:Hcs; try done.
  simpl. destruct (geminiService.content c) as [ct|] eqn:Hct; [|done].
  destruct (geminiService.parts ct) as [ps|] eqn:Hps; [|done].
  destruct (geminiService.first_inline_image ps) as [u|] eqn:Hu; [|done].
  intros [= <-]. split; [done|].
  destruct (first_inline_image_Some ps u Hu) as (part & blob & d & mime & ? & ? & ? & ? & ? & ?).
  exists response, c, cs, ct, ps, part, blob, d, mime. done.
Qed.

Lemma generatePuzzleImage_returns_data_url_witness :
  truthy "key" = true
  ∧ ∃ response c cs ct ps part blob d mime,
      geminiService.Resolved
        {| geminiService.candidates :=
             Some [ {| geminiService.content :=
                         Some {| geminiService.parts :=
                                   Some [ {| geminiService.inlineData :=
                                               Some {| geminiService.data := Some "QUJD"%string;
                                                       geminiService.mimeType := None |} |} ] |} |} ] |}
      = geminiService.Resolved response
      ∧ geminiService.candidates response = Some (c :: cs)
      ∧ geminiService.content c = Some ct
      ∧ geminiService.parts ct = Some ps
      ∧ part ∈ ps
      ∧ geminiService.inlineData part = Some blob
      ∧ geminiService.data blob = Some d
      ∧ truthy d = true ∧ truthy mime = true
      ∧ "data:image/png;base64,QUJD"%string = ("data:" +:+ mime +:+ ";base64," +:+ d)%string.
Proof.
  apply (generatePuzzleImage_returns_data_url "key"). reflexivity.
Defined.

(** X14. The failures of generatePuzzleImage: a reply whose candidate list
    is empty, or whose first candidate has no content, fails with the
    [TypeError] of line 32 and not with the no-image error; a reply without
    candidates or parts, or whose parts all lack inline data, fails with
    the no-image error of line 42. *)
Theorem generatePuzzleImage_failures
    (apiKey : string) (response : geminiService.GenerateContentResponse) :
  truthy apiKey = true →
  let result := geminiService.generatePuzzleImage apiKey (geminiService.Resolved response) in
  (geminiService.candidates response = Some [] →
   result = inl geminiService.ResponseTypeError)
  ∧ (∀ c cs, geminiService.candidates response = Some (c :: cs) →
             geminiService.content c = None →
             result = inl geminiService.ResponseTypeError)
  ∧ (geminiService.candidates response = None → result = inl geminiService.NoImageData)
  ∧ (∀ c cs ct, geminiService.candidates response = Some (c :: cs) →
                geminiService.content c = Some ct →
                match geminiService.parts ct with
                | Some ps => Forall (λ q, geminiService.has_image q = false) ps
                | None => True
                end →
                result = inl geminiService.NoImageData).
Proof.
  intros Hkey result. unfold result, geminiService.generatePuzzleImage.
  rewrite Hkey. simpl. repeat split.
  - by intros ->.
  - intros c cs -> Hc. simpl. by rewrite Hc.
  - by intros ->.
  - intros c cs ct -> Hc Hps. simpl. rewrite Hc.
    destruct (geminiService.parts ct) as [ps|]; [|done].
    apply first_inline_image_None in Hps. by rewrite Hps.
Qed.

Lemma generatePuzzleImage_failures_witness :
  geminiService.generatePuzzleImage "key"
    (geminiService.Resolved {| geminiService.candidates := Some [] |})
  = inl geminiService.ResponseTypeError.
Proof.
  apply (generatePuzzleImage_failures "key" {| geminiService.candidates := Some [] |}).
  - reflexivity.
  - reflexivity.
Defined.

(** * Generating a puzzle *)

(** X15. handleGenerateImage when no board is made.  With a blank prompt it
    does nothing.  When the image service fails, the game goes to IDLE with
    the generation error, and the board, the counters and the current
    image are kept.  When the service returns an image that cannot be
    loaded or drawn, initializeBoard swallows the failure: the handler
    returns normally, the board is kept, the error is the loading error,
    and the game stays in GENERATING. *)
Theorem handleGenerateImage_without_board
    (trim toLowerCase : string → string) (toDataURL : Piece → string) (apiKey : string)
    (s : Session) (reply : geminiService.Reply) (loaded : option Image) (ctx : bool)
    (h : list Tile) :
  let run := handleGenerateImage trim toLowerCase toDataURL apiKey s reply loaded ctx h in
  (truthy (trim (prompt s)) = false → run = (h, Done s))
  ∧ (truthy (trim (prompt s)) = true →
     ∀ err, geminiService.generatePuzzleImage apiKey reply = inl err →
     run = (h, Done {| app := {| difficulty := difficulty (app s); tiles := tiles (app s);
                                 gameState := IDLE; moves := moves (app s) |};
                       timeElapsed := timeElapsed s; prompt := prompt s;
                       currentImage := currentImage s;
                       error := Some "Failed to generate image. Try a simpler prompt or check API key."%string |}))
  ∧ (truthy (trim (prompt s)) = true →
     ∀ url, geminiService.generatePuzzleImage apiKey reply = inr url →
     loaded = None ∨ ctx = false →
     run = (h, Done {| app := {| difficulty :=
                                   if includes (toLowerCase (prompt s)) "hard"
                                   then HARD else difficulty (app s);
                                 tiles := tiles (app s);
                                 gameState := GENERATING; moves := moves (app s) |};
                       timeElapsed := timeElapsed s; prompt := prompt s;
                       currentImage := currentImage s;
                       error := Some "Failed to load image onto board."%string |})).
Proof.
  intros run. unfold run, handleGenerateImage. repeat split.
  - by intros ->.
  - intros -> err ->. done.
  - intros -> url -> Hfail. simpl. unfold bind, initializeBoard. simpl.
    assert (sliceImage loaded ctx (difficulty (app s)) = LoadRejected
            ∨ sliceImage loaded ctx (difficulty (app s)) = NoCanvasContext) as [-> | ->].
    { unfold sliceImage. destruct loaded as [img|]; [|by left].
      destruct Hfail as [Hf | ->]; [done|]. by right. }
    + simpl. by destruct (includes _ _).
    + simpl. by destruct (includes _ _).
Qed.

Lemma length_sliceImage_fmap (toDataURL : Piece → string) (img : Image) (n : Z) pieces :
  0 < n → sliceImage (Some img) true n = Pieces pieces →
  Z.of_nat (length (toDataURL <$> pieces)) = n * n.
Proof. intros Hn Hs. rewrite length_fmap. by eapply length_sliceImage. Qed.

(** X16. handleGenerateImage when the service returns an image that loads:
    the game is IDLE with both counters at 0 and no error, the current
    image is the returned data URL, and the board is a solved produced
    board of n² tiles for the difficulty [n] at the time of the call.  The
    difficulty itself becomes HARD (5) when the lower-cased prompt includes
    "hard", so that the board then has n² tiles under difficulty 5. *)
Theorem handleGenerateImage_new_board
    (trim toLowerCase : string → string) (toDataURL : Piece → string) (apiKey : string)
    (s : Session) (reply : geminiService.Reply) (img : Image) (url : string)
    (h : list Tile) :
  0 < difficulty (app s) →
  truthy (trim (prompt s)) = true →
  geminiService.generatePuzzleImage apiKey reply = inr url →
  let n := difficulty (app s) in
  ∃ h' b,
    handleGenerateImage trim toLowerCase toDataURL apiKey s reply (Some img) true h
    = (h', Done {| app := {| difficulty :=
                               if includes (toLowerCase (prompt s)) "hard" then HARD else n;
                             tiles := arr b; gameState := IDLE; moves := 0 |};
                   timeElapsed := 0; prompt := prompt s;
                   currentImage := Some url; error := None |})
    ∧ Z.of_nat (length b) = n * n
    ∧ produced n h' (arr b)
    ∧ isSolved (arr b) h' = (h', Done true).
Proof.
  intros Hn Hprompt Hgen n.
  destruct (sliceImage (Some img) true n) as [pieces| |] eqn:Hslice; try done.
  pose proof (length_sliceImage_fmap toDataURL img n pieces Hn Hslice) as Hlen.
  pose proof (generateSolvedState_run (toDataURL <$> pieces) n h) as Hrun.
  pose proof (well_formed_solved (toDataURL <$> pieces) n h Hn Hlen) as Hwf.
  eexists _, _. split.
  { unfold handleGenerateImage. rewrite Hprompt, Hgen. cbn [negb].
    unfold bind, initializeBoard. cbn [app difficulty]. fold n. rewrite Hslice.
    unfold bind. rewrite Hrun. cbn. by destruct (includes _ _). }
  split; [by rewrite length_seq|].
  split; [by eapply produced_solved|].
  unfold isSolved. f_equal. simpl. apply every_at_correctPos_true.
  intros p l Hl. destruct (wf_positions _ _ _ _ Hwf p l Hl) as (t & Ht & Hc).
  exists t. split; [done|].
  assert (tile_at (h ++ imap (solved_tile n) (toDataURL <$> pieces))
            (seq (length h) (length (toDataURL <$> pieces))) p = Some t) as Hat
    by (apply tile_at_Some; eauto).
  rewrite tile_at_solved in Hat.
  destruct ((toDataURL <$> pieces) !! p); [|done]. by injection Hat as <-.
Qed.

Lemma handleGenerateImage_new_board_witness :
  let s := {| app := app session9; timeElapsed := 0; prompt := "a hard one";
              currentImage := None; error := None |} in
  let n := difficulty (app s) in
  ∃ h' b,
    handleGenerateImage (λ x, x) (λ x, x) (λ _, ""%string) "key" s
      (geminiService.Resolved
         {| geminiService.candidates :=
              Some [ {| geminiService.content :=
                          Some {| geminiService.parts :=
                                    Some [ {| geminiService.inlineData :=
                                                Some {| geminiService.data := Some "QUJD"%string;
                                                        geminiService.mimeType := None |} |} ] |} |} ] |})
      (Some {| width := 900; height := 600 |}) true store9
    = (h', Done {| app := {| difficulty :=
                               if includes ((λ x, x) (prompt s)) "hard" then HARD else n;
                             tiles := arr b; gameState := IDLE; moves := 0 |};
                   timeElapsed := 0; prompt := prompt s;
                   currentImage := Some "data:image/png;base64,QUJD"%string; error := None |})
    ∧ Z.of_nat (length b) = n * n
    ∧ produced n h' (arr b)
    ∧ isSolved (arr b) h' = (h', Done true).
Proof.
  apply (handleGenerateImage_new_board (λ x, x) (λ x, x) (λ _, ""%string) "key"
           {| app := app session9; timeElapsed := 0; prompt := "a hard one";
              currentImage := None; error := None |}).
  - simpl. lia.
  - reflexivity.
  - reflexivity.
Defined.

(** * The clock *)

Lemma string_app_length (a b : string) :
  String.length (a +:+ b) = (String.length a + String.length b)%nat.
Proof. induction a as [|c a IH]; simpl; [done|]. by rewrite IH. Qed.

Lemma string_app_inj (a a' b b' : string) :
  String.length a = String.length a' → (a +:+ b = a' +:+ b')%string → a = a' ∧ b = b'.
Proof.
  revert a'. induction a as [|c a IH]; intros [|c' a'] Hlen Heq; simpl in *; try done.
  injection Heq as -> Heq. destruct (IH a' ltac:(lia) Heq) as [-> ->]. done.
Qed.

Lemma toString_inj (m m' : Z) : toString m = toString m' → m = m'.
Proof.
  unfold toString. intros Heq.
  assert (∀ z, DecimalString.NilZero.int_of_string
                 (DecimalString.NilZero.string_of_int (Z.to_int z)) = Some (Z.to_int z)) as Hisi.
  { intros z. apply DecimalString.NilZero.isi; destruct z as [|p|p]; simpl; try done;
      intros [= H]; by apply (DecimalPos.Unsigned.to_uint_nonnil p). }
  apply DecimalZ.to_int_inj.
  pose proof (Hisi m) as H1. rewrite Heq, Hisi in H1. by injection H1.
Qed.

Lemma seconds_two_digits :
  Forall (λ secs, padStart2 (toString secs)
                  = (toString (secs / 10) +:+ toString (secs mod 10))%string
                  ∧ String.length (padStart2 (toString secs)) = 2%nat)
         (seqZ 0 60).
Proof. vm_compute. repeat constructor. Qed.

(** Below 2^53 the rounding of the quotient does not show: the minutes
    are the integer quotient. *)
Lemma formatTime_exact (seconds : Z) :
  0 ≤ seconds < 2 ^ 53 →
  formatTime seconds
  = (toString (seconds / 60) +:+ ":" +:+ padStart2 (toString (Z.rem seconds 60)))%string.
Proof.
  intros Hs. unfold formatTime. change 60%Q with (inject_Z 60).
  by rewrite floor_round_double_div by lia.
Qed.

(** From 2^53 on it does: here the exact quotient is 9007199254740993. *)
Remark formatTime_rounded_quotient :
  formatTime 540431955284459584 = "9007199254740994:04"%string.
Proof. reflexivity. Qed.

(** X17. For a time in seconds that is an integer, not negative and below
    2^53 (the integers that a double counts exactly), formatTime shows the
    minutes in decimal, a colon, and the seconds as exactly two decimal
    digits (a leading 0 below ten); two different such times are never
    shown alike. *)
Theorem formatTime_minutes_seconds (seconds seconds' : Z) :
  0 ≤ seconds < 2 ^ 53 → 0 ≤ seconds' < 2 ^ 53 →
  (∃ tens units,
     0 ≤ tens < 6 ∧ 0 ≤ units < 10
     ∧ seconds = 60 * (seconds / 60) + 10 * tens + units
     ∧ formatTime seconds
       = (toString (seconds / 60) +:+ ":" +:+ toString tens +:+ toString units)%string)
  ∧ (formatTime seconds = formatTime seconds' → seconds = seconds').
Proof.
  intros [Hs Hlt] [Hs' Hlt'].
  rewrite (formatTime_exact seconds), (formatTime_exact seconds') by done.
  assert (∀ z, 0 ≤ z → 0 ≤ Z.rem z 60 < 60 ∧ z = 60 * (z / 60) + Z.rem z 60) as Hrem.
  { intros z Hz. rewrite Z.rem_mod_nonneg by lia.
    pose proof (Z.mod_pos_bound z 60 ltac:(lia)).
    pose proof (Z.div_mod z 60 ltac:(lia)). lia. }
  assert (∀ r, 0 ≤ r < 60 →
               padStart2 (toString r) = (toString (r / 10) +:+ toString (r mod 10))%string
               ∧ String.length (padStart2 (toString r)) = 2%nat) as Hpad.
  { intros r Hr. pose proof seconds_two_digits as Hall.
    rewrite Forall_forall in Hall. apply Hall. apply elem_of_seqZ. lia. }
  destruct (Hrem seconds Hs) as [Hr Hd]. destruct (Hrem seconds' Hs') as [Hr' Hd'].
  split.
  - exists (Z.rem seconds 60 / 10), (Z.rem seconds 60 mod 10).
    pose proof (Z.div_mod (Z.rem seconds 60) 10 ltac:(lia)).
    pose proof (Z.mod_pos_bound (Z.rem seconds 60) 10 ltac:(lia)).
    split; [split; [apply Z.div_pos; lia | apply Z.div_lt_upper_bound; lia]|].
    split; [lia|]. split; [lia|].
    by rewrite (proj1 (Hpad _ Hr)).
  - intros Heq.
    destruct (Hpad _ Hr) as [_ Hl]. destruct (Hpad _ Hr') as [_ Hl'].
    apply (f_equal String.length) in Heq as Hlen.
    rewrite !string_app_length, Hl, Hl' in Hlen. simpl in Hlen.
    apply string_app_inj in Heq as [Hmins Hrest]; [|lia].
    apply toString_inj in Hmins.
    apply (string_app_inj ":" ":") in Hrest as [_ Hsecs]; [|done].
    assert (Z.rem seconds 60 = Z.rem seconds' 60) as Hrs; [|lia].
    destruct (Hpad _ Hr) as [E _]. destruct (Hpad _ Hr') as [E' _].
    rewrite E, E' in Hsecs.
    assert (∀ r, 0 ≤ r < 60 → String.length (toString (r / 10)) = 1%nat) as Hone.
    { intros r Hrr. assert (r / 10 ∈ seqZ 0 6) as Hin.
      { apply elem_of_seqZ. split; [apply Z.div_pos; lia|].
        apply Z.div_lt_upper_bound; lia. }
      revert Hin. generalize (r / 10). intros q Hq.
      assert (Forall (λ q, String.length (toString q) = 1%nat) (seqZ 0 6)) as Hall
        by (vm_compute; repeat constructor).
      rewrite Forall_forall in Hall. by apply Hall. }
    apply string_app_inj in Hsecs as [Ht Hu]; [|by rewrite !Hone].
    apply toString_inj in Ht, Hu.
    pose proof (Z.div_mod (Z.rem seconds 60) 10 ltac:(lia)).
    pose proof (Z.div_mod (Z.rem seconds' 60) 10 ltac:(lia)). lia.
Qed.

Lemma formatTime_minutes_seconds_witness :
  (∃ tens units,
     0 ≤ tens < 6 ∧ 0 ≤ units < 10
     ∧ 75 = 60 * (75 / 60) + 10 * tens + units
     ∧ formatTime 75
       = (toString (75 / 60) +:+ ":" +:+ toString tens +:+ toString units)%string)
  ∧ (formatTime 75 = formatTime 135 → 75 = 135).
Proof.
  apply (formatTime_minutes_seconds 75 135); lia.
Defined.

(** X18. An accepted move writes into the tile objects of the array it was
    given: seen through the store after the move, that array still holds
    the same references but the two tiles that moved no longer have
    [currentPos] equal to their index in it. *)
Theorem attemptMove_writes_input_tiles
    (h : list Tile) (b : list nat) (n : Z) (e : nat) (i : Z)
    (h' : list Tile) (a' : jsarray) :
  0 < n → well_formed n h b e →
  attemptMove (arr b) n i h = (h', Done (Some a')) →
  (∃ t, tile_at h' b e = Some t ∧ currentPos t = i)
  ∧ (∃ t, tile_at h' b (Z.to_nat i) = Some t ∧ currentPos t = Z.of_nat e)
  ∧ i ≠ Z.of_nat e
  ∧ ¬ positions_ok h' b.
Proof.
  intros Hn Hwf Hrun.
  pose proof (positions_ok_is_board h b (wf_positions _ _ _ _ Hwf)) as Hb.
  destruct (attemptMove_accepted_inv h b n e i h' a' Hb (wf_empty _ _ _ _ Hwf) Hrun)
    as (ti & -> & Hti & Hne & _ & -> & ->).
  rewrite Nat2Z.id.
  destruct (lookup_lt_is_Some_2 b ti Hti) as [li Hli].
  destruct (wf_empty _ _ _ _ Hwf) as [(te & Hte & _) _].
  apply tile_at_Some in Hte as (le & Hle & Hhe).
  destruct (wf_positions _ _ _ _ Hwf ti li Hli) as (tli & Hhli & _).
  assert (li ≠ le) as Hlne.
  { intros ->. apply Hne. by eapply (positions_ok_inj h b), Hle; [apply Hwf|]. }
  assert (record_positions h b ti e !! le = Some (with_currentPos (Z.of_nat ti) te)) as Hnew_e.
  { unfold record_positions. rewrite Hli, Hle.
    by rewrite list_lookup_alter_ne, list_lookup_alter_eq, Hhe. }
  assert (record_positions h b ti e !! li = Some (with_currentPos (Z.of_nat e) tli)) as Hnew_i.
  { unfold record_positions. rewrite Hli, Hle.
    by rewrite list_lookup_alter_eq, list_lookup_alter_ne, Hhli. }
  split; [|split; [|split]].
  - eexists. split; [apply tile_at_Some; eauto|]. done.
  - eexists. split; [apply tile_at_Some; eauto|]. done.
  - lia.
  - intros Hpos. destruct (Hpos e le Hle) as (t & Ht & Hc).
    rewrite Hnew_e in Ht. injection Ht as <-. simpl in Hc. lia.
Qed.

Lemma attemptMove_writes_input_tiles_witness :
  (∃ t, tile_at (record_positions store9 board9 5 8) board9 8 = Some t ∧ currentPos t = 5)
  ∧ (∃ t, tile_at (record_positions store9 board9 5 8) board9 (Z.to_nat 5) = Some t
          ∧ currentPos t = Z.of_nat 8)
  ∧ 5 ≠ Z.of_nat 8
  ∧ ¬ positions_ok (record_positions store9 board9 5 8) board9.
Proof.
  apply (attemptMove_writes_input_tiles store9 board9 3 8 5
           (record_positions store9 board9 5 8) (arr (swap_board board9 5 8))).
  - lia.
  - exact well_formed_board9.
  - vm_compute. reflexivity.
Defined.

Lemma handleGenerateImage_without_board_witness :
  handleGenerateImage (λ x, x) (λ x, x) (λ _, ""%string) "key"
    {| app := {| difficulty := 3; tiles := arr board9; gameState := IDLE; moves := 7 |};
       timeElapsed := 9; prompt := "a cat"; currentImage := Some "img"%string;
       error := None |}
    (geminiService.Resolved
       {| geminiService.candidates :=
            Some [ {| geminiService.content :=
                        Some {| geminiService.parts :=
                                  Some [ {| geminiService.inlineData :=
                                              Some {| geminiService.data := Some "QUJD"%string;
                                                      geminiService.mimeType := None |} |} ] |} |} ] |})
    None true store9
  = (store9,
     Done {| app := {| difficulty := 3; tiles := arr board9;
                       gameState := GENERATING; moves := 7 |};
             timeElapsed := 9; prompt := "a cat"; currentImage := Some "img"%string;
             error := Some "Failed to load image onto board."%string |}).
Proof.
  apply (proj2 (proj2 (handleGenerateImage_without_board (λ x, x) (λ x, x) (λ _, ""%string)
           "key"
           {| app := {| difficulty := 3; tiles := arr board9; gameState := IDLE; moves := 7 |};
              timeElapsed := 9; prompt := "a cat"; currentImage := Some "img"%string;
              error := None |}
           (geminiService.Resolved
              {| geminiService.candidates :=
                   Some [ {| geminiService.content :=
                               Some {| geminiService.parts :=
                                         Some [ {| geminiService.inlineData :=
                                                     Some {| geminiService.data := Some "QUJD"%string;
                                                             geminiService.mimeType := None |} |} ] |} |} ] |})
           None true store9)) eq_refl "data:image/png;base64,QUJD"%string eq_refl).
  by left.
Defined.
